(** * budget-tracker-web: merchant grouping, edit cache, period filter

    A shallow embedding of the algorithmic core of the budget tracker
    (src/js/main.js, src/js/services/merchant-cleaner.js,
    src/js/modules/sheets-api.js) and the properties its specification
    states about it, followed by the utilities (src/js/utils), the category
    manager and the sheet picker (src/js/modules) with properties read off
    the code.

    Conventions of the embedding.
    - A JavaScript string is a [string] of 8-bit characters; only the ASCII
      behaviour of [toLowerCase], [trim], [\s], [\d] and [\w] is modelled.
    - A spreadsheet row is a JavaScript array of cells; a cell is a string,
      [null], or [undefined] (a hole left by a write past the end).
    - Asynchronous calls are modelled by their outcome: the remote store and
      the language-model endpoint are oracles passed as arguments.
    - An instant is the number of milliseconds of local time since the epoch
      (the time zone has a constant offset, so calendar getters read the
      value directly).
    - A JavaScript number is a binary64 datum, a [float]; what its
      operations compute is read from their specification on [spec_float]
      ([SpecFloat], [FloatAxioms]). *)

From Stdlib Require Import ZArith List String Ascii Bool Lia Permutation Sorted.
From Stdlib Require Import DecimalString DecimalNat QArith Qabs Qpower Lqa Zpower.
From Stdlib Require Import Floats.
Import ListNotations.

Local Open Scope string_scope.
Local Open Scope Z_scope.
Local Open Scope list_scope.

(** * JavaScript values of the row table *)

Module Js.

(** A cell of a row array. *)
Inductive cell : Type :=
| JStr (s : string)
| JNull
| JUndef.

Definition cell_eqb (a b : cell) : bool :=
  match a, b with
  | JStr x, JStr y => String.eqb x y
  | JNull, JNull => true
  | JUndef, JUndef => true
  | _, _ => false
  end.

(** Truthiness of a cell: only a non-empty string is truthy. *)
Definition truthy (c : cell) : bool :=
  match c with
  | JStr s => negb (String.eqb s EmptyString)
  | _ => false
  end.

(** [a || b] *)
Definition or_else (a b : cell) : cell := if truthy a then a else b.

Definition row := list cell.
Definition table := list row.

(** [arr[i]] for a numeric index: out of range reads [undefined]. *)
Definition arrayGet (r : row) (i : Z) : cell :=
  if i <? 0 then JUndef else nth (Z.to_nat i) r JUndef.

(** [arr[i] = v] for [i >= 0]: a write past the end extends the array and
    leaves holes. *)
Fixpoint arraySet (r : row) (i : nat) (v : cell) : row :=
  match r, i with
  | [], O => [v]
  | [], S i' => JUndef :: arraySet [] i' v
  | _ :: r', O => v :: r'
  | c :: r', S i' => c :: arraySet r' i' v
  end.

(** [JSON.parse(JSON.stringify(t))] on an array of arrays: strings and
    [null] survive, [undefined] entries are serialised as [null]. *)
Definition jsonCell (c : cell) : cell :=
  match c with
  | JUndef => JNull
  | _ => c
  end.

Definition jsonClone (t : table) : table := map (map jsonCell) t.

(** [Set.prototype.add]: insertion-ordered, no duplicates. *)
Definition setAdd (i : nat) (s : list nat) : list nat :=
  if existsb (Nat.eqb i) s then s else s ++ [i].

(** [Map.prototype.set]: an existing key keeps its position. *)
Fixpoint mapSet (k v : string) (m : list (string * string)) : list (string * string) :=
  match m with
  | [] => [(k, v)]
  | (k', v') :: m' => if String.eqb k k' then (k, v) :: m' else (k', v') :: mapSet k v m'
  end.

(** Decimal rendering of a number in a template literal. *)
Definition decimal (n : nat) : string := NilEmpty.string_of_uint (Nat.to_uint n).

End Js.

(** * sheets-api.js *)

Module SheetsAPI.
Import Js.

(** A request that reaches the remote store. *)
Inductive request : Type :=
| UPDATE (range : string) (value : cell)
| BATCH_UPDATE (updates : list (string * cell)).

Definition is_batch (q : request) : bool :=
  match q with
  | BATCH_UPDATE _ => true
  | UPDATE _ _ => false
  end.

(** [numberToLetter]: the loop runs while [num > 0]; [fuel] bounds the
    number of iterations. *)
Fixpoint numberToLetter_loop (fuel : nat) (num : Z) (result : string) : string :=
  match fuel with
  | O => result
  | S fuel' =>
      if 0 <? num then
        let num1 := num - 1 in
        numberToLetter_loop fuel' (num1 / 26)
          (String (ascii_of_N (Z.to_N (65 + num1 mod 26))) result)
      else result
  end.

Definition numberToLetter (num : Z) : string :=
  numberToLetter_loop (Z.to_nat num) num EmptyString.

End SheetsAPI.

(** * main.js: application state *)

Module App.
Import Js SheetsAPI.

(** The period selector; a value other than the four names falls to the
    [default] branch of the filter. *)
Inductive period : Type := Week | Payweek | Month | Year | OtherPeriod.

(** Positions of the columns, as [findIndex] gives them: -1 when the header
    has no such column.  A column that was never looked up reads as absent
    too. *)
Record ColumnIndices : Type := {
  merchant : Z;
  merchantGroup : Z;
  payweek : Z
}.

Record MerchantEditingCache : Type := {
  enabled : bool;
  originalData : option table;
  pendingChanges : list (string * string);
  changedRows : list nat
}.

Record BudgetTrackerApp : Type := {
  rowsData : table;
  currentPeriod : option period;
  selectedMonth : Z;
  selectedYear : Z;
  merchantEditingCache : MerchantEditingCache;
  columnIndices : ColumnIndices
}.

Definition with_rows (a : BudgetTrackerApp) (t : table) : BudgetTrackerApp :=
  {| rowsData := t;
     currentPeriod := currentPeriod a;
     selectedMonth := selectedMonth a;
     selectedYear := selectedYear a;
     merchantEditingCache := merchantEditingCache a;
     columnIndices := columnIndices a |}.

Definition with_cache (a : BudgetTrackerApp) (c : MerchantEditingCache) : BudgetTrackerApp :=
  {| rowsData := rowsData a;
     currentPeriod := currentPeriod a;
     selectedMonth := selectedMonth a;
     selectedYear := selectedYear a;
     merchantEditingCache := c;
     columnIndices := columnIndices a |}.

(** [getColumnValue(row, columnType)], with the column index already
    looked up: [colIndex !== -1 && row[colIndex] ? row[colIndex] : null]. *)
Definition getColumnValue (r : row) (colIndex : Z) : cell :=
  if negb (colIndex =? -1) && truthy (arrayGet r colIndex)
  then arrayGet r colIndex else JNull.

End App.

(** * main.js: the merchant editing cache *)

Module EditCache.
Import Js SheetsAPI App.

(** [enableMerchantEditingCache]: the snapshot is a deep copy, so later
    writes to the live rows do not reach it. *)
Definition enableMerchantEditingCache (a : BudgetTrackerApp) : BudgetTrackerApp :=
  with_cache a
    {| enabled := true;
       originalData := Some (jsonClone (rowsData a));
       pendingChanges := [];
       changedRows := [] |}.

Definition disableMerchantEditingCache (a : BudgetTrackerApp) : BudgetTrackerApp :=
  with_cache a
    {| enabled := false;
       originalData := None;
       pendingChanges := [];
       changedRows := [] |}.

(** One iteration of the loop of [applyCachedMerchantChange] at index [i]. *)
Definition apply_row (merchantName newGroupName : string)
    (a : BudgetTrackerApp) (i : nat) : BudgetTrackerApp :=
  match nth_error (rowsData a) i with
  | None => a
  | Some r =>
      let rowMerchant := or_else (getColumnValue r (merchant (columnIndices a))) (arrayGet r 2) in
      if cell_eqb rowMerchant (JStr merchantName) then
        let mg := merchantGroup (columnIndices a) in
        let a1 :=
          if 0 <=? mg then
            with_rows a
              (firstn i (rowsData a)
               ++ arraySet r (Z.to_nat mg) (JStr newGroupName)
               :: skipn (S i) (rowsData a))
          else a in
        let c := merchantEditingCache a1 in
        with_cache a1
          {| enabled := enabled c;
             originalData := originalData c;
             pendingChanges := pendingChanges c;
             changedRows := setAdd i (changedRows c) |}
      else a
  end.

Definition applyCachedMerchantChange (merchantName newGroupName : string)
    (a : BudgetTrackerApp) : BudgetTrackerApp :=
  if negb (enabled (merchantEditingCache a)) then a
  else
    let c := merchantEditingCache a in
    let a0 :=
      with_cache a
        {| enabled := enabled c;
           originalData := originalData c;
           pendingChanges := mapSet merchantName newGroupName (pendingChanges c);
           changedRows := changedRows c |} in
    fold_left (apply_row merchantName newGroupName)
      (seq 1 (List.length (rowsData a0) - 1)) a0.

(** What the user interface is told. *)
Inductive ui_event : Type :=
| ToastSaved (count : nat)
| HandleError
| ToastReverted.

(** The body of the [for ... of changedRows] loop: one [updateCell] call is
    started per changed row.  Reading a row that does not exist throws, which
    leaves the calls started so far in flight. *)
Fixpoint start_updates (t : table) (mg : Z) (colLetter : string)
    (rows : list nat) : list request * bool :=
  match rows with
  | [] => ([], true)
  | rowIndex :: rest =>
      match nth_error t rowIndex with
      | None => ([], false)
      | Some r =>
          let newValue := arrayGet r mg in
          let range := (colLetter ++ decimal (rowIndex + 1))%string in
          let '(qs, ok) := start_updates t mg colLetter rest in
          (UPDATE range newValue :: qs, ok)
      end
  end.

Record commit_result : Type := {
  returned : bool;
  after : BudgetTrackerApp;
  issued : list request;
  shown : list ui_event
}.

(** [commitCachedChanges]; [store q] tells whether the promise of request
    [q] is fulfilled. *)
Definition commitCachedChanges (store : request -> bool) (a : BudgetTrackerApp)
    : commit_result :=
  let c := merchantEditingCache a in
  if negb (enabled c) || (List.length (changedRows c) =? 0)%nat then
    {| returned := true; after := a; issued := []; shown := [] |}
  else
    let mg := merchantGroup (columnIndices a) in
    let merchantGroupColLetter := numberToLetter (mg + 1) in
    let '(updatePromises, completed) :=
      start_updates (rowsData a) mg merchantGroupColLetter (changedRows c) in
    if completed && forallb store updatePromises then
      {| returned := true;
         after := disableMerchantEditingCache a;
         issued := updatePromises;
         shown := [ToastSaved (List.length (changedRows c))] |}
    else
      {| returned := false; after := a; issued := updatePromises;
         shown := [HandleError] |}.

(** [revertCachedChanges] *)
Definition revertCachedChanges (a : BudgetTrackerApp) : BudgetTrackerApp * list ui_event :=
  let c := merchantEditingCache a in
  match originalData c with
  | Some snapshot =>
      if enabled c then
        (disableMerchantEditingCache (with_rows a (jsonClone snapshot)), [ToastReverted])
      else (a, [])
  | None => (a, [])
  end.

End EditCache.

(** * JavaScript strings (ASCII range) *)

Module JsString.

Definition chars := list ascii.

Definition code (c : ascii) : nat := nat_of_ascii c.

(** [\s] and the characters removed by [trim]: TAB, LF, VT, FF, CR, SP. *)
Definition is_space (c : ascii) : bool :=
  let n := code c in ((9 <=? n) && (n <=? 13) || (n =? 32))%nat.

(** [\d] *)
Definition is_digit (c : ascii) : bool :=
  let n := code c in ((48 <=? n) && (n <=? 57))%nat.

Definition is_upper (c : ascii) : bool :=
  let n := code c in ((65 <=? n) && (n <=? 90))%nat.

Definition is_lower (c : ascii) : bool :=
  let n := code c in ((97 <=? n) && (n <=? 122))%nat.

(** [\w] *)
Definition is_word (c : ascii) : bool :=
  is_upper c || is_lower c || is_digit c || (code c =? 95)%nat.

(** [.] excludes the line terminators. *)
Definition is_dot (c : ascii) : bool :=
  negb ((code c =? 10) || (code c =? 13))%nat.

Definition lower (c : ascii) : ascii :=
  if is_upper c then ascii_of_nat (code c + 32) else c.

Definition toLowerCase (s : string) : string :=
  string_of_list_ascii (map lower (list_ascii_of_string s)).

Fixpoint dropWhile (p : ascii -> bool) (l : chars) : chars :=
  match l with
  | [] => []
  | c :: l' => if p c then dropWhile p l' else l
  end.

Definition dropWhileEnd (p : ascii -> bool) (l : chars) : chars :=
  rev (dropWhile p (rev l)).

Definition trim_chars (l : chars) : chars :=
  dropWhileEnd is_space (dropWhile is_space l).

Definition trim (s : string) : string :=
  string_of_list_ascii (trim_chars (list_ascii_of_string s)).

Fixpoint prefix_chars (p l : chars) : bool :=
  match p, l with
  | [], _ => true
  | _ :: _, [] => false
  | a :: p', b :: l' => Ascii.eqb a b && prefix_chars p' l'
  end.

Fixpoint includes_chars (p l : chars) : bool :=
  prefix_chars p l ||
  match l with
  | [] => false
  | _ :: l' => includes_chars p l'
  end.

(** [s.includes(sub)] *)
Definition includes (s sub : string) : bool :=
  includes_chars (list_ascii_of_string sub) (list_ascii_of_string s).

End JsString.

(** * Regular expressions: a backtracking matcher

    The fragment of the regular-expression language the program uses, with
    the priority rules of the JavaScript matcher: alternatives are tried
    left to right, a greedy quantifier tries one more iteration first, a lazy
    one tries to stop first, and an iteration that consumes nothing is
    rejected. *)

Module Regex.
Import JsString.

Inductive regex : Type :=
| Eps
| Chr (c : ascii)
| Cls (p : ascii -> bool)
| Seq (r1 r2 : regex)
| Alt (r1 r2 : regex)
| Star (greedy : bool) (r : regex)
| Group (r : regex)
| Bol
| Eol.

Definition Opt (r : regex) : regex := Alt r Eps.
Definition Plus (greedy : bool) (r : regex) : regex := Seq r (Star greedy r).

Fixpoint lit_chars (l : chars) : regex :=
  match l with
  | [] => Eps
  | [c] => Chr c
  | c :: l' => Seq (Chr c) (lit_chars l')
  end.

Definition lit (s : string) : regex := lit_chars (list_ascii_of_string s).

Fixpoint seqs (rs : list regex) : regex :=
  match rs with
  | [] => Eps
  | [r] => r
  | r :: rs' => Seq r (seqs rs')
  end.

Fixpoint alts (rs : list regex) : regex :=
  match rs with
  | [] => Eps
  | [r] => r
  | r :: rs' => Alt r (alts rs')
  end.

(** The first capture group, when it took part in the match. *)
Definition capture := option chars.

Section Exec.
Variable R : Type.
Variable ignoreCase : bool.

Definition char_matches (c x : ascii) : bool :=
  if ignoreCase then Ascii.eqb (lower c) (lower x) else Ascii.eqb c x.

(** [exec r pos s cap k]: match [r] at offset [pos], where [s] is the rest
    of the input from [pos] on, then continue with [k].  A quantifier is
    unrolled at most once per character that is left: every accepted
    iteration consumes at least one character, so when the count reaches
    zero the input is used up and no further iteration could be accepted. *)
Fixpoint exec (r : regex) (pos : nat) (s : chars) (cap : capture)
    (k : nat -> chars -> capture -> option R) {struct r} : option R :=
  match r with
  | Eps => k pos s cap
  | Chr c =>
      match s with
      | x :: s' => if char_matches c x then k (S pos) s' cap else None
      | [] => None
      end
  | Cls p =>
      match s with
      | x :: s' => if p x then k (S pos) s' cap else None
      | [] => None
      end
  | Seq r1 r2 =>
      exec r1 pos s cap (fun pos1 s1 cap1 => exec r2 pos1 s1 cap1 k)
  | Alt r1 r2 =>
      match exec r1 pos s cap k with
      | Some res => Some res
      | None => exec r2 pos s cap k
      end
  | Star greedy r1 =>
      (fix loop (n : nat) (pos0 : nat) (s0 : chars) (cap0 : capture) {struct n} : option R :=
         match n with
         | O => k pos0 s0 cap0
         | S n' =>
             let again (_ : unit) :=
               exec r1 pos0 s0 cap0
                 (fun pos1 s1 cap1 =>
                    if (List.length s1 <? List.length s0)%nat
                    then loop n' pos1 s1 cap1 else None) in
             if greedy then
               match again tt with
               | Some res => Some res
               | None => k pos0 s0 cap0
               end
             else
               match k pos0 s0 cap0 with
               | Some res => Some res
               | None => again tt
               end
         end) (List.length s) pos s cap
  | Group r1 =>
      exec r1 pos s cap
        (fun pos1 s1 _ => k pos1 s1 (Some (firstn (pos1 - pos) s)))
  | Bol => if (pos =? 0)%nat then k pos s cap else None
  | Eol => match s with [] => k pos s cap | _ :: _ => None end
  end.

End Exec.

(** A match: start offset, end offset, capture 1. *)
Definition found := (nat * nat * capture)%type.

Definition match_at (ignoreCase : bool) (r : regex) (pos : nat) (s : chars) : option found :=
  exec found ignoreCase r pos s None (fun e _ cap => Some (pos, e, cap)).

(** Leftmost match at or after offset [pos]; [s] is the input from [pos]. *)
Fixpoint search_from (ignoreCase : bool) (r : regex) (pos : nat) (s : chars) : option found :=
  match match_at ignoreCase r pos s with
  | Some m => Some m
  | None =>
      match s with
      | [] => None
      | _ :: s' => search_from ignoreCase r (S pos) s'
      end
  end.

Definition search (ignoreCase : bool) (r : regex) (input : chars) (from : nat) : option found :=
  if (List.length input <? from)%nat then None
  else search_from ignoreCase r from (skipn from input).

Record RegExp : Type := {
  source : regex;
  flag_i : bool;
  flag_g : bool
}.

(** [re.test(s)].  A global expression starts at its [lastIndex] and moves
    it to the end of the match, or back to 0 when there is none; the other
    expressions leave it alone. *)
Definition test (re : RegExp) (lastIndex : nat) (s : string) : bool * nat :=
  let input := list_ascii_of_string s in
  if flag_g re then
    match search (flag_i re) (source re) input lastIndex with
    | Some (_, e, _) => (true, e)
    | None => (false, 0%nat)
    end
  else
    match search (flag_i re) (source re) input 0 with
    | Some _ => (true, lastIndex)
    | None => (false, lastIndex)
    end.

(** The replacement text: [$1] stands for the first capture group (no other
    [$] sequence occurs in the program's replacement strings). *)
Fixpoint expand (repl : chars) (cap : capture) : chars :=
  match repl with
  | [] => []
  | c :: rest =>
      match rest with
      | d :: rest' =>
          if Ascii.eqb c "$" && Ascii.eqb d "1"
          then match cap with Some g => g | None => [] end ++ expand rest' cap
          else c :: expand rest cap
      | [] => [c]
      end
  end.

(** [s.replace(re, repl)] for an expression without the [g] flag. *)
Definition replace_first (ignoreCase : bool) (r : regex) (s : chars) (repl : chars) : chars :=
  match search ignoreCase r s 0 with
  | Some (b, e, cap) => firstn b s ++ expand repl cap ++ skipn e s
  | None => s
  end.

(** [s.replace(re, repl)] for an expression with the [g] flag: every match,
    left to right; after an empty match the scan moves one character on. *)
Fixpoint replace_all_from (fuel : nat) (ignoreCase : bool) (r : regex)
    (pos : nat) (s : chars) (repl : chars) : chars :=
  match fuel with
  | O => s
  | S fuel' =>
      match search_from ignoreCase r pos s with
      | None => s
      | Some (b, e, cap) =>
          let skipped := firstn (b - pos) s in
          let rest := skipn (e - pos) s in
          if (e =? b)%nat then
            match rest with
            | [] => skipped ++ expand repl cap
            | c :: rest' =>
                skipped ++ expand repl cap ++ c ::
                replace_all_from fuel' ignoreCase r (S e) rest' repl
            end
          else
            skipped ++ expand repl cap ++
            replace_all_from fuel' ignoreCase r e rest repl
      end
  end.

Definition replace (re : RegExp) (s repl : string) : string :=
  let input := list_ascii_of_string s in
  let out := list_ascii_of_string repl in
  string_of_list_ascii
    (if flag_g re
     then replace_all_from (S (List.length input)) (flag_i re) (source re) 0 input out
     else replace_first (flag_i re) (source re) input out).

End Regex.

(** * services/merchant-cleaner.js *)

Module MerchantCleaner.
Import JsString Regex.

Local Open Scope string_scope.

Record rule : Type := {
  pattern : RegExp;
  cleanName : string
}.

Definition re_i (r : regex) : RegExp := {| source := r; flag_i := true; flag_g := false |}.
Definition re_g (r : regex) : RegExp := {| source := r; flag_i := false; flag_g := true |}.

Definition ws : regex := Cls is_space.
Definition digit : regex := Cls is_digit.
Definition dot : regex := Cls is_dot.
Definition hash : regex := Chr "#".
Definition dash_or_space (c : ascii) : bool := Ascii.eqb c "-" || is_space c.

(** The common tail [\s*#?\d*] of the brand patterns. *)
Definition store_number : list regex :=
  [Star true ws; Opt hash; Star true digit].

(** [initializeRegexPatterns] *)
Definition regexPatterns : list rule :=
  [ (* /wal[-\s]?mart\s*#?\d*/i *)
    {| pattern := re_i (seqs ([lit "wal"; Opt (Cls dash_or_space); lit "mart"] ++ store_number));
       cleanName := "Wal-Mart" |};
    (* /walmart\s*#?\d*/i *)
    {| pattern := re_i (seqs (lit "walmart" :: store_number));
       cleanName := "Wal-Mart" |};
    (* /costco\s*(wholesale)?\s*#?\d*/i *)
    {| pattern := re_i (seqs ([lit "costco"; Star true ws; Opt (Group (lit "wholesale"))] ++ store_number));
       cleanName := "Costco" |};
    (* /tim\s*hortons?\s*#?\d*/i *)
    {| pattern := re_i (seqs ([lit "tim"; Star true ws; lit "horton"; Opt (Chr "s")] ++ store_number));
       cleanName := "Tim Hortons" |};
    (* /mcdonald'?s\s*#?\d*/i *)
    {| pattern := re_i (seqs ([lit "mcdonald"; Opt (Chr "'"); Chr "s"] ++ store_number));
       cleanName := "McDonald's" |};
    (* /mcdonalds\s*#?\d*/i *)
    {| pattern := re_i (seqs (lit "mcdonalds" :: store_number));
       cleanName := "McDonald's" |};
    (* /shoppers?\s*drug\s*mart\s*#?\d*/i *)
    {| pattern := re_i (seqs ([lit "shopper"; Opt (Chr "s"); Star true ws; lit "drug";
                               Star true ws; lit "mart"] ++ store_number));
       cleanName := "Shoppers Drug Mart" |};
    (* /^(.+?)\s*#\d+.*$/i *)
    {| pattern := re_i (seqs [Bol; Group (Plus false dot); Star true ws; hash;
                              Plus true digit; Star true dot; Eol]);
       cleanName := "$1" |};
    (* /^(.+?)\s*\d{4,}.*$/i *)
    {| pattern := re_i (seqs [Bol; Group (Plus false dot); Star true ws;
                              digit; digit; digit; digit; Star true digit;
                              Star true dot; Eol]);
       cleanName := "$1" |};
    (* /\s+/g *)
    {| pattern := re_g (Plus true ws);
       cleanName := " " |} ].

(** The rules with a fixed brand name are the first seven of the table. *)
Definition brandRules : list rule := firstn 7 regexPatterns.

(** The [for ... of this.regexPatterns] loop, which stops at the first
    pattern that tests true.  [lastIndex] is the state of the one pattern
    object that carries the [g] flag. *)
Fixpoint apply_rules (rules : list rule) (lastIndex : nat) (cleaned : string)
    : string * nat :=
  match rules with
  | [] => (cleaned, lastIndex)
  | ru :: rest =>
      let '(hit, li) := test (pattern ru) lastIndex cleaned in
      if hit then
        if includes (cleanName ru) "$1" then
          (replace (pattern ru) cleaned (cleanName ru),
           if flag_g (pattern ru) then 0%nat else li)
        else (cleanName ru, li)
      else apply_rules rest li cleaned
  end.

(** [cleanWithRegex(merchantName)] on a string argument. *)
Definition cleanWithRegex (lastIndex : nat) (merchantName : string) : string * nat :=
  if String.eqb merchantName EmptyString then (merchantName, lastIndex)
  else
    let '(cleaned, li) := apply_rules regexPatterns lastIndex (trim merchantName) in
    (trim cleaned, li).

(** The cleaner object: the configured key, the key held by local storage,
    the memo table, and the [lastIndex] of the global pattern. *)
Record MerchantCleaner : Type := {
  openaiApiKey : string;
  storedApiKey : string;
  cleaningCache : list (string * string);
  lastIndex : nat
}.

Definition with_cleaningCache (mc : MerchantCleaner) (c : list (string * string)) : MerchantCleaner :=
  {| openaiApiKey := openaiApiKey mc; storedApiKey := storedApiKey mc;
     cleaningCache := c; lastIndex := lastIndex mc |}.

Definition with_lastIndex (mc : MerchantCleaner) (li : nat) : MerchantCleaner :=
  {| openaiApiKey := openaiApiKey mc; storedApiKey := storedApiKey mc;
     cleaningCache := cleaningCache mc; lastIndex := li |}.

(** [getApiKey]: [this.openaiApiKey || Storage.get('openai_api_key', '')] *)
Definition getApiKey (mc : MerchantCleaner) : string :=
  if String.eqb (openaiApiKey mc) EmptyString then storedApiKey mc else openaiApiKey mc.

Fixpoint cacheGet (k : string) (m : list (string * string)) : option string :=
  match m with
  | [] => None
  | (k', v) :: m' => if String.eqb k k' then Some v else cacheGet k m'
  end.

(** How the request to the language model ends. *)
Inductive gpt_reply : Type :=
| FetchRejected                     (* [fetch] rejects *)
| HttpError (status : Z)            (* [response.ok] is false *)
| JsonRejected                      (* [response.json()] rejects *)
| NoChoices                         (* [data.choices] is missing: a TypeError *)
| Content (content : option string) (* [data.choices[0]?.message?.content] *).

(** How a call ends: with a value, or with an exception (a rejected promise). *)
Inductive completion (A : Type) : Type :=
| Returned (a : A)
| Thrown (message : string).
Arguments Returned {A} a.
Arguments Thrown {A} message.

Definition runRegex (mc : MerchantCleaner) (merchantName : string) : string * MerchantCleaner :=
  let '(cleaned, li) := cleanWithRegex (lastIndex mc) merchantName in
  (cleaned, with_lastIndex mc li).

(** The [try] block of [cleanWithGPT4]: the cleaned name, or the exception
    that the [catch] clause receives. *)
Definition gpt_try (reply : gpt_reply) : completion string :=
  match reply with
  | FetchRejected => Thrown "Failed to fetch"
  | HttpError _ => Thrown "OpenAI API error"
  | JsonRejected => Thrown "Unexpected end of JSON input"
  | NoChoices => Thrown "Cannot read properties of undefined"
  | Content None => Thrown "No response from GPT-4"
  | Content (Some c) =>
      if String.eqb (trim c) EmptyString then Thrown "No response from GPT-4"
      else Returned (trim c)
  end.

(** [cleanWithGPT4(merchantName)] *)
Definition cleanWithGPT4 (reply : gpt_reply) (mc : MerchantCleaner) (merchantName : string)
    : completion string * MerchantCleaner :=
  if String.eqb (getApiKey mc) EmptyString then (Thrown "OpenAI API key not configured", mc)
  else
    match cacheGet merchantName (cleaningCache mc) with
    | Some cached => (Returned cached, mc)
    | None =>
        match gpt_try reply with
        | Returned cleanedName =>
            (Returned cleanedName,
             with_cleaningCache mc (Js.mapSet merchantName cleanedName (cleaningCache mc)))
        | Thrown _ =>
            let '(fallback, mc') := runRegex mc merchantName in
            (Returned fallback, mc')
        end
    end.

(** [cleanMerchantName(merchantName)] on a string argument. *)
Definition cleanMerchantName (reply : gpt_reply) (mc : MerchantCleaner) (merchantName : string)
    : completion string * MerchantCleaner :=
  if String.eqb merchantName EmptyString then (Returned merchantName, mc)
  else
    let '(regexCleaned, mc1) := runRegex mc merchantName in
    if negb (String.eqb regexCleaned merchantName) && (3 <? String.length regexCleaned)%nat then
      (Returned regexCleaned,
       with_cleaningCache mc1 (Js.mapSet merchantName regexCleaned (cleaningCache mc1)))
    else if negb (String.eqb (getApiKey mc1) EmptyString) then
      match cleanWithGPT4 reply mc1 merchantName with
      | (Returned v, mc2) => (Returned v, mc2)
      | (Thrown _, mc2) => (Returned regexCleaned, mc2)
      end
    else (Returned regexCleaned, mc1).

End MerchantCleaner.

(** * main.js: similarity grouping of merchant names *)

Module Similarity.
Import JsString Regex.

Local Open Scope string_scope.

Record normalizedMerchant : Type := {
  original : string;
  normalized : string;
  count : Z
}.

Record proposedGroup : Type := {
  groupName : string;
  merchants : list (string * Z)
}.

Definition trailing_noise (c : ascii) : bool :=
  Ascii.eqb c "#" || is_digit c || Ascii.eqb c "-" || is_space c.

(** /[#\d\-\s]+$/ *)
Definition re_trailing : RegExp :=
  {| source := Seq (Plus true (Cls trailing_noise)) Eol; flag_i := false; flag_g := false |}.

(** /\s+(inc|ltd|llc|corp|co|store|location)\.?$/i *)
Definition re_suffix : RegExp :=
  {| source :=
       seqs [Plus true (Cls is_space);
             Group (alts [lit "inc"; lit "ltd"; lit "llc"; lit "corp"; lit "co";
                          lit "store"; lit "location"]);
             Opt (Chr ".");
             Eol];
     flag_i := true; flag_g := false |}.

(** /[^\w\s]/g *)
Definition re_special : RegExp :=
  {| source := Cls (fun c => negb (is_word c || is_space c));
     flag_i := false; flag_g := true |}.

(** /[\s#\d-]+/ *)
Definition re_token_end : RegExp :=
  {| source := Plus true (Cls trailing_noise); flag_i := false; flag_g := false |}.

(** The key under which names are compared. *)
Definition normalize (merchant : string) : string :=
  trim (replace re_special
          (replace re_suffix
             (replace re_trailing (toLowerCase merchant) EmptyString) EmptyString) EmptyString).

(** [s.split(re)[0]]: the text before the first match, or all of [s]. *)
Definition split_head (re : RegExp) (s : string) : string :=
  let input := list_ascii_of_string s in
  match search (flag_i re) (source re) input 0 with
  | Some (b, _, _) => string_of_list_ascii (firstn b input)
  | None => s
  end.

Definition mem (x : string) (l : list string) : bool := existsb (String.eqb x) l.

(** [Set.prototype.add] on names. *)
Definition addName (x : string) (s : list string) : list string :=
  if mem x s then s else (s ++ [x])%list.

(** [Array.prototype.sort] with the comparator [(a, b) => b.count - a.count]:
    a stable sort, larger counts first. *)
Fixpoint insertByCount (x : normalizedMerchant) (l : list normalizedMerchant)
    : list normalizedMerchant :=
  match l with
  | [] => [x]
  | y :: l' => if (count x <? count y)%Z then y :: insertByCount x l' else x :: l
  end.

Definition sortByCount (l : list normalizedMerchant) : list normalizedMerchant :=
  fold_right insertByCount [] l.

(** The body of [normalizedMerchants.forEach]. *)
Definition visit (all : list normalizedMerchant)
    (st : list string * list proposedGroup) (merchant : normalizedMerchant)
    : list string * list proposedGroup :=
  let '(processed, groups) := st in
  if mem (original merchant) processed then st
  else
    let similar :=
      filter (fun other =>
                negb (mem (original other) processed)
                && String.eqb (normalized other) (normalized merchant)
                && negb (String.eqb (original other) (original merchant))) all in
    if (0 <? List.length similar)%nat then
      let similar := merchant :: similar in
      let processed := fold_left (fun s m => addName (original m) s) similar processed in
      let similar := sortByCount similar in
      let bestName :=
        match similar with
        | best :: _ => trim (split_head re_token_end (original best))
        | [] => EmptyString
        end in
      (processed,
       (groups ++ [ {| groupName := bestName;
                       merchants := map (fun m => (original m, count m)) similar |} ])%list)
    else st.

(** [findSimilarMerchants(merchants, merchantCounts)] *)
Definition findSimilarMerchants (merchants : list string) (merchantCounts : string -> Z)
    : list proposedGroup :=
  let normalizedMerchants :=
    map (fun merchant =>
           {| original := merchant;
              normalized := normalize merchant;
              count := merchantCounts merchant |}) merchants in
  snd (fold_left (visit normalizedMerchants) normalizedMerchants ([], [])).

(** A JavaScript object used as a map from names to counts, as the list of
    its entries in enumeration order. *)
Fixpoint lookupCount (o : list (string * Z)) (k : string) : Z :=
  match o with
  | [] => 0%Z
  | (k', v) :: o' => if String.eqb k k' then v else lookupCount o' k
  end.

(** [analyzeMerchantPatterns(merchantCounts)] *)
Definition analyzeMerchantPatterns (merchantCounts : list (string * Z)) : list proposedGroup :=
  findSimilarMerchants (map fst merchantCounts) (lookupCount merchantCounts).

Definition names (g : proposedGroup) : list string := map fst (merchants g).

End Similarity.

(** * The Date object

    Time values are milliseconds of local time; the calendar is the
    proleptic Gregorian calendar of the language standard.  Every instant
    handled lies within the range of the Date type, so no time value is
    clipped to an invalid date. *)

Module JsDate.

Definition msPerDay : Z := 86400000.

Definition Day (t : Z) : Z := t / msPerDay.
Definition TimeWithinDay (t : Z) : Z := t mod msPerDay.
Definition MakeDate (day time : Z) : Z := day * msPerDay + time.
Definition MakeTime (h m s ms : Z) : Z := ((h * 60 + m) * 60 + s) * 1000 + ms.

(** Year (counted from March), day of that year and month index (March = 0)
    of a day number; day 0 is 1 January 1970. *)
Definition era_day (z : Z) : Z := (z + 719468) mod 146097.
Definition era_of (z : Z) : Z := (z + 719468) / 146097.
Definition year_of_era (doe : Z) : Z :=
  (doe - doe / 1460 + doe / 36524 - doe / 146096) / 365.
Definition day_of_year (doe : Z) : Z :=
  let yoe := year_of_era doe in doe - (365 * yoe + yoe / 4 - yoe / 100).
Definition month_from_march (doy : Z) : Z := (5 * doy + 2) / 153.

(** Civil date (year, month 1..12, day 1..31) of a day number. *)
Definition civil_from_days (z : Z) : Z * Z * Z :=
  let doe := era_day z in
  let yoe := year_of_era doe in
  let doy := day_of_year doe in
  let mp := month_from_march doy in
  let d := doy - (153 * mp + 2) / 5 + 1 in
  let m := if mp <? 10 then mp + 3 else mp - 9 in
  (yoe + era_of z * 400 + (if m <=? 2 then 1 else 0), m, d).

(** Day number of a civil date. *)
Definition days_from_civil (y m d : Z) : Z :=
  let y' := y - (if m <=? 2 then 1 else 0) in
  let era := y' / 400 in
  let yoe := y' - era * 400 in
  let doy := (153 * (if 2 <? m then m - 3 else m + 9) + 2) / 5 + d - 1 in
  let doe := yoe * 365 + yoe / 4 - yoe / 100 + doy in
  era * 146097 + doe - 719468.

Definition getFullYear (t : Z) : Z := fst (fst (civil_from_days (Day t))).
Definition getMonth (t : Z) : Z := snd (fst (civil_from_days (Day t))) - 1.
Definition getDate (t : Z) : Z := snd (civil_from_days (Day t)).
Definition getDay (t : Z) : Z := (Day t + 4) mod 7.

(** [MakeDay(year, month, date)]: the month may lie outside 0..11 and the
    date outside the month. *)
Definition MakeDay (year month date : Z) : Z :=
  days_from_civil (year + month / 12) (month mod 12 + 1) 1 + date - 1.

(** [new Date(year, monthIndex, day)]; a year from 0 to 99 means 1900 + year. *)
Definition newDate (year month date : Z) : Z :=
  let year' := if (0 <=? year) && (year <=? 99) then 1900 + year else year in
  MakeDate (MakeDay year' month date) 0.

(** [d.setDate(date)] *)
Definition setDate (t date : Z) : Z :=
  MakeDate (MakeDay (getFullYear t) (getMonth t) date) (TimeWithinDay t).

(** [d.setHours(h, m, s, ms)] *)
Definition setHours (t h m s ms : Z) : Z :=
  MakeDate (Day t) (MakeTime h m s ms).

End JsDate.

(** * main.js: the period filter *)

Module PeriodFilter.
Import Js App JsDate.

(** [constructor]: the period and the selected month and year as the
    application object is created at instant [now]. *)
Definition construct (now : Z) : BudgetTrackerApp :=
  {| rowsData := [];
     currentPeriod := Some Month;
     selectedMonth := getMonth now;
     selectedYear := getFullYear now;
     merchantEditingCache :=
       {| enabled := false; originalData := None;
          pendingChanges := []; changedRows := [] |};
     columnIndices := {| merchant := -1; merchantGroup := -1; payweek := -1 |} |}.

(** [changePeriod(newPeriod)] *)
Definition changePeriod (a : BudgetTrackerApp) (newPeriod : period) : BudgetTrackerApp :=
  {| rowsData := rowsData a;
     currentPeriod := Some newPeriod;
     selectedMonth := selectedMonth a;
     selectedYear := selectedYear a;
     merchantEditingCache := merchantEditingCache a;
     columnIndices := columnIndices a |}.

(** [isCurrentPayweek(transactionDate)], reading the clock at [now]. *)
Definition isCurrentPayweek (now transactionDate : Z) : bool :=
  let daysDiff := (now - transactionDate) / (1000 * 60 * 60 * 24) in
  daysDiff <=? 14.

(** The start of the fortnight computed by the first definition of
    [getFilteredRows] in the class body (the later definition of the same
    name replaces it): fortnights counted from 1 January of the year of
    [now]. *)
Definition payweekStart (now : Z) : Z :=
  let jan1 := newDate (getFullYear now) 0 1 in
  let daysSinceRef := (now - jan1) / (1000 * 60 * 60 * 24) in
  let payweekNumber := daysSinceRef / 14 in
  jan1 + payweekNumber * 14 * 24 * 60 * 60 * 1000.

Section Engine.
(** [new Date(dateStr)]: the time value, or none for an invalid date. *)
Variable Date_parse : string -> option Z.

(** The callback of [transactions.filter] in [getFilteredRows] (the
    definition in force, the later one in the class body). *)
Definition inPeriod (a : BudgetTrackerApp) (p : period) (now : Z) (transaction : row) : bool :=
  match arrayGet transaction 4 with
  | JStr dateStr =>
      if String.eqb dateStr EmptyString then false
      else
        match Date_parse dateStr with
        | None => false
        | Some transactionDate =>
            match p with
            | Week =>
                let weekStart := setDate now (getDate now - getDay now) in
                let weekStart := setHours weekStart 0 0 0 0 in
                let weekEnd := setDate weekStart (getDate weekStart + 6) in
                let weekEnd := setHours weekEnd 23 59 59 999 in
                (weekStart <=? transactionDate) && (transactionDate <=? weekEnd)
            | Payweek =>
                let payweekValue := getColumnValue transaction (payweek (columnIndices a)) in
                if truthy payweekValue then isCurrentPayweek now transactionDate
                else
                  let twoWeeksAgo := setDate now (getDate now - 14) in
                  twoWeeksAgo <=? transactionDate
            | Month =>
                (getMonth transactionDate =? selectedMonth a)
                && (getFullYear transactionDate =? selectedYear a)
            | Year => getFullYear transactionDate =? selectedYear a
            | OtherPeriod => true
            end
        end
  | _ => false
  end.

(** [getFilteredRows()] at instant [now]. *)
Definition getFilteredRows (a : BudgetTrackerApp) (now : Z) : table :=
  if (List.length (rowsData a) <=? 1)%nat then []
  else
    let transactions := skipn 1 (rowsData a) in
    match currentPeriod a with
    | None => transactions
    | Some p => filter (inPeriod a p now) transactions
    end.

End Engine.

End PeriodFilter.

(** * JavaScript numbers: the value of a binary64 datum *)

Module Binary64.
Local Open Scope Q_scope.

(** The powers of two, of exponents of either sign. *)
Definition pow2 (e : Z) : Q := 2 ^ e.

(** The number a finite binary64 datum stands for; 0 for the infinities and
    for NaN, which [SFfinite] tells apart. *)
Definition SF2Q (x : spec_float) : Q :=
  match x with
  | S754_finite s m e =>
      (if s then - inject_Z (Zpos m) else inject_Z (Zpos m)) * pow2 e
  | _ => 0
  end.

Definition SFfinite (x : spec_float) : bool :=
  match x with
  | S754_zero _ | S754_finite _ _ _ => true
  | _ => false
  end.

(** Neither negative nor an infinity nor NaN. *)
Definition SFnonneg (x : spec_float) : bool :=
  match x with
  | S754_zero _ | S754_finite false _ _ => true
  | _ => false
  end.

Definition F2Q (x : float) : Q := SF2Q (Prim2SF x).

(** What a mantissa with its two rounding bits says about the number [x]
    it was cut from. *)
Definition inside (mrs : shr_record) (x : Q) : Prop :=
  let m := inject_Z (shr_m mrs) in
  match shr_r mrs, shr_s mrs with
  | false, false => x == m
  | false, true => m < x /\ x < m + (1 # 2)
  | true, false => x == m + (1 # 2)
  | true, true => m + (1 # 2) < x /\ x < m + 1
  end.

(** The numbers binary64 holds exactly, sign and range apart: an integer of
    at most 53 binary digits in units of a power of two not below the
    smallest one. *)
Definition representable (v : Q) : Prop :=
  exists (M E : Z),
    (0 <= M)%Z /\ (Zdigits2 M <= 53)%Z /\ (-1074 <= E)%Z /\ v == inject_Z M * pow2 E.

(** The unit roundoff and the smallest half spacing of binary64. *)
Definition roundoff : Q := pow2 (-53).
Definition eta : Q := pow2 (-1075).

(** A JavaScript number that is neither negative nor an infinity nor NaN. *)
Definition nonneg (x : float) : Prop := SFnonneg (Prim2SF x) = true.

End Binary64.

(** * main.js: budget conversion *)

Module Budget.
Import App.

Section OnNumbers.
Local Open Scope float_scope.

Definition payweeksPerYear : float := 26.

(** [convertBudgetFromBase(baseAmount, targetPeriod)] on JavaScript numbers
    (binary64). *)
Definition convertBudgetFromBase (baseAmount : float) (targetPeriod : period) : float :=
  match targetPeriod with
  | Payweek => baseAmount
  | Week => baseAmount / 2
  | Month => (baseAmount * payweeksPerYear) / 12
  | Year => baseAmount * payweeksPerYear
  | OtherPeriod => baseAmount
  end.

(** [convertBudgetToBase(amount, sourcePeriod)] on JavaScript numbers. *)
Definition convertBudgetToBase (amount : float) (sourcePeriod : period) : float :=
  match sourcePeriod with
  | Payweek => amount
  | Week => amount * 2
  | Month => (amount * 12) / payweeksPerYear
  | Year => amount / payweeksPerYear
  | OtherPeriod => amount
  end.

(** [|x - y| <= 1e-9], with the binary64 number closest to 1e-9. *)
Definition within_tolerance (x y : float) : bool :=
  PrimFloat.leb (abs (x - y)) 0x1.12e0be826d695p-30.

End OnNumbers.

Section Exact.
Local Open Scope Q_scope.

Definition payweeksPerYear_exact : Q := 26.

(** The formulas of the two functions read over exact rational arithmetic,
    as the specification states them; the functions on JavaScript numbers
    compute them up to rounding ([convertBudgetFromBase_close] and
    [convertBudgetToBase_close] below). *)
Definition convertBudgetFromBase_exact (baseAmount : Q) (targetPeriod : period) : Q :=
  match targetPeriod with
  | Payweek => baseAmount
  | Week => baseAmount / 2
  | Month => (baseAmount * payweeksPerYear_exact) / 12
  | Year => baseAmount * payweeksPerYear_exact
  | OtherPeriod => baseAmount
  end.

Definition convertBudgetToBase_exact (amount : Q) (sourcePeriod : period) : Q :=
  match sourcePeriod with
  | Payweek => amount
  | Week => amount * 2
  | Month => (amount * 12) / payweeksPerYear_exact
  | Year => amount / payweeksPerYear_exact
  | OtherPeriod => amount
  end.

End Exact.

End Budget.

(** * JavaScript objects used as maps *)

Module JsObject.

(** The own properties of an object literal, in the order of insertion
    (names that are array indices, which would be listed first, are not
    used as keys here). *)
Definition object (V : Type) : Type := list (string * V).

(** The names every object inherits from [Object.prototype]: reading one of
    them from an object that has no such own property gives a function (or,
    for [__proto__], the prototype), not [undefined]. *)
Definition prototypeMembers : list string :=
  ["constructor"; "hasOwnProperty"; "isPrototypeOf"; "propertyIsEnumerable";
   "toLocaleString"; "toString"; "valueOf"; "__proto__";
   "__defineGetter__"; "__defineSetter__"; "__lookupGetter__"; "__lookupSetter__"].

Definition inherited (k : string) : bool := existsb (String.eqb k) prototypeMembers.

Fixpoint own {V : Type} (o : object V) (k : string) : option V :=
  match o with
  | [] => None
  | (k', v) :: o' => if String.eqb k k' then Some v else own o' k
  end.

(** [o[k] = v] on own properties. *)
Fixpoint put {V : Type} (k : string) (v : V) (o : object V) : object V :=
  match o with
  | [] => [(k, v)]
  | (k', v') :: o' => if String.eqb k k' then (k, v) :: o' else (k', v') :: put k v o'
  end.

(** [arr.includes(x)] on strings. *)
Definition includes (l : list string) (x : string) : bool := existsb (String.eqb x) l.

End JsObject.

(** * main.js: reading the merchant groups of the live table *)

Module LiveData.
Import Js App JsString JsObject MerchantCleaner EditCache.

(** [this.getColumnValue(row, 'merchant') || row[2] || 'Unknown'] *)
Definition merchantOf (a : BudgetTrackerApp) (r : row) : cell :=
  or_else (or_else (getColumnValue r (merchant (columnIndices a))) (arrayGet r 2))
          (JStr "Unknown").

(** [merchantGroup && merchantGroup.trim()], for the value of the merchant
    group column: the trimmed group name when it is not blank. *)
Definition groupKey (a : BudgetTrackerApp) (r : row) : option string :=
  match getColumnValue r (merchantGroup (columnIndices a)) with
  | JStr s => if String.eqb (trim s) EmptyString then None else Some (trim s)
  | _ => None
  end.

Definition cell_includes (l : list cell) (x : cell) : bool := existsb (cell_eqb x) l.

(** The body of the loop of [getLiveMerchantData] for one row.  Reading
    [merchantGroups[key]] for a key inherited from the prototype gives a
    value that is truthy and has no [includes] method. *)
Definition liveStep (a : BudgetTrackerApp) (acc : completion (object (list cell))) (r : row)
    : completion (object (list cell)) :=
  match acc with
  | Thrown e => Thrown e
  | Returned merchantGroups =>
      match groupKey a r with
      | None => Returned merchantGroups
      | Some key =>
          match own merchantGroups key with
          | Some members =>
              if cell_includes members (merchantOf a r) then Returned merchantGroups
              else Returned (put key (members ++ [merchantOf a r]) merchantGroups)
          | None =>
              if inherited key
              then Thrown "merchantGroups[merchantGroup.trim(...)].includes is not a function"
              else Returned (put key [merchantOf a r] merchantGroups)
          end
      end
  end.

(** [getLiveMerchantData()].  With the cache disabled it calls
    [this.getExistingMerchantGroups], which the class does not define. *)
Definition getLiveMerchantData (a : BudgetTrackerApp) : completion (object (list cell)) :=
  if negb (enabled (merchantEditingCache a))
  then Thrown "this.getExistingMerchantGroups is not a function"
  else fold_left (liveStep a) (skipn 1 (rowsData a)) (Returned []).

(** [cancelMerchantChanges()]; [confirmed] is the answer to the
    confirmation dialog, which is only asked when there are changes.  The
    second component tells whether the dialog window was closed. *)
Definition cancelMerchantChanges (confirmed : bool) (a : BudgetTrackerApp)
    : BudgetTrackerApp * bool :=
  let c := merchantEditingCache a in
  if enabled c && (0 <? List.length (changedRows c))%nat then
    if confirmed then (fst (revertCachedChanges a), true) else (a, false)
  else (disableMerchantEditingCache a, true).

(** [openMerchantEditDialog()], as far as the state goes: the cache is
    enabled, then the live groups are read. *)
Definition openMerchantEditDialog (a : BudgetTrackerApp)
    : BudgetTrackerApp * completion (object (list cell)) :=
  let a' := enableMerchantEditingCache a in (a', getLiveMerchantData a').

End LiveData.

(** * sheets-api.js: cell ranges and columns *)

Module SheetsRange.
Import Js JsString Regex SheetsAPI App MerchantCleaner.

(** [String.fromCharCode(n)], for code units below 256. *)
Definition fromCharCode (n : Z) : string :=
  String (ascii_of_N (Z.to_N n)) EmptyString.

(** The column letter as [autoCleanNewMerchants] and
    [clearAllMerchantGroups] compute it: [String.fromCharCode(65 + index)]. *)
Definition columnLetterOfIndex (index : Z) : string := fromCharCode (65 + index).

(** [parseInt] on a run of decimal digits. *)
Definition parseDigits (ds : chars) : Z :=
  fold_left (fun acc c => acc * 10 + (Z.of_nat (code c) - 48)) ds 0.

(** The [range] of an [updateCells] request. *)
Record gridRange : Type := {
  startRowIndex : Z;
  endRowIndex : Z;
  startColumnIndex : Z;
  endColumnIndex : Z
}.

(** /\d+/ *)
Definition re_digits : RegExp :=
  {| source := Plus true (Cls is_digit); flag_i := false; flag_g := false |}.

(** The grid range [batchUpdateCells] derives from a cell name when it goes
    through the Sheets API: the row from the first run of digits
    ([range.match(/\d+/)[0]]), the column from the code of the first
    character.  A name without a digit makes [match] return [null]. *)
Definition gridRangeOf (range : string) : completion gridRange :=
  let input := list_ascii_of_string range in
  match search (flag_i re_digits) (source re_digits) input 0, input with
  | Some (b, e, _), c :: _ =>
      let n := parseDigits (firstn (e - b) (skipn b input)) in
      let col := Z.of_nat (code c) in
      Returned {| startRowIndex := n - 1;
                  endRowIndex := n;
                  startColumnIndex := col - 65;
                  endColumnIndex := col - 64 |}
  | _, _ => Thrown "Cannot read properties of null (reading '0')"
  end.

(** One element of [requests] in [batchUpdateCells]. *)
Record updateCellsRequest : Type := {
  range : gridRange;
  stringValue : cell
}.

(** [updates.map(update => ...)]: the first failing element ends the call. *)
Fixpoint updateCellsRequests (updates : list (string * cell))
    : completion (list updateCellsRequest) :=
  match updates with
  | [] => Returned []
  | (cellName, value) :: rest =>
      match gridRangeOf cellName with
      | Thrown e => Thrown e
      | Returned g =>
          match updateCellsRequests rest with
          | Thrown e => Thrown e
          | Returned qs => Returned ({| range := g; stringValue := value |} :: qs)
          end
      end
  end.

(** [headers.findIndex(p)]: the first position that satisfies [p], or -1. *)
Fixpoint findIndex_from (p : cell -> bool) (headers : list cell) (i : Z) : Z :=
  match headers with
  | [] => -1
  | h :: rest => if p h then i else findIndex_from p rest (i + 1)
  end.

Definition findIndex (p : cell -> bool) (headers : list cell) : Z :=
  findIndex_from p headers 0.

(** [h && h.toLowerCase().includes(word)] *)
Definition mentions (word : string) (h : cell) : bool :=
  match h with
  | JStr s => negb (String.eqb s EmptyString) && includes (toLowerCase s) word
  | _ => false
  end.

(** [ensureColumn(sheetId, columnName)]: [data] is what [loadData] returns
    (it throws on an empty sheet) and [store] tells whether a write is
    fulfilled.  The result is the index and the requests sent. *)
Definition ensureColumn (data : table) (store : request -> bool) (columnName : string)
    : completion Z * list request :=
  match data with
  | [] => (Thrown "No data found in the spreadsheet", [])
  | headers :: _ =>
      let columnIndex := findIndex (mentions (toLowerCase columnName)) headers in
      if columnIndex =? -1 then
        let columnIndex := Z.of_nat (List.length headers) in
        let columnLetter := numberToLetter (columnIndex + 1) in
        let q := UPDATE (columnLetter ++ "1") (JStr columnName) in
        if store q then (Returned columnIndex, [q]) else (Thrown "Update failed", [q])
      else (Returned columnIndex, [])
  end.

End SheetsRange.

(** * main.js: finding the columns *)

Module ColumnDetection.
Import Js JsString SheetsAPI App MerchantCleaner SheetsRange.

(** The positions [findColumnIndices] looks up in the header row. *)
Record detected : Type := {
  d_account : Z;
  d_category : Z;
  d_categoryGroup : Z;
  d_recurring : Z;
  d_merchantGroup : Z;
  d_merchant : Z;
  d_payweek : Z;
  d_budget : Z;
  d_isGrouped : Z
}.

(** The nine [findIndex] calls on [this.rowsData[0] || []]. *)
Definition detect (rowsData : table) : detected :=
  let headers := match rowsData with h :: _ => h | [] => [] end in
  {| d_account := findIndex (mentions "account") headers;
     d_category := findIndex (fun h => mentions "category" h && negb (mentions "group" h)) headers;
     d_categoryGroup := findIndex (fun h => mentions "category" h && mentions "group" h) headers;
     d_recurring := findIndex (mentions "recurring") headers;
     d_merchantGroup := findIndex (fun h => mentions "merchant" h && mentions "group" h) headers;
     d_merchant := findIndex (fun h => mentions "merchant" h && negb (mentions "group" h)) headers;
     d_payweek := findIndex (mentions "payweek") headers;
     d_budget := findIndex (mentions "budget") headers;
     d_isGrouped := findIndex (mentions "grouped") headers |}.

Definition with_category (d : detected) (i : Z) : detected :=
  {| d_account := d_account d; d_category := i; d_categoryGroup := d_categoryGroup d;
     d_recurring := d_recurring d; d_merchantGroup := d_merchantGroup d;
     d_merchant := d_merchant d; d_payweek := d_payweek d; d_budget := d_budget d;
     d_isGrouped := d_isGrouped d |}.

Definition with_budget (d : detected) (i : Z) : detected :=
  {| d_account := d_account d; d_category := d_category d; d_categoryGroup := d_categoryGroup d;
     d_recurring := d_recurring d; d_merchantGroup := d_merchantGroup d;
     d_merchant := d_merchant d; d_payweek := d_payweek d; d_budget := i;
     d_isGrouped := d_isGrouped d |}.

Definition with_merchantGroup (d : detected) (i : Z) : detected :=
  {| d_account := d_account d; d_category := d_category d; d_categoryGroup := d_categoryGroup d;
     d_recurring := d_recurring d; d_merchantGroup := i;
     d_merchant := d_merchant d; d_payweek := d_payweek d; d_budget := d_budget d;
     d_isGrouped := d_isGrouped d |}.

(** One "ensure" step: when the position is -1, [ensureColumn] is awaited
    and its result stored.  [sheet] is the table the store holds when the
    call loads it. *)
Definition ensureStep (sheet : table) (store : request -> bool) (columnName : string)
    (current : Z) (set : detected -> Z -> detected)
    (st : completion detected * list request) : completion detected * list request :=
  match st with
  | (Thrown e, qs) => (Thrown e, qs)
  | (Returned d, qs) =>
      if current =? -1 then
        match ensureColumn sheet store columnName with
        | (Returned i, qs') => (Returned (set d i), qs ++ qs')
        | (Thrown e, qs') => (Thrown e, qs ++ qs')
        end
      else (Returned d, qs)
  end.

(** [findColumnIndices()]; the three tables are the sheet as each of the
    three possible [ensureColumn] calls loads it. *)
Definition findColumnIndices (rowsData : table) (sheet1 sheet2 sheet3 : table)
    (store : request -> bool) : completion detected * list request :=
  let d := detect rowsData in
  let st := (Returned d, []) in
  let st := ensureStep sheet1 store "Category" (d_category d) with_category st in
  let st := ensureStep sheet2 store "Budget" (d_budget d) with_budget st in
  ensureStep sheet3 store "Merchant Group" (d_merchantGroup d) with_merchantGroup st.

End ColumnDetection.

(** * services/merchant-cleaner.js: cleaning a list of names *)

Module BulkCleaning.
Import Js JsString MerchantCleaner Similarity.

(** [name && name.trim()] *)
Definition nonBlank (name : string) : bool :=
  negb (String.eqb name EmptyString) && negb (String.eqb (trim name) EmptyString).

(** [[...new Set(merchantNames.filter(name => name && name.trim()))]] *)
Definition uniqueNames (merchantNames : list string) : list string :=
  fold_left (fun s name => addName name s) (filter nonBlank merchantNames) [].

(** The [for ... of uniqueNames] loop.  [replies] tells how the request for
    a name ends, should one be sent. *)
Fixpoint cleanLoop (replies : string -> gpt_reply) (mc : MerchantCleaner)
    (results : list (string * string)) (todo : list string)
    : list (string * string) * MerchantCleaner :=
  match todo with
  | [] => (results, mc)
  | merchantName :: rest =>
      match cleanMerchantName (replies merchantName) mc merchantName with
      | (Returned cleaned, mc') =>
          cleanLoop replies mc' (mapSet merchantName cleaned results) rest
      | (Thrown _, mc') =>
          cleanLoop replies mc' (mapSet merchantName merchantName results) rest
      end
  end.

(** [cleanMerchantNames(merchantNames)]: the result map and the cleaner
    after the call. *)
Definition cleanMerchantNames (replies : string -> gpt_reply) (mc : MerchantCleaner)
    (merchantNames : list string) : list (string * string) * MerchantCleaner :=
  cleanLoop replies mc [] (uniqueNames merchantNames).

End BulkCleaning.

(** * utils: formatters, validators and the URL parser *)

Module Formatters.
Import JsString Regex.

(** The class of the expression in [sanitizeInput]: the two angle
    brackets, the double quote and the apostrophe. *)
Definition dangerous (c : ascii) : bool :=
  Ascii.eqb c "<" || Ascii.eqb c ">" || Ascii.eqb c "034" || Ascii.eqb c "'".

Definition re_dangerous : RegExp :=
  {| source := Cls dangerous; flag_i := false; flag_g := true |}.

(** [sanitizeInput(input)] on a string argument. *)
Definition sanitizeInput (input : string) : string :=
  replace re_dangerous (trim input) EmptyString.

Definition upper (c : ascii) : ascii :=
  if is_lower c then ascii_of_nat (code c - 32) else c.

Definition toUpperCase (s : string) : string :=
  string_of_list_ascii (map upper (list_ascii_of_string s)).

(** [str.charAt(0).toUpperCase() + str.slice(1).toLowerCase()] *)
Definition capitalizeFirst (str : string) : string :=
  match str with
  | EmptyString => EmptyString
  | String c rest => String (upper c) (toLowerCase rest)
  end.

(** [truncate(text, maxLength)] for a length that is a natural number. *)
Definition truncate (text : string) (maxLength : nat) : string :=
  if (maxLength <? String.length text)%nat
  then substring 0 maxLength text ++ "..."
  else text.

End Formatters.

Module Validators.
Import JsString Regex MerchantCleaner.

(** [Validators.sheetId(sheetId)] on a string argument. *)
Definition sheetId (sheetId : string) : completion string :=
  if String.eqb sheetId EmptyString then Thrown "Sheet ID is required"
  else
    let trimmed := trim sheetId in
    if (String.length trimmed <? 20)%nat then Thrown "Invalid Sheet ID format"
    else Returned trimmed.

Definition plain (c : ascii) : bool := negb (is_space c || Ascii.eqb c "@").

(** /^[^\s@]+@[^\s@]+\.[^\s@]+$/ *)
Definition emailRegex : RegExp :=
  {| source := seqs [Bol; Plus true (Cls plain); Chr "@"; Plus true (Cls plain);
                     Chr "."; Plus true (Cls plain); Eol];
     flag_i := false; flag_g := false |}.

(** [Validators.email(email)] on a string argument. *)
Definition email (email : string) : bool := fst (test emailRegex 0 email).

End Validators.

Module URLParser.
Import JsString Regex.

(** The class [a-zA-Z0-9-_]. *)
Definition idChar (c : ascii) : bool :=
  is_lower c || is_upper c || is_digit c || Ascii.eqb c "-" || Ascii.eqb c "_".

Definition plainRegExp (r : regex) : RegExp :=
  {| source := r; flag_i := false; flag_g := false |}.

Definition idGroup : regex := Group (Plus true (Cls idChar)).

(** The three patterns of [extractSheetId], in the order of the array. *)
Definition patterns : list RegExp :=
  [ plainRegExp (Seq (lit "/spreadsheets/d/") idGroup);
    plainRegExp (Seq (lit "docs.google.com/spreadsheets/d/") idGroup);
    plainRegExp (Seq (lit "/d/") idGroup) ].

(** [s.match(re)] followed by [match && match[1]]: the text of the first
    group, when there is a match and the text is not empty. *)
Definition matchGroup (re : RegExp) (s : string) : option string :=
  match search (flag_i re) (source re) (list_ascii_of_string s) 0 with
  | Some (_, _, Some g) =>
      match g with
      | [] => None
      | _ :: _ => Some (string_of_list_ascii g)
      end
  | _ => None
  end.

(** The [for ... of patterns] loop. *)
Fixpoint firstGroup (ps : list RegExp) (s : string) : option string :=
  match ps with
  | [] => None
  | pattern :: rest =>
      match matchGroup pattern s with
      | Some id => Some id
      | None => firstGroup rest s
      end
  end.

(** [extractSheetId(input)] on a string argument; [None] is [null]. *)
Definition extractSheetId (input : string) : option string :=
  if String.eqb input EmptyString then None
  else
    let trimmed := trim input in
    if negb (includes trimmed "/") && (20 <? String.length trimmed)%nat then Some trimmed
    else firstGroup patterns trimmed.

(** [cleanUrl(input)] on a string argument. *)
Definition cleanUrl (input : string) : string :=
  if String.eqb input EmptyString then EmptyString else trim input.

(** [isGoogleSheetsUrl(input)] *)
Definition isGoogleSheetsUrl (input : string) : bool :=
  if String.eqb input EmptyString then false
  else
    let trimmed := toLowerCase (trim input) in
    includes trimmed "docs.google.com/spreadsheets" || includes trimmed "sheets.google.com".

(** [isAppsScriptUrl(input)] *)
Definition isAppsScriptUrl (input : string) : bool :=
  if String.eqb input EmptyString then false
  else
    let trimmed := toLowerCase (trim input) in
    includes trimmed "script.google.com" || includes trimmed "script.googleusercontent.com".

(** [extractAppsScriptId(url)]: /\/macros\/s\/([a-zA-Z0-9-_]+)\// *)
Definition extractAppsScriptId (url : string) : option string :=
  if String.eqb url EmptyString then None
  else
    match search false (seqs [lit "/macros/s/"; idGroup; Chr "/"]) (list_ascii_of_string url) 0 with
    | Some (_, _, Some g) => Some (string_of_list_ascii g)
    | _ => None
    end.

(** [validateAppsScriptUrl(url)] *)
Definition validateAppsScriptUrl (url : string) : bool :=
  if String.eqb url EmptyString then false
  else
    let trimmed := trim url in
    existsb (fun pattern => fst (test pattern 0 trimmed))
      [ plainRegExp (seqs [Bol; lit "https://script.google.com/macros/s/";
                           Plus true (Cls idChar); lit "/exec"]);
        plainRegExp (seqs [Bol; lit "https://script.googleusercontent.com/macros/echo"]) ].

Inductive urlType : Type := AppsScript | Sheets | SheetsId | Unknown.

(** The object [smartParse] returns. *)
Record parsed : Type := {
  type : urlType;
  url : string;
  id : option string;
  valid : bool
}.

(** [smartParse(input)] on a string argument. *)
Definition smartParse (input : string) : parsed :=
  let cleaned := cleanUrl input in
  if isAppsScriptUrl cleaned then
    {| type := AppsScript; url := cleaned; id := extractAppsScriptId cleaned;
       valid := validateAppsScriptUrl cleaned |}
  else if isGoogleSheetsUrl cleaned then
    let sheetId := extractSheetId cleaned in
    {| type := Sheets; url := cleaned; id := sheetId;
       valid := match sheetId with Some _ => true | None => false end |}
  else
    match extractSheetId cleaned with
    | Some sheetId =>
        if String.eqb sheetId EmptyString then
          {| type := Unknown; url := cleaned; id := None; valid := false |}
        else
          {| type := SheetsId;
             url := "https://docs.google.com/spreadsheets/d/" ++ sheetId ++ "/edit";
             id := Some sheetId; valid := true |}
    | None => {| type := Unknown; url := cleaned; id := None; valid := false |}
    end.

End URLParser.

(** * modules/categories.js *)

Module Categories.
Import JsString MerchantCleaner JsObject Formatters.

(** The category manager: the list of categories and the object that maps
    a group name to the array of its categories. *)
Record CategoryManager : Type := {
  categories : list string;
  categoryGroups : object (list string)
}.

(** [arr.indexOf(x)] followed by [arr.splice(index, 1)] when the index is
    not -1: the first occurrence is taken out. *)
Fixpoint removeFirst (x : string) (l : list string) : list string :=
  match l with
  | [] => []
  | y :: l' => if String.eqb x y then l' else y :: removeFirst x l'
  end.

(** The [Object.keys(this.categoryGroups).forEach] loop that takes a
    category out of every group. *)
Definition removeFromGroups (categoryName : string) (groups : object (list string))
    : object (list string) :=
  map (fun '(group, members) => (group, removeFirst categoryName members)) groups.

(** [addCategory(categoryName, groupName)]; [groupName] is [None] for
    [null].  The result is how the call ends and the manager after it;
    reading [categoryGroups[groupName]] for a name inherited from the
    prototype gives a value without a [push] method, and the call throws
    after the list of categories has grown. *)
Definition addCategory (cm : CategoryManager) (categoryName : string)
    (groupName : option string) : completion bool * CategoryManager :=
  let sanitizedName := sanitizeInput categoryName in
  if String.eqb sanitizedName EmptyString || includes (categories cm) sanitizedName
  then (Returned false, cm)
  else
    let cm1 := {| categories := categories cm ++ [sanitizedName];
                  categoryGroups := categoryGroups cm |} in
    match groupName with
    | None => (Returned true, cm1)
    | Some g =>
        if String.eqb g EmptyString then (Returned true, cm1)
        else
          match own (categoryGroups cm) g with
          | Some members =>
              (Returned true,
               {| categories := categories cm1;
                  categoryGroups := put g (members ++ [sanitizedName]) (categoryGroups cm) |})
          | None =>
              if inherited g
              then (Thrown "this.categoryGroups[groupName].push is not a function", cm1)
              else (Returned true, cm1)
          end
    end.

(** [removeCategory(categoryName)] *)
Definition removeCategory (cm : CategoryManager) (categoryName : string)
    : bool * CategoryManager :=
  if includes (categories cm) categoryName then
    (true, {| categories := removeFirst categoryName (categories cm);
              categoryGroups := removeFromGroups categoryName (categoryGroups cm) |})
  else (false, cm).

(** [findCategoryGroup(categoryName)]; [None] is [null]. *)
Fixpoint findGroup (groups : object (list string)) (categoryName : string) : option string :=
  match groups with
  | [] => None
  | (groupName, members) :: rest =>
      if includes members categoryName then Some groupName
      else findGroup rest categoryName
  end.

Definition findCategoryGroup (cm : CategoryManager) (categoryName : string) : option string :=
  findGroup (categoryGroups cm) categoryName.

(** [moveCategory(categoryName, newGroupName)]: how the call ends and the
    manager after it.  A group name inherited from the prototype and not an
    own property reads as a value without an [includes] method: the call
    throws after the category has been taken out of its groups. *)
Definition moveCategory (cm : CategoryManager) (categoryName newGroupName : string)
    : completion unit * CategoryManager :=
  let groups := removeFromGroups categoryName (categoryGroups cm) in
  match own groups newGroupName with
  | Some members =>
      (Returned tt,
       {| categories := categories cm;
          categoryGroups :=
            if includes members categoryName then groups
            else put newGroupName (members ++ [categoryName]) groups |})
  | None =>
      if inherited newGroupName
      then (Thrown "this.categoryGroups[newGroupName].includes is not a function",
            {| categories := categories cm; categoryGroups := groups |})
      else (Returned tt,
            {| categories := categories cm;
               categoryGroups := put newGroupName [categoryName] groups |})
  end.

End Categories.

(** * modules/drive-picker.js: the recently used sheets *)

Module DrivePicker.

(** What the picker stores for a sheet. *)
Record sheetInfo : Type := {
  id : string;
  name : string;
  lastUsed : string
}.

(** [storeRecentSheet(sheetInfo)]: the list stored, from the list read. *)
Definition storeRecentSheet (info : sheetInfo) (recentSheets : list sheetInfo)
    : list sheetInfo :=
  let filtered := filter (fun sheet => negb (String.eqb (id sheet) (id info))) recentSheets in
  firstn 5 (info :: filtered).

End DrivePicker.

(** * Properties of the cell addressing *)

Module SheetsAPIFacts.
Import SheetsAPI.

(** The loop of [numberToLetter] ends before its bound is used up: any two
    bounds of at least [num] iterations give the same string. *)
Lemma numberToLetter_loop_fuel (fuel : nat) : forall (fuel' : nat) (num : Z) (result : string),
  (Z.to_nat num <= fuel)%nat -> (Z.to_nat num <= fuel')%nat ->
  numberToLetter_loop fuel num result = numberToLetter_loop fuel' num result.
Proof.
  induction fuel as [|f IH]; intros fuel' num result H H'.
  - destruct fuel' as [|f']; simpl; [reflexivity|].
    replace (0 <? num) with false by (symmetry; apply Z.ltb_ge; lia). reflexivity.
  - destruct fuel' as [|f']; simpl.
    + replace (0 <? num) with false by (symmetry; apply Z.ltb_ge; lia). reflexivity.
    + destruct (0 <? num) eqn:E; [|reflexivity].
      apply Z.ltb_lt in E.
      assert ((num - 1) / 26 <= num - 1) by (Z.div_mod_to_equations; lia).
      apply IH; lia.
Qed.

Example numberToLetter_examples :
  map numberToLetter [0; 1; 9; 26; 27; 52; 703] = [EmptyString; "A"; "I"; "Z"; "AA"; "AZ"; "AAA"].
Proof. reflexivity. Qed.

End SheetsAPIFacts.

(** * Properties of the merchant editing cache *)

Module EditCacheFacts.
Import Js SheetsAPI App EditCache.

Example arraySet_past_the_end :
  arraySet [JStr "a"] 3 (JStr "g") = [JStr "a"; JUndef; JUndef; JStr "g"]
  /\ jsonClone [arraySet [JStr "a"] 3 (JStr "g")] = [[JStr "a"; JNull; JNull; JStr "g"]].
Proof. split; reflexivity. Qed.

Lemma jsonCell_idempotent (c : cell) : jsonCell (jsonCell c) = jsonCell c.
Proof. destruct c; reflexivity. Qed.

Lemma jsonClone_idempotent (t : table) : jsonClone (jsonClone t) = jsonClone t.
Proof.
  unfold jsonClone. rewrite map_map.
  apply map_ext. intros r. rewrite map_map.
  apply map_ext. exact jsonCell_idempotent.
Qed.

(** A table without holes is its own JSON copy. *)
Definition json_safe (t : table) : Prop :=
  Forall (Forall (fun c => c <> JUndef)) t.

Lemma jsonClone_safe (t : table) : json_safe t -> jsonClone t = t.
Proof.
  unfold json_safe, jsonClone. induction 1 as [|r t Hr _ IH]; simpl.
  - reflexivity.
  - f_equal; [|exact IH].
    induction Hr as [|c r Hc _ IHr]; simpl; [reflexivity|].
    f_equal; [|exact IHr]. destruct c; try reflexivity. congruence.
Qed.

(** What one loop iteration of [applyCachedMerchantChange] leaves alone. *)
Lemma apply_row_frame m g a i :
  enabled (merchantEditingCache (apply_row m g a i)) = enabled (merchantEditingCache a)
  /\ originalData (merchantEditingCache (apply_row m g a i)) = originalData (merchantEditingCache a)
  /\ columnIndices (apply_row m g a i) = columnIndices a.
Proof.
  unfold apply_row.
  destruct (nth_error (rowsData a) i) as [r|]; [|auto].
  destruct (cell_eqb _ _); [|auto].
  destruct (0 <=? merchantGroup (columnIndices a)); simpl; auto.
Qed.

Lemma apply_rows_frame m g (ixs : list nat) : forall a,
  let a' := fold_left (apply_row m g) ixs a in
  enabled (merchantEditingCache a') = enabled (merchantEditingCache a)
  /\ originalData (merchantEditingCache a') = originalData (merchantEditingCache a)
  /\ columnIndices a' = columnIndices a.
Proof.
  induction ixs as [|i ixs IH]; intros a; simpl; [auto|].
  destruct (IH (apply_row m g a i)) as (E & O & C).
  destruct (apply_row_frame m g a i) as (E' & O' & C').
  repeat split; congruence.
Qed.

Lemma applyCachedMerchantChange_frame m g a :
  enabled (merchantEditingCache (applyCachedMerchantChange m g a)) = enabled (merchantEditingCache a)
  /\ originalData (merchantEditingCache (applyCachedMerchantChange m g a))
     = originalData (merchantEditingCache a).
Proof.
  unfold applyCachedMerchantChange.
  destruct (enabled (merchantEditingCache a)) eqn:En; simpl; [|auto].
  match goal with
  | |- context [fold_left _ ?ixs ?a0] =>
      destruct (apply_rows_frame m g ixs a0) as (E & O & _)
  end.
  simpl in E, O. rewrite E, O. auto.
Qed.

(** A session of edits: the [apply] calls made one after the other. *)
Definition applyAll (edits : list (string * string)) (a : BudgetTrackerApp) : BudgetTrackerApp :=
  fold_left (fun st e => applyCachedMerchantChange (fst e) (snd e) st) edits a.

Lemma applyAll_frame edits : forall a,
  enabled (merchantEditingCache (applyAll edits a)) = enabled (merchantEditingCache a)
  /\ originalData (merchantEditingCache (applyAll edits a))
     = originalData (merchantEditingCache a).
Proof.
  unfold applyAll. induction edits as [|e edits IH]; intros a; simpl; [auto|].
  destruct (IH (applyCachedMerchantChange (fst e) (snd e) a)) as (E & O).
  destruct (applyCachedMerchantChange_frame (fst e) (snd e) a) as (E' & O').
  split; congruence.
Qed.

Definition disabledCache : MerchantEditingCache :=
  {| enabled := false; originalData := None; pendingChanges := []; changedRows := [] |}.

(** The requests started for a list of changed rows that all exist. *)
Definition expected_updates (a : BudgetTrackerApp) (rows : list nat) : list request :=
  let mg := merchantGroup (columnIndices a) in
  map (fun rowIndex =>
         UPDATE (numberToLetter (mg + 1) ++ decimal (rowIndex + 1))
                (arrayGet (nth rowIndex (rowsData a) []) mg)) rows.

Lemma start_updates_all_exist t mg letter rows :
  Forall (fun i => (i < List.length t)%nat) rows ->
  start_updates t mg letter rows
  = (map (fun rowIndex => UPDATE (letter ++ decimal (rowIndex + 1))
                                 (arrayGet (nth rowIndex t []) mg)) rows, true).
Proof.
  induction 1 as [|i rows Hi _ IH]; simpl; [reflexivity|].
  destruct (nth_error t i) as [r|] eqn:E.
  - rewrite IH. rewrite (nth_error_nth _ _ _ E). reflexivity.
  - apply nth_error_None in E. lia.
Qed.


Lemma commit_guard a :
  enabled (merchantEditingCache a) = true ->
  changedRows (merchantEditingCache a) <> [] ->
  negb (enabled (merchantEditingCache a))
  || (List.length (changedRows (merchantEditingCache a)) =? 0)%nat = false.
Proof.
  intros En Ne. rewrite En. simpl.
  destruct (changedRows (merchantEditingCache a)); [congruence|reflexivity].
Qed.

(** An application state used as a running example: a header row and three
    transactions, merchant in column 2 and merchant group in column 8. *)
Definition sample_rows : table :=
  [ [JStr "Account"; JStr "Amount"; JStr "Merchant"; JStr "Description"; JStr "Date";
     JStr "ID"; JStr "Notes"; JStr "Category"; JStr "Merchant Group"];
    [JStr "Visa"; JStr "-45"; JStr "TIM HORTONS #12"; JStr EmptyString; JStr "2024-03-01";
     JStr "1"; JStr EmptyString; JStr "Food"; JStr "Old"];
    [JStr "Visa"; JStr "-12"; JStr "COSTCO"; JStr EmptyString; JStr "2024-03-02"];
    [JStr "Visa"; JStr "-7"; JStr "TIM HORTONS #12"; JStr EmptyString; JStr "2024-03-03";
     JStr "3"; JStr EmptyString; JStr "Food"] ].

Definition sample_app : BudgetTrackerApp :=
  {| rowsData := sample_rows;
     currentPeriod := Some Month;
     selectedMonth := 2;
     selectedYear := 2024;
     merchantEditingCache := disabledCache;
     columnIndices := {| merchant := 2; merchantGroup := 8; payweek := -1 |} |}.

(** The example after [enable] and one [apply]: rows 1 and 3 are changed. *)
Definition sample_session : BudgetTrackerApp :=
  applyCachedMerchantChange "TIM HORTONS #12" "Tim Hortons"
    (enableMerchantEditingCache sample_app).

Example sample_session_state :
  changedRows (merchantEditingCache sample_session) = [1%nat; 3%nat]
  /\ pendingChanges (merchantEditingCache sample_session) = [("TIM HORTONS #12", "Tim Hortons")]
  /\ map (fun r => arrayGet r 8) (rowsData sample_session)
     = [JStr "Merchant Group"; JStr "Tim Hortons"; JUndef; JStr "Tim Hortons"]
  /\ originalData (merchantEditingCache sample_session) = Some sample_rows.
Proof. repeat split; reflexivity. Qed.

(** C10: while the cache is disabled, [applyCachedMerchantChange] changes
    nothing: the row table, the pending-changes map and the changed-row set
    (indeed the whole application state) are as before. *)
Theorem applyCachedMerchantChange_disabled_noop (merchantName newGroupName : string)
    (a : BudgetTrackerApp) :
  enabled (merchantEditingCache a) = false ->
  applyCachedMerchantChange merchantName newGroupName a = a
  /\ rowsData (applyCachedMerchantChange merchantName newGroupName a) = rowsData a
  /\ pendingChanges (merchantEditingCache (applyCachedMerchantChange merchantName newGroupName a))
     = pendingChanges (merchantEditingCache a)
  /\ changedRows (merchantEditingCache (applyCachedMerchantChange merchantName newGroupName a))
     = changedRows (merchantEditingCache a).
Proof.
  intros Dis.
  assert (E : applyCachedMerchantChange merchantName newGroupName a = a).
  { unfold applyCachedMerchantChange. rewrite Dis. reflexivity. }
  rewrite E. auto.
Qed.

Lemma applyCachedMerchantChange_disabled_noop_witness :
  applyCachedMerchantChange "COSTCO" "Costco" sample_app = sample_app.
Proof.
  apply (proj1 (applyCachedMerchantChange_disabled_noop "COSTCO" "Costco" sample_app eq_refl)).
Defined.

(** C5: after [enable] and any sequence of [apply] calls, [revert] sets the
    live row table to exactly the snapshot taken by [enable] and disables
    the cache (snapshot, pending changes and changed rows cleared); the
    snapshot is the table as it was at [enable] when that table has no
    holes.  When the cache is disabled or holds no snapshot, [revert]
    leaves the state as it is. *)
Theorem revertCachedChanges_restores_snapshot (a : BudgetTrackerApp)
    (edits : list (string * string)) :
  let enabledApp := enableMerchantEditingCache a in
  let snapshot := jsonClone (rowsData a) in
  let edited := applyAll edits enabledApp in
  let reverted := fst (revertCachedChanges edited) in
  originalData (merchantEditingCache enabledApp) = Some snapshot
  /\ originalData (merchantEditingCache edited) = Some snapshot
  /\ rowsData reverted = snapshot
  /\ merchantEditingCache reverted = disabledCache
  /\ (json_safe (rowsData a) -> rowsData reverted = rowsData a)
  /\ (forall b : BudgetTrackerApp,
        enabled (merchantEditingCache b) = false
        \/ originalData (merchantEditingCache b) = None ->
        revertCachedChanges b = (b, [])).
Proof.
  intros enabledApp snapshot edited reverted.
  destruct (applyAll_frame edits enabledApp) as (En & Orig).
  fold edited in En, Orig. simpl in En, Orig. fold snapshot in Orig.
  assert (Rows : rowsData reverted = snapshot).
  { unfold reverted, revertCachedChanges. rewrite Orig, En. simpl.
    unfold snapshot. apply jsonClone_idempotent. }
  split; [reflexivity|]. split; [exact Orig|]. split; [exact Rows|].
  split.
  { unfold reverted, revertCachedChanges. rewrite Orig, En. reflexivity. }
  split.
  { intros Safe. rewrite Rows. unfold snapshot. apply jsonClone_safe, Safe. }
  intros b [Dis | NoSnap]; unfold revertCachedChanges.
  - rewrite Dis. destruct (originalData (merchantEditingCache b)); reflexivity.
  - rewrite NoSnap. reflexivity.
Qed.

Lemma revertCachedChanges_restores_snapshot_witness :
  rowsData (fst (revertCachedChanges sample_session)) = sample_rows
  /\ revertCachedChanges sample_app = (sample_app, []).
Proof.
  pose proof (revertCachedChanges_restores_snapshot sample_app
                [("TIM HORTONS #12", "Tim Hortons")]) as H.
  cbv zeta in H. destruct H as (_ & _ & _ & _ & Safe & Noop).
  split.
  - apply Safe. unfold json_safe, sample_app, sample_rows; simpl.
    repeat (constructor; try discriminate).
  - apply Noop. left. reflexivity.
Defined.

(** C2: a commit with changed rows either fails as a whole or succeeds as a
    whole.  It fails exactly when a changed row cannot be read or some
    write is not fulfilled; then the whole application state (row table with
    the edits applied, snapshot, pending changes, changed-row set, cache
    still enabled) is unchanged, the error is shown and [false] is
    returned.  Otherwise [true] is returned, the row table is not reverted
    and the cache is disabled with its snapshot and sets cleared. *)
Theorem commitCachedChanges_all_or_nothing (store : request -> bool)
    (a : BudgetTrackerApp) :
  enabled (merchantEditingCache a) = true ->
  changedRows (merchantEditingCache a) <> [] ->
  let r := commitCachedChanges store a in
  let started :=
    start_updates (rowsData a) (merchantGroup (columnIndices a))
      (numberToLetter (merchantGroup (columnIndices a) + 1))
      (changedRows (merchantEditingCache a)) in
  issued r = fst started
  /\ (snd started && forallb store (issued r) = false ->
      returned r = false /\ after r = a /\ shown r = [HandleError]
      /\ enabled (merchantEditingCache (after r)) = true)
  /\ (snd started && forallb store (issued r) = true ->
      returned r = true
      /\ rowsData (after r) = rowsData a
      /\ merchantEditingCache (after r) = disabledCache
      /\ shown r = [ToastSaved (List.length (changedRows (merchantEditingCache a)))]).
Proof.
  intros En Ne r started.
  unfold r, commitCachedChanges. rewrite (commit_guard a En Ne).
  fold started. destruct started as [qs completed]. simpl fst; simpl snd.
  destruct (completed && forallb store qs) eqn:OK; simpl; rewrite OK.
  - split; [reflexivity|]. split; [discriminate|]. auto.
  - split; [reflexivity|]. split; [auto|discriminate].
Qed.

Lemma commitCachedChanges_all_or_nothing_witness :
  (let r := commitCachedChanges (fun _ => false) sample_session in
   returned r = false /\ after r = sample_session)
  /\ (let r := commitCachedChanges (fun _ => true) sample_session in
      returned r = true /\ rowsData (after r) = rowsData sample_session
      /\ merchantEditingCache (after r) = disabledCache).
Proof.
  split.
  - pose proof (commitCachedChanges_all_or_nothing (fun _ => false) sample_session) as H.
    destruct H as (_ & Fail & _); [reflexivity|discriminate|].
    destruct Fail as (R & A & _); [reflexivity|]. split; assumption.
  - pose proof (commitCachedChanges_all_or_nothing (fun _ => true) sample_session) as H.
    destruct H as (_ & _ & Good); [reflexivity|discriminate|].
    destruct Good as (R & T & C & _); [reflexivity|]. repeat split; assumption.
Defined.

(** C1 as stated fails: with two changed rows the commit sends two separate
    single-cell requests, not one batch request. *)
Lemma commitCachedChanges_not_one_batch :
  enabled (merchantEditingCache sample_session) = true
  /\ changedRows (merchantEditingCache sample_session) = [1%nat; 3%nat]
  /\ issued (commitCachedChanges (fun _ => true) sample_session)
     = [UPDATE "I2" (JStr "Tim Hortons"); UPDATE "I4" (JStr "Tim Hortons")]
  /\ ~ (exists updates,
          issued (commitCachedChanges (fun _ => true) sample_session)
          = [BATCH_UPDATE updates]).
Proof.
  repeat split; try reflexivity.
  intros [updates H]. vm_compute in H. discriminate H.
Qed.

(** C1, amended: for an enabled cache with changed rows that all exist, the
    commit starts exactly one single-cell update request per changed row, in
    the order of the changed-row set, each carrying the current
    merchant-group value of its row at the cell named by the column letter
    and the row index plus one; no batch request is sent.  When every write
    is fulfilled the commit returns [true] and reports a count equal to the
    number of changed rows. *)
Theorem commitCachedChanges_one_update_per_changed_row (store : request -> bool)
    (a : BudgetTrackerApp) :
  enabled (merchantEditingCache a) = true ->
  changedRows (merchantEditingCache a) <> [] ->
  Forall (fun i => (i < List.length (rowsData a))%nat) (changedRows (merchantEditingCache a)) ->
  let r := commitCachedChanges store a in
  issued r = expected_updates a (changedRows (merchantEditingCache a))
  /\ List.length (issued r) = List.length (changedRows (merchantEditingCache a))
  /\ forallb (fun q => negb (is_batch q)) (issued r) = true
  /\ (forallb store (issued r) = true ->
      returned r = true
      /\ shown r = [ToastSaved (List.length (changedRows (merchantEditingCache a)))]).
Proof.
  intros En Ne Exist r.
  pose proof (start_updates_all_exist (rowsData a) (merchantGroup (columnIndices a))
                (numberToLetter (merchantGroup (columnIndices a) + 1)) _ Exist) as St.
  assert (I : issued r = expected_updates a (changedRows (merchantEditingCache a))).
  { unfold r, commitCachedChanges. rewrite (commit_guard a En Ne), St.
    destruct (true && forallb store _); reflexivity. }
  split; [exact I|]. split.
  { rewrite I. unfold expected_updates. apply length_map. }
  split.
  { rewrite I. unfold expected_updates. rewrite forallb_forall.
    intros q Hq. apply in_map_iff in Hq. destruct Hq as (i & <- & _). reflexivity. }
  intros OK. revert OK. rewrite I.
  unfold r, commitCachedChanges. rewrite (commit_guard a En Ne), St.
  fold (expected_updates a (changedRows (merchantEditingCache a))).
  intros ->. simpl. auto.
Qed.

Lemma commitCachedChanges_one_update_per_changed_row_witness :
  issued (commitCachedChanges (fun _ => true) sample_session)
  = expected_updates sample_session [1%nat; 3%nat]
  /\ returned (commitCachedChanges (fun _ => true) sample_session) = true
  /\ shown (commitCachedChanges (fun _ => true) sample_session) = [ToastSaved 2].
Proof.
  pose proof (commitCachedChanges_one_update_per_changed_row (fun _ => true) sample_session) as H.
  destruct H as (I & _ & _ & Good).
  - reflexivity.
  - discriminate.
  - repeat constructor.
  - destruct Good as (R & T); [reflexivity|].
    split; [exact I|]. split; [exact R|exact T].
Defined.

End EditCacheFacts.

(** * Properties of the matcher *)

Module RegexFacts.
Import JsString Regex.

(** A match whose continuation always fails, fails. *)
Lemma exec_dead_end (R : Type) (ic : bool) (r : regex) :
  forall pos s cap (k : nat -> chars -> capture -> option R),
    (forall pos' s' cap', k pos' s' cap' = None) ->
    exec R ic r pos s cap k = None.
Proof.
  induction r as [| c | p | r1 IH1 r2 IH2 | r1 IH1 r2 IH2 | g r1 IH1 | r1 IH1 | |];
    intros pos s cap k Dead; simpl.
  - apply Dead.
  - destruct s as [|x s]; [reflexivity|]. destruct (char_matches ic c x); auto.
  - destruct s as [|x s]; [reflexivity|]. destruct (p x); auto.
  - apply IH1. intros. apply IH2, Dead.
  - rewrite IH1 by exact Dead. apply IH2, Dead.
  - generalize (List.length s) as n. revert pos s cap.
    intros pos s cap n. revert pos s cap.
    induction n as [|n IHn]; intros pos s cap; [apply Dead|].
    rewrite Dead.
    rewrite IH1; [destruct g; reflexivity|].
    intros pos' s' cap'. destruct (List.length s' <? List.length s)%nat; auto.
  - apply IH1. intros. apply Dead.
  - destruct (pos =? 0)%nat; auto.
  - destruct s; auto.
Qed.

(** Once the input is used up, a quantifier accepts no further iteration:
    the bound on the number of iterations is never what stops the loop. *)
Lemma no_iteration_at_end (R : Type) (ic : bool) (r : regex) pos cap
    (k : nat -> chars -> capture -> option R) :
  exec R ic r pos [] cap
    (fun pos1 s1 cap1 => if (List.length s1 <? List.length (@nil ascii))%nat
                         then k pos1 s1 cap1 else None) = None.
Proof. apply exec_dead_end. intros. destruct s'; reflexivity. Qed.

End RegexFacts.

(** * Properties of the merchant name cleaner *)

Module MerchantCleanerFacts.
Import JsString Regex MerchantCleaner.

(** Whether the pattern matches somewhere in [s], searching from the start. *)
Definition hits (re : RegExp) (s : string) : bool :=
  match search (flag_i re) (source re) (list_ascii_of_string s) 0 with
  | Some _ => true
  | None => false
  end.

Lemma test_not_global re li s :
  flag_g re = false -> test re li s = (hits re s, li).
Proof.
  intros G. unfold test, hits. rewrite G.
  destruct (search _ _ _ _); reflexivity.
Qed.

Example cleanWithRegex_examples :
  map (fun x => fst (cleanWithRegex 0 x))
    ["WAL-MART #3454"; "COSTCO WHOLESALE #123"; "MCDONALD'S #12345";
     "ESSO  #1234 TORONTO"; "PETRO CANADA 12345 X"; "IGA"; EmptyString]
  = ["Wal-Mart"; "Costco"; "McDonald's"; "ESSO"; "PETRO CANADA"; "IGA"; EmptyString].
Proof. vm_compute. reflexivity. Qed.

(** The last rule of the table: its pattern carries the [g] flag, so a test
    resumes where the previous successful test ended, and its clean name is
    a single space, which the final [trim] removes. *)
Example cleanWithRegex_whitespace_rule :
  cleanWithRegex 0 "Home Depot" = (EmptyString, 5%nat)
  /\ cleanWithRegex 5 "Home Depot" = ("Home Depot", 0%nat).
Proof. vm_compute. split; reflexivity. Qed.

(** A rule that names a brand: no [g] flag and a literal clean name. *)
Definition fixed_name (ru : rule) : Prop :=
  flag_g (pattern ru) = false /\ includes (cleanName ru) "$1" = false.

Lemma brandRules_fixed_name : Forall fixed_name brandRules.
Proof. repeat constructor. Qed.

Lemma regexPatterns_split : regexPatterns = brandRules ++ skipn 7 regexPatterns.
Proof. reflexivity. Qed.

(** The first rule of the table, in order, whose pattern matches [s]. *)
Definition firstMatching (rules : list rule) (s : string) : option rule :=
  find (fun ru => hits (pattern ru) s) rules.

Lemma apply_rules_fixed_prefix (pre post : list rule) (li : nat) (s : string) :
  Forall fixed_name pre ->
  existsb (fun ru => hits (pattern ru) s) pre = true ->
  exists ru,
    firstMatching (pre ++ post) s = Some ru
    /\ In ru pre
    /\ apply_rules (pre ++ post) li s = (cleanName ru, li).
Proof.
  unfold firstMatching.
  induction 1 as [|ru pre [G Lit] _ IH]; simpl; [discriminate|].
  rewrite (test_not_global _ li s G).
  destruct (hits (pattern ru) s) eqn:Hit; simpl.
  - intros _. exists ru. rewrite Lit. auto.
  - intros Ex. destruct (IH Ex) as (ru' & F & I & A).
    exists ru'. auto.
Qed.

(** A pass decided by one of the nine rules before the whitespace rule
    leaves the state of the global pattern as it found it. *)
Lemma apply_rules_keeps_lastIndex (pre post : list rule) (li : nat) (s : string) :
  Forall (fun ru => flag_g (pattern ru) = false) pre ->
  existsb (fun ru => hits (pattern ru) s) pre = true ->
  snd (apply_rules (pre ++ post) li s) = li.
Proof.
  induction 1 as [|ru pre G _ IH]; simpl; [discriminate|].
  rewrite (test_not_global _ li s G), G.
  destruct (hits (pattern ru) s) eqn:Hit; simpl.
  - intros _. destruct (includes (cleanName ru) "$1"); reflexivity.
  - exact IH.
Qed.

Lemma cleanWithRegex_keeps_lastIndex (li : nat) (name : string) :
  existsb (fun ru => hits (pattern ru) (trim name)) (firstn 9 regexPatterns) = true ->
  snd (cleanWithRegex li name) = li.
Proof.
  intros Hit. unfold cleanWithRegex.
  destruct (String.eqb name EmptyString); [reflexivity|].
  pose proof (apply_rules_keeps_lastIndex (firstn 9 regexPatterns) (skipn 9 regexPatterns)
                li (trim name)) as K.
  change (firstn 9 regexPatterns ++ skipn 9 regexPatterns) with regexPatterns in K.
  destruct (apply_rules regexPatterns li (trim name)) as [cleaned li'].
  simpl in *. apply K; [repeat constructor|exact Hit].
Qed.

Lemma brand_names_trimmed :
  Forall (fun ru => trim (cleanName ru) = cleanName ru) brandRules.
Proof. repeat constructor. Qed.

Lemma brand_names_fixed_points :
  Forall (fun ru => forall li, cleanWithRegex li (cleanName ru) = (cleanName ru, li)) brandRules.
Proof. repeat constructor; intros li; vm_compute; reflexivity. Qed.

(** [x] matches a known-brand rule: after trimming, as the loop sees it. *)
Definition matchesBrand (x : string) : bool :=
  existsb (fun ru => hits (pattern ru) (trim x)) brandRules.

(** C7: when a raw name matches a known-brand rule, [cleanWithRegex] returns
    the fixed brand name of the first rule of the table that matches, and
    nothing more is applied to it; cleaning the result again gives the same
    name.  In particular "WAL-MART #3454" and "WAL-MART #3454 EXTRA" both
    clean to "Wal-Mart". *)
Theorem cleanWithRegex_brand_first_match :
  (forall (x : string) (li : nat),
      matchesBrand x = true ->
      exists ru,
        firstMatching regexPatterns (trim x) = Some ru
        /\ In ru brandRules
        /\ cleanWithRegex li x = (cleanName ru, li)
        /\ forall li',
            cleanWithRegex li' (fst (cleanWithRegex li x)) = (fst (cleanWithRegex li x), li'))
  /\ fst (cleanWithRegex 0 "WAL-MART #3454") = "Wal-Mart"
  /\ fst (cleanWithRegex 0 "WAL-MART #3454 EXTRA") = "Wal-Mart".
Proof.
  split; [|split; vm_compute; reflexivity].
  intros x li Hb.
  assert (Hx : x <> EmptyString).
  { intros ->. vm_compute in Hb. discriminate Hb. }
  destruct (apply_rules_fixed_prefix brandRules (skipn 7 regexPatterns) li (trim x)
              brandRules_fixed_name Hb) as (ru & F & I & A).
  rewrite <- regexPatterns_split in F, A.
  pose proof (proj1 (Forall_forall _ _) brand_names_trimmed ru I) as T.
  pose proof (proj1 (Forall_forall _ _) brand_names_fixed_points ru I) as Fix.
  assert (C : cleanWithRegex li x = (cleanName ru, li)).
  { unfold cleanWithRegex. apply String.eqb_neq in Hx. rewrite Hx, A, T. reflexivity. }
  exists ru. rewrite C. simpl. auto.
Qed.

Lemma cleanWithRegex_brand_first_match_witness :
  exists ru,
    firstMatching regexPatterns (trim "  tim horton #22 ") = Some ru
    /\ In ru brandRules
    /\ cleanWithRegex 0 "  tim horton #22 " = (cleanName ru, 0%nat)
    /\ forall li',
        cleanWithRegex li' (fst (cleanWithRegex 0 "  tim horton #22 "))
        = (fst (cleanWithRegex 0 "  tim horton #22 "), li').
Proof.
  apply (proj1 cleanWithRegex_brand_first_match "  tim horton #22 " 0%nat).
  vm_compute. reflexivity.
Defined.




Definition sample_cleaner : MerchantCleaner :=
  {| openaiApiKey := "sk-test"; storedApiKey := EmptyString; cleaningCache := []; lastIndex := 0 |}.

End MerchantCleanerFacts.

(** * Properties of the similarity grouping *)

Module SimilarityFacts.
Import JsString Regex Similarity.

Example normalize_examples :
  map normalize ["Tim Hortons #12"; "Tim Hortons #45"; "Acme  Co."; "Bob's Store 12"; "A&W - 44 "]
  = ["tim hortons"; "tim hortons"; "acme"; "bobs"; "aw"].
Proof. vm_compute. reflexivity. Qed.

(** Ties keep the order in which the names were met; the group is named
    after the first token of the name with the largest count. *)
Example analyzeMerchantPatterns_order :
  analyzeMerchantPatterns [("#Tim 1", 3); ("tim", 7); ("Costco", 5); ("Tim-2", 7); ("COSTCO INC", 1)]
  = [ {| groupName := "tim"; merchants := [("tim", 7); ("Tim-2", 7); ("#Tim 1", 3)] |};
      {| groupName := "Costco"; merchants := [("Costco", 5); ("COSTCO INC", 1)] |} ].
Proof. vm_compute. reflexivity. Qed.

Lemma mem_In x l : mem x l = true <-> In x l.
Proof.
  unfold mem. rewrite existsb_exists. split.
  - intros (y & I & E). apply String.eqb_eq in E. subst. exact I.
  - intros I. exists x. split; [exact I|apply String.eqb_refl].
Qed.

Lemma mem_false x l : mem x l = false <-> ~ In x l.
Proof.
  rewrite <- mem_In. destruct (mem x l); split; congruence.
Qed.

Lemma addName_In x y s : In x (addName y s) <-> In x s \/ x = y.
Proof.
  unfold addName. destruct (mem y s) eqn:M.
  - apply mem_In in M. split; [auto|]. intros [H| ->]; assumption.
  - rewrite in_app_iff. simpl. split; intros [H|H]; auto.
    + destruct H as [H|[]]; auto.
Qed.

Lemma addNames_In x (l : list normalizedMerchant) : forall s,
  In x (fold_left (fun s m => addName (original m) s) l s)
  <-> In x s \/ In x (map original l).
Proof.
  induction l as [|m l IH]; intros s; simpl.
  - tauto.
  - rewrite IH, addName_In. split; intros H; intuition auto.
Qed.

Lemma insertByCount_perm x l : Permutation (insertByCount x l) (x :: l).
Proof.
  induction l as [|y l IH]; simpl; [reflexivity|].
  destruct (count x <? count y); [|reflexivity].
  rewrite IH. apply perm_swap.
Qed.

Lemma sortByCount_perm l : Permutation (sortByCount l) l.
Proof.
  induction l as [|x l IH]; simpl; [reflexivity|].
  rewrite insertByCount_perm. constructor. exact IH.
Qed.

Section Grouping.
Variable all : list normalizedMerchant.
Hypothesis all_distinct : NoDup (map original all).

Definition sameKey (m : normalizedMerchant) : list normalizedMerchant :=
  filter (fun o => String.eqb (normalized o) (normalized m)) all.

Definition collides (m : normalizedMerchant) : Prop :=
  exists o, In o all /\ normalized o = normalized m /\ original o <> original m.

Lemma original_inj a b : In a all -> In b all -> original a = original b -> a = b.
Proof.
  revert all_distinct. clear. induction all as [|c l IH]; simpl; [tauto|].
  intros ND. inversion ND as [|? ? Nin ND']; subst.
  intros [->|Ia] [->|Ib] E; auto.
  - exfalso. apply Nin. rewrite E. apply in_map, Ib.
  - exfalso. apply Nin. rewrite <- E. apply in_map, Ia.
Qed.

(** The group built for [m] holds exactly the names with the key of [m]. *)
Lemma others_perm m :
  In m all ->
  Permutation
    (m :: filter (fun o => String.eqb (normalized o) (normalized m)
                           && negb (String.eqb (original o) (original m))) all)
    (sameKey m).
Proof.
  unfold sameKey. revert all_distinct. clear. induction all as [|c l IH]; simpl; [tauto|].
  intros ND. inversion ND as [|? ? Nin ND']; subst.
  intros [->|I].
  - rewrite !String.eqb_refl. simpl. constructor.
    rewrite (filter_ext_in _ (fun o => String.eqb (normalized o) (normalized m))); [reflexivity|].
    intros o Io. destruct (String.eqb (original o) (original m)) eqn:E.
    + apply String.eqb_eq in E. exfalso. apply Nin. rewrite <- E. apply in_map, Io.
    + rewrite andb_true_r. reflexivity.
  - assert (N : String.eqb (original c) (original m) = false).
    { apply String.eqb_neq. intros E. apply Nin. rewrite E. apply in_map, I. }
    rewrite N, andb_true_r.
    destruct (String.eqb (normalized c) (normalized m)).
    + rewrite perm_swap. constructor. apply IH; assumption.
    + apply IH; assumption.
Qed.

Definition groupOf (g : proposedGroup) : Prop :=
  exists m, In m all
            /\ Permutation (names g) (map original (sameKey m))
            /\ (2 <= List.length (names g))%nat.

(** The invariant of the loop: the processed set is the set of grouped
    names, every group is a full key class with at least two names, and no
    name is grouped twice. *)
Definition Inv (st : list string * list proposedGroup) : Prop :=
  (forall x, In x (fst st) <-> In x (List.concat (map names (snd st))))
  /\ Forall groupOf (snd st)
  /\ NoDup (List.concat (map names (snd st))).

Lemma processed_closed st m o :
  Inv st -> In m all -> In o all -> normalized o = normalized m ->
  In (original m) (fst st) -> In (original o) (fst st).
Proof.
  intros (P & G & _) Im Io K Pm.
  apply P in Pm. apply P.
  apply in_concat in Pm. destruct Pm as (ns & Hns & Hm).
  apply in_map_iff in Hns. destruct Hns as (g & <- & Hg).
  apply in_concat. exists (names g). split; [apply in_map, Hg|].
  pose proof (proj1 (Forall_forall _ _) G g Hg) as (m0 & Im0 & Perm & _).
  apply (Permutation_in _ (Permutation_sym Perm)).
  apply (Permutation_in _ Perm) in Hm.
  apply in_map_iff in Hm. destruct Hm as (m' & E & Hm').
  unfold sameKey in Hm'. apply filter_In in Hm'. destruct Hm' as (Im' & K').
  assert (m' = m) by (apply original_inj; assumption). subst m'.
  apply in_map. unfold sameKey. apply filter_In. split; [exact Io|].
  apply String.eqb_eq. apply String.eqb_eq in K'. congruence.
Qed.

Lemma visit_spec st m :
  Inv st -> In m all ->
  Inv (visit all st m)
  /\ (forall x, In x (fst st) -> In x (fst (visit all st m)))
  /\ (collides m -> In (original m) (fst (visit all st m))).
Proof.
  intros I Im. destruct st as [processed groups]. unfold visit.
  destruct (mem (original m) processed) eqn:M.
  { split; [exact I|]. split; [auto|]. intros _. apply mem_In, M. }
  apply mem_false in M.
  set (others := filter _ all).
  assert (O : others = filter (fun o => String.eqb (normalized o) (normalized m)
                                        && negb (String.eqb (original o) (original m))) all).
  { unfold others. apply filter_ext_in. intros o Io.
    destruct (String.eqb (normalized o) (normalized m)) eqn:K;
      [|rewrite andb_false_r; reflexivity].
    apply String.eqb_eq in K.
    assert (N : mem (original o) processed = false).
    { apply mem_false. intros Po. apply M.
      apply (processed_closed (processed, groups) o m I Io Im (eq_sym K) Po). }
    rewrite N. reflexivity. }
  destruct (0 <? List.length others)%nat eqn:L.
  2:{ split; [exact I|]. split; [auto|].
      intros (o & Io & K & N). exfalso.
      apply Nat.ltb_ge in L. assert (E : others = []) by (destruct others; simpl in L; [reflexivity|lia]).
      assert (Ino : In o others).
      { rewrite O. apply filter_In. split; [exact Io|].
        apply String.eqb_eq in K. apply String.eqb_neq in N. rewrite K, N. reflexivity. }
      rewrite E in Ino. exact Ino. }
  apply Nat.ltb_lt in L.
  set (sorted := sortByCount (m :: others)).
  assert (SP : Permutation sorted (m :: others)) by apply sortByCount_perm.
  set (g := {| groupName := _; merchants := _ |}).
  assert (Ng : names g = map original sorted).
  { unfold g, names. simpl. rewrite map_map. reflexivity. }
  assert (PG : Permutation (names g) (map original (sameKey m))).
  { rewrite Ng. apply Permutation_map. rewrite SP, O. apply others_perm, Im. }
  assert (Fresh : forall x, In x (names g) -> ~ In x processed).
  { intros x Hx Px. apply (Permutation_in _ PG) in Hx.
    apply in_map_iff in Hx. destruct Hx as (o & <- & Ho).
    apply filter_In in Ho. destruct Ho as (Io & K). apply String.eqb_eq in K.
    apply M. apply (processed_closed (processed, groups) o m I Io Im (eq_sym K) Px). }
  destruct I as (P & G & ND). simpl in P, G, ND.
  assert (In' : forall x, In x (fold_left (fun s m0 => addName (original m0) s) (m :: others) processed)
                          <-> In x processed \/ In x (names g)).
  { intros x. rewrite addNames_In. rewrite Ng.
    split; (intros [H|H]; [left; exact H|right]).
    - apply (Permutation_in _ (Permutation_map original (Permutation_sym SP))), H.
    - apply (Permutation_in _ (Permutation_map original SP)), H. }
  split; [|split].
  - unfold Inv. simpl fst; simpl snd.
    rewrite map_app, List.concat_app. simpl. rewrite app_nil_r.
    split; [|split].
    + intros x. rewrite In', in_app_iff, P. reflexivity.
    + apply Forall_app. split; [exact G|]. constructor; [|constructor].
      exists m. split; [exact Im|]. split; [exact PG|].
      rewrite Ng, length_map, (Permutation_length SP). simpl. lia.
    + apply NoDup_app; [exact ND| |].
      * apply (Permutation_NoDup (Permutation_sym PG)).
        revert all_distinct. clear. unfold sameKey.
        induction all as [|c l IH]; simpl; [constructor|].
        intros ND. inversion ND as [|? ? Nin ND']; subst.
        destruct (String.eqb (normalized c) (normalized m)); simpl; [|auto].
        constructor; [|auto]. intros H. apply Nin.
        apply in_map_iff in H. destruct H as (o & E & Ho). apply filter_In in Ho.
        rewrite <- E. apply in_map, Ho.
      * intros x Hx Hg. apply P in Hx. exact (Fresh x Hg Hx).
  - intros x Hx. simpl. apply In'. left. exact Hx.
  - intros _. simpl. apply In'. right. rewrite Ng.
    apply (Permutation_in _ (Permutation_map original (Permutation_sym SP))). simpl. auto.
Qed.

Lemma visit_all_spec (todo : list normalizedMerchant) : forall st,
  Inv st -> incl todo all ->
  let final := fold_left (visit all) todo st in
  Inv final
  /\ (forall x, In x (fst st) -> In x (fst final))
  /\ (forall m, In m todo -> collides m -> In (original m) (fst final)).
Proof.
  induction todo as [|m todo IH]; intros st I Sub; simpl.
  - split; [exact I|]. split; [auto|]. intros m [].
  - destruct (visit_spec st m I (Sub m (or_introl eq_refl))) as (I1 & Mono1 & Coll1).
    destruct (IH (visit all st m) I1 (fun x Hx => Sub x (or_intror Hx))) as (I2 & Mono2 & Coll2).
    split; [exact I2|]. split; [auto|].
    intros m' [<-|Hm'] C; auto.
Qed.

Lemma Inv_init : Inv ([], []).
Proof.
  unfold Inv. simpl. split; [tauto|]. split; constructor.
Qed.

End Grouping.

Definition normalizedOf (merchantCounts : string -> Z) (merchant : string) : normalizedMerchant :=
  {| original := merchant; normalized := normalize merchant; count := merchantCounts merchant |}.

Lemma findSimilarMerchants_fold merchants merchantCounts :
  findSimilarMerchants merchants merchantCounts
  = snd (fold_left (visit (map (normalizedOf merchantCounts) merchants))
                   (map (normalizedOf merchantCounts) merchants) ([], [])).
Proof. reflexivity. Qed.

Lemma sameKey_names merchantCounts merchants m :
  map original (sameKey (map (normalizedOf merchantCounts) merchants) (normalizedOf merchantCounts m))
  = filter (fun x => String.eqb (normalize x) (normalize m)) merchants.
Proof.
  unfold sameKey. induction merchants as [|x l IH]; simpl; [reflexivity|].
  simpl in IH.
  destruct (String.eqb (normalize x) (normalize m)); simpl; rewrite IH; reflexivity.
Qed.

(** C6: for a map of distinct raw names, every proposed group is exactly
    the set of names that share one normalized key, and has at least two
    names; two different names with the same key are in one common group; a
    name whose key no other name shares is in no group; no name is in two
    groups.  For the three-name example the two Tim Hortons variants form
    the one group and "Costco" is left out. *)
Theorem findSimilarMerchants_groups_equal_keys :
  (forall (merchants : list string) (merchantCounts : string -> Z),
      NoDup merchants ->
      let groups := findSimilarMerchants merchants merchantCounts in
      (forall g, In g groups ->
         exists m, In m merchants
           /\ Permutation (names g)
                (filter (fun x => String.eqb (normalize x) (normalize m)) merchants)
           /\ (2 <= List.length (names g))%nat)
      /\ (forall m m', In m merchants -> In m' merchants -> m' <> m ->
             normalize m' = normalize m ->
             exists g, In g groups /\ In m (names g) /\ In m' (names g))
      /\ (forall m, In m merchants ->
             (forall m', In m' merchants -> normalize m' = normalize m -> m' = m) ->
             forall g, In g groups -> ~ In m (names g))
      /\ NoDup (List.concat (map names groups)))
  /\ analyzeMerchantPatterns
       [("Tim Hortons #12", 3); ("Tim Hortons #45", 1); ("Costco", 5)]
     = [ {| groupName := "Tim";
            merchants := [("Tim Hortons #12", 3); ("Tim Hortons #45", 1)] |} ].
Proof.
  split; [|vm_compute; reflexivity].
  intros merchants merchantCounts ND groups.
  set (all := map (normalizedOf merchantCounts) merchants).
  assert (NDall : NoDup (map original all)).
  { unfold all. rewrite map_map. simpl. rewrite map_id. exact ND. }
  destruct (visit_all_spec all NDall all ([], []) (Inv_init all) (incl_refl _))
    as ((P & G & NDg) & _ & Coll).
  fold (findSimilarMerchants merchants merchantCounts) in *.
  unfold groups. rewrite findSimilarMerchants_fold. fold all.
  set (final := fold_left (visit all) all ([], [])) in *.
  assert (Groups : forall g, In g (snd final) ->
            exists m, In m merchants
              /\ Permutation (names g)
                   (filter (fun x => String.eqb (normalize x) (normalize m)) merchants)
              /\ (2 <= List.length (names g))%nat).
  { intros g Hg.
    destruct (proj1 (Forall_forall _ _) G g Hg) as (m0 & Im0 & Perm & Len).
    unfold all in Im0. apply in_map_iff in Im0. destruct Im0 as (m & <- & Im).
    exists m. split; [exact Im|]. split; [|exact Len].
    rewrite <- (sameKey_names merchantCounts). exact Perm. }
  split; [exact Groups|]. split; [|split; [|exact NDg]].
  - intros m m' Im Im' Ne K.
    assert (C : collides all (normalizedOf merchantCounts m)).
    { exists (normalizedOf merchantCounts m'). split; [apply in_map, Im'|].
      split; [exact K|exact Ne]. }
    pose proof (Coll _ (in_map _ _ _ Im) C) as Pm. simpl in Pm.
    apply P in Pm. apply in_concat in Pm. destruct Pm as (ns & Hns & Hm).
    apply in_map_iff in Hns. destruct Hns as (g & <- & Hg).
    exists g. split; [exact Hg|]. split; [exact Hm|].
    destruct (Groups g Hg) as (m0 & _ & Perm & _).
    apply (Permutation_in _ (Permutation_sym Perm)).
    apply (Permutation_in _ Perm) in Hm. apply filter_In in Hm. destruct Hm as (_ & K0).
    apply filter_In. split; [exact Im'|].
    apply String.eqb_eq in K0. apply String.eqb_eq. congruence.
  - intros m Im Alone g Hg Hm.
    destruct (Groups g Hg) as (m0 & Im0 & Perm & Len).
    assert (K : normalize m = normalize m0).
    { apply (Permutation_in _ Perm) in Hm. apply filter_In in Hm.
      apply String.eqb_eq, Hm. }
    assert (All : forall x, In x (names g) -> x = m).
    { intros x Hx. apply (Permutation_in _ Perm) in Hx. apply filter_In in Hx.
      destruct Hx as (Ix & Kx). apply String.eqb_eq in Kx.
      apply Alone; [exact Ix|congruence]. }
    assert (NDn : NoDup (names g)).
    { apply (Permutation_NoDup (Permutation_sym Perm)). apply NoDup_filter, ND. }
    destruct (names g) as [|a [|b rest]] eqn:E; simpl in Len; try lia.
    assert (a = m) by (apply All; simpl; auto).
    assert (b = m) by (apply All; simpl; auto).
    subst a b. inversion NDn as [|? ? Nin _]; subst. apply Nin. simpl. auto.
Qed.

Lemma findSimilarMerchants_groups_equal_keys_witness :
  let merchantCounts := [("Tim Hortons #12", 3); ("Tim Hortons #45", 1); ("Costco", 5)] in
  let groups := analyzeMerchantPatterns merchantCounts in
  (exists g, In g groups /\ In "Tim Hortons #12" (names g) /\ In "Tim Hortons #45" (names g))
  /\ (forall g, In g groups -> ~ In "Costco" (names g)).
Proof.
  intros merchantCounts groups.
  assert (ND : NoDup (map fst merchantCounts)).
  { repeat constructor; simpl; intuition discriminate. }
  destruct (proj1 findSimilarMerchants_groups_equal_keys
              (map fst merchantCounts) (lookupCount merchantCounts) ND)
    as (_ & Together & Alone & _).
  split.
  - apply Together; simpl; auto. discriminate.
  - apply Alone; simpl; [auto|].
    intros m' [<-|[<-|[<-|[]]]]; vm_compute; try discriminate; reflexivity.
Defined.

End SimilarityFacts.

(** * Properties of the calendar *)

Module JsDateFacts.
Import JsDate.

Example civil_from_days_examples :
  map civil_from_days [0; -1; 19782; 19783; 11016]
  = [(1970, 1, 1); (1969, 12, 31); (2024, 2, 29); (2024, 3, 1); (2000, 2, 29)].
Proof. reflexivity. Qed.

Example getDay_examples :
  getDay 0 = 4 /\ getDay (19782 * msPerDay) = 4 /\ getDay (-1) = 3.
Proof. repeat split; reflexivity. Qed.

Lemma year_of_era_range doe :
  0 <= doe <= 146096 ->
  0 <= year_of_era doe <= 399 /\ 0 <= day_of_year doe <= 365.
Proof.
  intros H. unfold day_of_year, year_of_era.
  Z.div_mod_to_equations. lia.
Qed.

Lemma era_day_range z : 0 <= era_day z <= 146096.
Proof. unfold era_day. Z.div_mod_to_equations. lia. Qed.

Lemma month_from_march_range doy :
  0 <= doy <= 365 ->
  0 <= month_from_march doy <= 11
  /\ 1 <= doy - (153 * month_from_march doy + 2) / 5 + 1 <= 31.
Proof.
  intros H. unfold month_from_march. Z.div_mod_to_equations. lia.
Qed.

(** Month and day of a civil date are in range. *)
Lemma civil_from_days_range z :
  1 <= snd (fst (civil_from_days z)) <= 12 /\ 1 <= snd (civil_from_days z) <= 31.
Proof.
  unfold civil_from_days. cbn [fst snd].
  destruct (year_of_era_range (era_day z) (era_day_range z)) as (_ & Hdoy).
  destruct (month_from_march_range _ Hdoy) as (Hmp & Hd).
  split; [|exact Hd].
  destruct (month_from_march (day_of_year (era_day z)) <? 10) eqn:E;
    [apply Z.ltb_lt in E|apply Z.ltb_ge in E]; lia.
Qed.

(** The day number of the civil date of a day is that day. *)
Lemma days_from_civil_from_days z :
  days_from_civil (fst (fst (civil_from_days z))) (snd (fst (civil_from_days z)))
                  (snd (civil_from_days z)) = z.
Proof.
  unfold civil_from_days. cbn [fst snd].
  pose proof (era_day_range z) as Hdoe.
  destruct (year_of_era_range (era_day z) Hdoe) as (Hyoe & Hdoy).
  destruct (month_from_march_range _ Hdoy) as (Hmp & Hd).
  set (doe := era_day z) in *.
  set (yoe := year_of_era doe) in *.
  set (doy := day_of_year doe) in *.
  set (mp := month_from_march doy) in *.
  set (m := if mp <? 10 then mp + 3 else mp - 9).
  assert (Hm : (if 2 <? m then m - 3 else m + 9) = mp
               /\ (if m <=? 2 then 1 else 0) = (if mp <? 10 then 0 else 1)).
  { unfold m. destruct (mp <? 10) eqn:E; [apply Z.ltb_lt in E|apply Z.ltb_ge in E].
    - replace (2 <? mp + 3) with true by (symmetry; apply Z.ltb_lt; lia).
      replace (mp + 3 <=? 2) with false by (symmetry; apply Z.leb_gt; lia). lia.
    - replace (2 <? mp - 9) with false by (symmetry; apply Z.ltb_ge; lia).
      replace (mp - 9 <=? 2) with true by (symmetry; apply Z.leb_le; lia). lia. }
  destruct Hm as (Hmp' & Hadj).
  unfold days_from_civil. rewrite Hmp'.
  replace (yoe + era_of z * 400 + (if m <=? 2 then 1 else 0) - (if m <=? 2 then 1 else 0))
    with (yoe + era_of z * 400) by lia.
  assert (Era : (yoe + era_of z * 400) / 400 = era_of z).
  { rewrite Z.div_add by lia. rewrite Z.div_small by lia. lia. }
  rewrite Era.
  replace (yoe + era_of z * 400 - era_of z * 400) with yoe by lia.
  assert (Doy : doy = doe - (365 * yoe + yoe / 4 - yoe / 100)) by reflexivity.
  assert (Z : z + 719468 = 146097 * era_of z + doe).
  { unfold era_of, doe, era_day. apply Z.div_mod. lia. }
  lia.
Qed.

Lemma days_from_civil_day y m d d' :
  days_from_civil y m d' = days_from_civil y m d + (d' - d).
Proof. unfold days_from_civil. lia. Qed.

(** [MakeDay] on the year and month of [t] counts days from the day of [t]. *)
Lemma MakeDay_same_month t date :
  MakeDay (getFullYear t) (getMonth t) date = Day t + (date - getDate t).
Proof.
  unfold MakeDay, getFullYear, getMonth, getDate.
  pose proof (civil_from_days_range (Day t)) as (Hm & _).
  pose proof (days_from_civil_from_days (Day t)) as RT.
  set (c := civil_from_days (Day t)) in *.
  replace ((snd (fst c) - 1) / 12) with 0 by (symmetry; apply Z.div_small; lia).
  replace ((snd (fst c) - 1) mod 12 + 1) with (snd (fst c))
    by (rewrite Z.mod_small; lia).
  rewrite Z.add_0_r.
  rewrite (days_from_civil_day _ _ (snd c) 1) . lia.
Qed.

(** [d.setDate(d.getDate() + k)] moves the instant by [k] whole days. *)
Lemma setDate_shift t k : setDate t (getDate t + k) = t + k * msPerDay.
Proof.
  unfold setDate. rewrite MakeDay_same_month.
  unfold MakeDate, Day, TimeWithinDay, msPerDay.
  Z.div_mod_to_equations. lia.
Qed.

Lemma Day_shift t k : Day (t + k * msPerDay) = Day t + k.
Proof. unfold Day, msPerDay. rewrite Z.div_add by lia. reflexivity. Qed.

(** Two days in the same month of the same year are as far apart as their
    days of the month. *)
Lemma same_month_days t1 t2 :
  getFullYear t1 = getFullYear t2 -> getMonth t1 = getMonth t2 ->
  Day t2 - Day t1 = getDate t2 - getDate t1.
Proof.
  unfold getFullYear, getMonth, getDate. intros Y M.
  pose proof (days_from_civil_from_days (Day t1)) as R1.
  pose proof (days_from_civil_from_days (Day t2)) as R2.
  rewrite Y in R1. replace (snd (fst (civil_from_days (Day t1))))
    with (snd (fst (civil_from_days (Day t2)))) in R1 by lia.
  rewrite (days_from_civil_day _ _ (snd (civil_from_days (Day t2)))
             (snd (civil_from_days (Day t1)))) in R1.
  lia.
Qed.

Lemma getDate_range t : 1 <= getDate t <= 31.
Proof. unfold getDate. apply civil_from_days_range. Qed.

End JsDateFacts.

(** * Properties of the period filter *)

Module PeriodFilterFacts.
Import Js App JsDate JsDateFacts PeriodFilter.

(** The instant of a local calendar date and time of day. *)
Definition instant (y m d h mi : Z) : Z :=
  MakeDate (days_from_civil y m d) (MakeTime h mi 0 0).

(** A parser for the examples: it knows three date strings. *)
Definition Date_parse_example (s : string) : option Z :=
  if String.eqb s "2024-01-20" then Some (instant 2024 1 20 0 0)
  else if String.eqb s "2024-02-01" then Some (instant 2024 2 1 0 0)
  else if String.eqb s "2024-02-29" then Some (instant 2024 2 29 0 0)
  else if String.eqb s "2024-03-01" then Some (instant 2024 3 1 0 0)
  else None.

Definition transaction_on (dateStr : string) : row :=
  [JStr "Visa"; JStr "-45"; JStr "COSTCO"; JStr EmptyString; JStr dateStr].

Section Filter.
Variable Date_parse : string -> option Z.
Variables (a : BudgetTrackerApp) (now : Z).
Variables (transaction : row) (dateStr : string) (transactionDate : Z).
Hypothesis date_cell : arrayGet transaction 4 = JStr dateStr.
Hypothesis date_present : dateStr <> EmptyString.
Hypothesis date_parsed : Date_parse dateStr = Some transactionDate.

Lemma inPeriod_parsed p :
  inPeriod Date_parse a p now transaction =
  match p with
  | Week =>
      let weekStart := setDate now (getDate now - getDay now) in
      let weekStart := setHours weekStart 0 0 0 0 in
      let weekEnd := setDate weekStart (getDate weekStart + 6) in
      let weekEnd := setHours weekEnd 23 59 59 999 in
      (weekStart <=? transactionDate) && (transactionDate <=? weekEnd)
  | Payweek =>
      if truthy (getColumnValue transaction (payweek (columnIndices a)))
      then isCurrentPayweek now transactionDate
      else setDate now (getDate now - 14) <=? transactionDate
  | Month =>
      (getMonth transactionDate =? selectedMonth a)
      && (getFullYear transactionDate =? selectedYear a)
  | Year => getFullYear transactionDate =? selectedYear a
  | OtherPeriod => true
  end.
Proof.
  unfold inPeriod. rewrite date_cell.
  apply String.eqb_neq in date_present. rewrite date_present, date_parsed.
  reflexivity.
Qed.

Lemma isCurrentPayweek_window :
  isCurrentPayweek now transactionDate = true
  <-> now - transactionDate < 15 * msPerDay.
Proof.
  unfold isCurrentPayweek, msPerDay. rewrite Z.leb_le.
  Z.div_mod_to_equations. lia.
Qed.

Lemma twoWeeksAgo_shift : setDate now (getDate now - 14) = now - 14 * msPerDay.
Proof.
  replace (getDate now - 14) with (getDate now + -14) by lia.
  rewrite setDate_shift. lia.
Qed.

End Filter.

(** C3 as stated fails: on 29 January 2024 at noon the fortnight counted
    from 1 January starts on 29 January, so a transaction of 20 January lies
    before it; the filter in force keeps that transaction, since it is less
    than fourteen days old. *)
Lemma payweek_filter_not_anchored_bucket :
  let now := instant 2024 1 29 12 0 in
  let a := changePeriod (construct now) Payweek in
  Date_parse_example "2024-01-20" = Some (instant 2024 1 20 0 0)
  /\ payweekStart now = instant 2024 1 29 0 0
  /\ (payweekStart now <=? instant 2024 1 20 0 0) = false
  /\ inPeriod Date_parse_example a Payweek now (transaction_on "2024-01-20") = true
  /\ getFilteredRows Date_parse_example
       (with_rows a [[JStr "Account"]; transaction_on "2024-01-20"]) now
     = [transaction_on "2024-01-20"].
Proof. vm_compute. repeat split; reflexivity. Qed.

(** C3, amended: for a transaction whose date parses, the payweek filter is
    a rolling window that ends at [now].  When the row has a value in the
    payweek column, it returns true exactly when the whole number of days
    from the date to [now] is at most 14, that is when the date is less than
    15 days before [now]; otherwise it returns true exactly when the date is
    not earlier than 14 days before [now].  No upper bound is applied: every
    date at or after [now] passes. *)
Theorem payweek_filter_rolling_window (Date_parse : string -> option Z)
    (a : BudgetTrackerApp) (now : Z) (transaction : row)
    (dateStr : string) (transactionDate : Z) :
  arrayGet transaction 4 = JStr dateStr ->
  dateStr <> EmptyString ->
  Date_parse dateStr = Some transactionDate ->
  let payweekValue := getColumnValue transaction (payweek (columnIndices a)) in
  (truthy payweekValue = true ->
     (inPeriod Date_parse a Payweek now transaction = true
      <-> now - transactionDate < 15 * msPerDay))
  /\ (truthy payweekValue = false ->
     (inPeriod Date_parse a Payweek now transaction = true
      <-> now - 14 * msPerDay <= transactionDate))
  /\ (now <= transactionDate -> inPeriod Date_parse a Payweek now transaction = true).
Proof.
  intros Cell Present Parsed payweekValue.
  rewrite (inPeriod_parsed Date_parse a now transaction dateStr transactionDate
             Cell Present Parsed Payweek).
  fold payweekValue. rewrite twoWeeksAgo_shift.
  pose proof (isCurrentPayweek_window now transactionDate) as W.
  split; [|split].
  - intros ->. exact W.
  - intros ->. apply Z.leb_le.
  - intros Future. destruct (truthy payweekValue).
    + apply W. unfold msPerDay. lia.
    + apply Z.leb_le. unfold msPerDay. lia.
Qed.

Lemma payweek_filter_rolling_window_witness :
  let now := instant 2024 1 29 12 0 in
  inPeriod Date_parse_example (changePeriod (construct now) Payweek) Payweek now
    (transaction_on "2024-01-20") = true.
Proof.
  intros now.
  destruct (payweek_filter_rolling_window Date_parse_example
              (changePeriod (construct now) Payweek) now
              (transaction_on "2024-01-20") "2024-01-20" (instant 2024 1 20 0 0))
    as (_ & NoColumn & _).
  - reflexivity.
  - discriminate.
  - reflexivity.
  - apply NoColumn; [reflexivity|]. vm_compute. discriminate.
Defined.

(** C4 as stated fails: the application is created on 31 January 2024 and
    the filter runs on 1 February; a transaction of 1 February is in the
    calendar month of [now] but is filtered out, because the month compared
    is the one selected at creation. *)
Lemma month_filter_not_month_of_now :
  let created := instant 2024 1 31 23 59 in
  let now := instant 2024 2 1 0 1 in
  let a := construct created in
  Date_parse_example "2024-02-01" = Some (instant 2024 2 1 0 0)
  /\ getMonth (instant 2024 2 1 0 0) = getMonth now
  /\ getFullYear (instant 2024 2 1 0 0) = getFullYear now
  /\ currentPeriod a = Some Month
  /\ inPeriod Date_parse_example a Month now (transaction_on "2024-02-01") = false
  /\ getFilteredRows Date_parse_example
       (with_rows a [[JStr "Account"]; transaction_on "2024-02-01"]) now = [].
Proof. vm_compute. repeat split; reflexivity. Qed.

(** C4, amended: for a transaction whose date parses, the month filter
    returns true exactly when the calendar month and year of the date equal
    the selected month and year of the application, which the constructor
    takes from the clock at creation; the instant at which the filter runs
    plays no part.  So a date on the 1st of the selected month and a date on
    its last day (the day before a 1st) are included, and the 1st of the
    month that follows is excluded. *)
Theorem month_filter_selected_month (Date_parse : string -> option Z)
    (a : BudgetTrackerApp) (now : Z) (transaction : row)
    (dateStr : string) (transactionDate : Z) :
  arrayGet transaction 4 = JStr dateStr ->
  dateStr <> EmptyString ->
  Date_parse dateStr = Some transactionDate ->
  let inMonth t := getMonth t = selectedMonth a /\ getFullYear t = selectedYear a in
  (forall created, selectedMonth (construct created) = getMonth created
                   /\ selectedYear (construct created) = getFullYear created)
  /\ (inPeriod Date_parse a Month now transaction = true <-> inMonth transactionDate)
  /\ (inMonth transactionDate -> getDate transactionDate = 1 ->
      inPeriod Date_parse a Month now transaction = true)
  /\ (inMonth transactionDate -> getDate (transactionDate + msPerDay) = 1 ->
      inPeriod Date_parse a Month now transaction = true)
  /\ (inMonth (transactionDate - msPerDay) -> getDate transactionDate = 1 ->
      inPeriod Date_parse a Month now transaction = false).
Proof.
  intros Cell Present Parsed inMonth.
  rewrite (inPeriod_parsed Date_parse a now transaction dateStr transactionDate
             Cell Present Parsed Month).
  assert (Iff : (getMonth transactionDate =? selectedMonth a)
                && (getFullYear transactionDate =? selectedYear a) = true
                <-> inMonth transactionDate).
  { unfold inMonth. rewrite andb_true_iff, !Z.eqb_eq. reflexivity. }
  split; [intros created; split; reflexivity|].
  split; [exact Iff|].
  split; [intros In _; apply Iff, In|].
  split; [intros In _; apply Iff, In|].
  intros (PrevM & PrevY) First.
  apply not_true_iff_false. intros In. apply Iff in In. destruct In as (M & Y).
  pose proof (same_month_days (transactionDate - msPerDay) transactionDate
                ltac:(congruence) ltac:(congruence)) as Gap.
  replace (transactionDate - msPerDay) with (transactionDate + -1 * msPerDay) in Gap by lia.
  rewrite Day_shift in Gap.
  pose proof (getDate_range (transactionDate + -1 * msPerDay)). lia.
Qed.

Lemma month_filter_selected_month_witness :
  let a := construct (instant 2024 2 14 9 30) in
  let now := instant 2024 2 20 8 0 in
  inPeriod Date_parse_example a Month now (transaction_on "2024-02-01") = true
  /\ inPeriod Date_parse_example a Month now (transaction_on "2024-02-29") = true
  /\ inPeriod Date_parse_example a Month now (transaction_on "2024-03-01") = false.
Proof.
  intros a now.
  split; [|split].
  - destruct (month_filter_selected_month Date_parse_example a now
                (transaction_on "2024-02-01") "2024-02-01" (instant 2024 2 1 0 0))
      as (_ & _ & First & _); [reflexivity|discriminate|reflexivity|].
    apply First; [split|]; reflexivity.
  - destruct (month_filter_selected_month Date_parse_example a now
                (transaction_on "2024-02-29") "2024-02-29" (instant 2024 2 29 0 0))
      as (_ & _ & _ & Last & _); [reflexivity|discriminate|reflexivity|].
    apply Last; [split|]; reflexivity.
  - destruct (month_filter_selected_month Date_parse_example a now
                (transaction_on "2024-03-01") "2024-03-01" (instant 2024 3 1 0 0))
      as (_ & _ & _ & _ & Next); [reflexivity|discriminate|reflexivity|].
    apply Next; [split|]; reflexivity.
Defined.

End PeriodFilterFacts.

(** * Properties of binary64 arithmetic: rounding and its error *)

Module Binary64Facts.
Import Binary64.
Local Open Scope Q_scope.

Lemma pow2_pos (e : Z) : 0 < pow2 e.
Proof. apply Qpower_0_lt. reflexivity. Qed.

Lemma pow2_plus (a b : Z) : pow2 (a + b) == pow2 a * pow2 b.
Proof. apply Qpower_plus. discriminate. Qed.

Lemma pow2_succ (e : Z) : pow2 (e + 1) == 2 * pow2 e.
Proof. rewrite pow2_plus. unfold pow2 at 2. rewrite Qpower_1_r. ring. Qed.

Lemma pow2_pred (e : Z) : pow2 (e - 1) == (1 # 2) * pow2 e.
Proof.
  pose proof (pow2_succ (e - 1)) as H.
  replace (e - 1 + 1)%Z with e in H by lia. lra.
Qed.

Lemma pow2_le (a b : Z) : (a <= b)%Z -> pow2 a <= pow2 b.
Proof. intros H. apply Qpower_le_compat_l; [exact H|discriminate]. Qed.

Lemma pow2_lt (a b : Z) : (a < b)%Z -> pow2 a < pow2 b.
Proof. intros H. apply Qpower_lt_compat_l; [exact H|reflexivity]. Qed.

Lemma pow2_lt_inv (a b : Z) : pow2 a < pow2 b -> (a < b)%Z.
Proof. intros H. apply (Qpower_lt_compat_l_inv 2); [exact H|reflexivity]. Qed.

Lemma pow2_Z (n : Z) : (0 <= n)%Z -> inject_Z (2 ^ n) == pow2 n.
Proof. intros H. unfold pow2. rewrite Zpower_Qpower by exact H. reflexivity. Qed.

Lemma pow2_opp (e : Z) : pow2 e * pow2 (- e) == 1.
Proof. rewrite <- pow2_plus. replace (e + - e)%Z with 0%Z by lia. reflexivity. Qed.

(** ** The number of binary digits of a mantissa *)

Lemma digits2_pos_bounds (m : positive) :
  (2 ^ (Zpos (digits2_pos m) - 1) <= Zpos m < 2 ^ Zpos (digits2_pos m))%Z.
Proof.
  induction m as [m IH|m IH|]; cbn [digits2_pos].
  - rewrite Pos2Z.inj_succ, (Pos2Z.inj_xI m).
    replace (Z.succ (Zpos (digits2_pos m)) - 1)%Z with (Zpos (digits2_pos m) - 1 + 1)%Z by lia.
    rewrite Z.pow_succ_r by lia.
    rewrite Z.pow_add_r by lia. change (2 ^ 1)%Z with 2%Z.
    destruct IH as (L & U). revert L U.
    generalize (2 ^ (Zpos (digits2_pos m) - 1))%Z (2 ^ Zpos (digits2_pos m))%Z. lia.
  - rewrite Pos2Z.inj_succ, (Pos2Z.inj_xO m).
    replace (Z.succ (Zpos (digits2_pos m)) - 1)%Z with (Zpos (digits2_pos m) - 1 + 1)%Z by lia.
    rewrite Z.pow_succ_r by lia.
    rewrite Z.pow_add_r by lia. change (2 ^ 1)%Z with 2%Z.
    destruct IH as (L & U). revert L U.
    generalize (2 ^ (Zpos (digits2_pos m) - 1))%Z (2 ^ Zpos (digits2_pos m))%Z. lia.
  - cbn. lia.
Qed.

Lemma Zdigits2_nonneg (m : Z) : (0 <= Zdigits2 m)%Z.
Proof. destruct m; cbn; lia. Qed.

Lemma Zdigits2_upper (m : Z) : (0 <= m)%Z -> (m < 2 ^ Zdigits2 m)%Z.
Proof.
  destruct m as [|p|p]; intros H; [cbn; lia| |lia].
  apply (digits2_pos_bounds p).
Qed.

Lemma Zdigits2_lower (m : Z) : (0 < m)%Z -> (2 ^ (Zdigits2 m - 1) <= m)%Z.
Proof.
  destruct m as [|p|p]; intros H; [lia| |lia].
  apply (digits2_pos_bounds p).
Qed.

(** A mantissa below [2 ^ n] has at most [n] digits. *)
Lemma Zdigits2_le (m n : Z) : (0 <= m < 2 ^ n)%Z -> (0 <= n)%Z -> (Zdigits2 m <= n)%Z.
Proof.
  intros (Pos & Lt) Hn. destruct (Z.eq_dec m 0) as [->|N]; [cbn; exact Hn|].
  pose proof (Zdigits2_lower m ltac:(lia)) as L.
  pose proof (Zdigits2_nonneg m) as D.
  destruct (Z_lt_le_dec n (Zdigits2 m)) as [C|C]; [|exact C].
  assert (2 ^ n <= 2 ^ (Zdigits2 m - 1))%Z by (apply Z.pow_le_mono_r; lia). lia.
Qed.

(** A mantissa from [2 ^ (n - 1)] on has at least [n] digits. *)
Lemma Zdigits2_ge (m n : Z) : (0 <= m)%Z -> (2 ^ (n - 1) <= m)%Z -> (1 <= n)%Z -> (n <= Zdigits2 m)%Z.
Proof.
  intros Pos Le Hn. pose proof (Zdigits2_upper m Pos) as U.
  pose proof (Zdigits2_nonneg m) as D.
  destruct (Z_lt_le_dec (Zdigits2 m) n) as [C|C]; [|exact C].
  assert (2 ^ Zdigits2 m <= 2 ^ (n - 1))%Z by (apply Z.pow_le_mono_r; lia). lia.
Qed.

(** ** Shifting a mantissa to the right *)

Lemma inject_Z_xO (p : positive) : inject_Z (Zpos p~0) == 2 * inject_Z (Zpos p).
Proof. rewrite (Pos2Z.inj_xO p), inject_Z_mult. reflexivity. Qed.

Lemma inject_Z_xI (p : positive) : inject_Z (Zpos p~1) == 2 * inject_Z (Zpos p) + 1.
Proof. rewrite (Pos2Z.inj_xI p), inject_Z_plus, inject_Z_mult. reflexivity. Qed.

Lemma shr_1_inside (mrs : shr_record) (x : Q) :
  (0 <= shr_m mrs)%Z -> inside mrs x ->
  inside (shr_1 mrs) (x * (1 # 2)) /\ (0 <= shr_m (shr_1 mrs))%Z.
Proof.
  destruct mrs as [m r s]. unfold inside. cbn [shr_m shr_r shr_s].
  intros Pos H. destruct m as [|[p|p|]|p]; [| | | |lia].
  - cbn [shr_1 shr_m shr_r shr_s]. split; [|lia].
    change (inject_Z 0) with 0 in *. destruct r, s; cbn [orb]; lra.
  - cbn [shr_1 shr_m shr_r shr_s]. split; [|lia].
    pose proof (inject_Z_xI p) as E. set (a := inject_Z (Zpos p)) in *.
    set (b := inject_Z (Zpos p~1)) in *. destruct r, s; cbn [orb]; lra.
  - cbn [shr_1 shr_m shr_r shr_s]. split; [|lia].
    pose proof (inject_Z_xO p) as E. set (a := inject_Z (Zpos p)) in *.
    set (b := inject_Z (Zpos p~0)) in *. destruct r, s; cbn [orb]; lra.
  - cbn [shr_1 shr_m shr_r shr_s]. split; [|lia].
    change (inject_Z 1) with 1 in *. change (inject_Z 0) with 0.
    destruct r, s; cbn [orb]; lra.
Qed.

Lemma inside_wd (mrs : shr_record) (x y : Q) : x == y -> inside mrs x -> inside mrs y.
Proof.
  unfold inside. intros E. destruct (shr_r mrs), (shr_s mrs); cbv zeta; lra.
Qed.

Lemma iter_shr_1_inside (p : positive) : forall (mrs : shr_record) (x : Q),
  (0 <= shr_m mrs)%Z -> inside mrs x ->
  inside (iter_pos shr_1 p mrs) (x * pow2 (- Zpos p))
  /\ (0 <= shr_m (iter_pos shr_1 p mrs))%Z.
Proof.
  induction p as [p IH|p IH|]; intros mrs x Pos H; cbn [iter_pos].
  - destruct (shr_1_inside mrs x Pos H) as (H1 & P1).
    destruct (IH _ _ P1 H1) as (H2 & P2).
    destruct (IH _ _ P2 H2) as (H3 & P3).
    split; [|exact P3]. eapply inside_wd; [|exact H3].
    replace (- Zpos p~1)%Z with (-1 + (- Zpos p + - Zpos p))%Z by lia.
    rewrite !pow2_plus. change (pow2 (-1)) with (1 # 2). ring.
  - destruct (IH _ _ Pos H) as (H2 & P2).
    destruct (IH _ _ P2 H2) as (H3 & P3).
    split; [|exact P3]. eapply inside_wd; [|exact H3].
    replace (- Zpos p~0)%Z with (- Zpos p + - Zpos p)%Z by lia.
    rewrite !pow2_plus. ring.
  - destruct (shr_1_inside mrs x Pos H) as (H1 & P1). split; [|exact P1].
    eapply inside_wd; [|exact H1]. change (pow2 (- 1)) with (1 # 2). reflexivity.
Qed.

(** [shr] keeps the number: what was [x] in units of [2 ^ e] is read in
    units of [2 ^ e']. *)
Lemma shr_inside (mrs : shr_record) (e n : Z) (x : Q) :
  (0 <= shr_m mrs)%Z -> inside mrs x ->
  let e' := (if (0 <? n)%Z then e + n else e)%Z in
  snd (shr mrs e n) = e'
  /\ inside (fst (shr mrs e n)) (x * pow2 (e - e'))
  /\ (0 <= shr_m (fst (shr mrs e n)))%Z.
Proof.
  intros Pos H. destruct n as [|p|p]; cbn [shr fst snd Z.ltb Z.compare]; cbv zeta.
  - split; [reflexivity|]. split; [|exact Pos].
    eapply inside_wd; [|exact H]. replace (e - e)%Z with 0%Z by lia.
    change (pow2 0) with 1. ring.
  - split; [reflexivity|].
    destruct (iter_shr_1_inside p mrs x Pos H) as (H1 & P1). split; [|exact P1].
    replace (e - (e + Zpos p))%Z with (- Zpos p)%Z by lia. exact H1.
  - split; [reflexivity|]. split; [|exact Pos].
    eapply inside_wd; [|exact H]. replace (e - e)%Z with 0%Z by lia.
    change (pow2 0) with 1. ring.
Qed.

(** ** Rounding to nearest, ties to even *)

Lemma inside_bounds (mrs : shr_record) (x : Q) :
  inside mrs x -> inject_Z (shr_m mrs) <= x /\ x < inject_Z (shr_m mrs) + 1.
Proof. unfold inside. destruct (shr_r mrs), (shr_s mrs); cbv zeta; lra. Qed.

Lemma round_nearest_even_inside (mrs : shr_record) (x : Q) :
  inside mrs x ->
  let m1 := round_nearest_even (shr_m mrs) (loc_of_shr_record mrs) in
  (m1 = shr_m mrs \/ m1 = (shr_m mrs + 1)%Z)
  /\ Qabs (inject_Z m1 - x) <= 1 # 2.
Proof.
  destruct mrs as [m r s]. unfold inside. cbn [shr_m shr_r shr_s loc_of_shr_record].
  intros H. cbv zeta.
  assert (E : inject_Z (m + 1) == inject_Z m + 1)
    by (rewrite inject_Z_plus; reflexivity).
  set (a := inject_Z m) in *. set (b := inject_Z (m + 1)) in *.
  destruct r, s; cbn [round_nearest_even].
  - split; [right; reflexivity|]. apply Qabs_Qle_condition. fold b. lra.
  - destruct (Z.even m); (split; [auto|]); apply Qabs_Qle_condition; fold a b; lra.
  - split; [left; reflexivity|]. apply Qabs_Qle_condition. fold a. lra.
  - split; [left; reflexivity|]. apply Qabs_Qle_condition. fold a. lra.
Qed.

(** ** The rounding step *)

Lemma fexp64 (e : Z) : fexp prec emax e = Z.max (e - 53) (-1074).
Proof. reflexivity. Qed.

Lemma shr_m_of_loc (m : Z) (l : location) : shr_m (shr_record_of_loc m l) = m.
Proof. destruct l as [|[]]; reflexivity. Qed.

Lemma shr_nonpos (mrs : shr_record) (e n : Z) : (n <= 0)%Z -> shr mrs e n = (mrs, e).
Proof. destruct n; [reflexivity|lia|reflexivity]. Qed.

Lemma inside_exact (m : Z) (x : Q) : inside (shr_record_of_loc m loc_Exact) x <-> x == inject_Z m.
Proof. reflexivity. Qed.

(** Multiplying through by a power of two. *)
Lemma scale_pow2 (x : Q) (a b : Z) : x * pow2 a * pow2 b == x * pow2 (a + b).
Proof. rewrite pow2_plus. ring. Qed.

Lemma unscale_pow2 (x : Q) (e : Z) : x * pow2 (- e) * pow2 e == x.
Proof. rewrite scale_pow2. replace (- e + e)%Z with 0%Z by lia. change (pow2 0) with 1. ring. Qed.

Lemma Qmult_le_pow2 (a b : Q) (e : Z) : a <= b -> a * pow2 e <= b * pow2 e.
Proof. intros H. apply Qmult_le_compat_r; [exact H|apply Qlt_le_weak, pow2_pos]. Qed.

Lemma Qmult_lt_pow2 (a b : Q) (e : Z) : a < b -> a * pow2 e < b * pow2 e.
Proof. intros H. apply Qmult_lt_compat_r; [apply pow2_pos|exact H]. Qed.

(** A cell that holds an integer is the cell of that integer, cut exactly. *)
Lemma inside_integer (mrs : shr_record) (k : Z) (x : Q) :
  inside mrs x -> x == inject_Z k ->
  round_nearest_even (shr_m mrs) (loc_of_shr_record mrs) = k.
Proof.
  intros In E. pose proof (inside_bounds _ _ In) as (Lo & Hi).
  destruct mrs as [m r s]. cbn [shr_m] in *.
  rewrite E in Lo, Hi. change 1 with (inject_Z 1) in Hi.
  rewrite <- inject_Z_plus in Hi. rewrite <- Zle_Qle in Lo. rewrite <- Zlt_Qlt in Hi.
  assert (k = m) by lia. subst k.
  unfold inside in In. cbn [shr_m shr_r shr_s] in In.
  destruct r, s; cbn [loc_of_shr_record round_nearest_even]; try reflexivity; exfalso; lra.
Qed.

(** The rounding step of every binary64 operation.  The number [v] lies in
    the cell of [mx], in units of [2 ^ ex], the cell being no coarser than
    the format asks for at that size; the datum returned is then finite,
    carries the sign handed in, and is off [v] by at most half a unit in
    the last place: a relative [roundoff], or [eta] near zero; it is [v] itself
    when the format holds [v]. *)
Lemma binary_round_aux_spec (sx : bool) (mx ex : Z) (lx : location) (v : Q) :
  (0 <= mx)%Z ->
  inside (shr_record_of_loc mx lx) (v * pow2 (- ex)) ->
  (ex <= fexp prec emax (Zdigits2 mx + ex))%Z ->
  (Zdigits2 mx + ex <= 1023)%Z ->
  let r := binary_round_aux prec emax sx mx ex lx in
  (r = S754_zero sx \/ exists m e, r = S754_finite sx m e)
  /\ Qabs (SF2Q r - (if sx then - v else v)) <= roundoff * v + eta
  /\ (representable v -> SF2Q r == (if sx then - v else v)).
Proof.
  intros Pos In Cell Top. cbv zeta. unfold binary_round_aux, shr_fexp.
  set (e1 := fexp prec emax (Zdigits2 mx + ex)) in *.
  assert (He1 : e1 = Z.max (Zdigits2 mx + ex - 53) (-1074)) by reflexivity.
  clearbody e1.
  pose proof (shr_inside (shr_record_of_loc mx lx) ex (e1 - ex) (v * pow2 (- ex))) as S.
  rewrite shr_m_of_loc in S. specialize (S Pos In). cbv zeta in S.
  assert (E1 : (if (0 <? e1 - ex)%Z then (ex + (e1 - ex))%Z else ex) = e1)
    by (destruct (Z.ltb_spec 0 (e1 - ex)); lia).
  rewrite E1 in S.
  destruct (shr (shr_record_of_loc mx lx) ex (e1 - ex)) as [mrs' e'].
  cbn [fst snd] in S. destruct S as (-> & In' & Pos').
  set (w := v * pow2 (- e1)).
  assert (Ew : v * pow2 (- ex) * pow2 (ex - e1) == w).
  { unfold w. rewrite scale_pow2. replace (- ex + (ex - e1))%Z with (- e1)%Z by lia. reflexivity. }
  apply (inside_wd _ _ _ Ew) in In'.
  assert (Ev : v == w * pow2 e1) by (unfold w; rewrite unscale_pow2; reflexivity).
  pose proof (round_nearest_even_inside mrs' w In') as R. cbv zeta in R.
  set (m1 := round_nearest_even (shr_m mrs') (loc_of_shr_record mrs')) in *.
  destruct R as (Near & Half).
  pose proof (inside_bounds _ _ In') as (Lo' & Hi').
  pose proof (inside_bounds _ _ In) as (Lo & Hi). rewrite shr_m_of_loc in Lo, Hi.
  pose proof (Zdigits2_nonneg mx) as Dn.
  pose proof (Zdigits2_upper mx Pos) as Du.
  (* the mantissa cut has at most 53 digits *)
  assert (B' : (shr_m mrs' < 2 ^ 53)%Z).
  { rewrite Zlt_Qlt. eapply Qle_lt_trans; [exact Lo'|].
    rewrite (pow2_Z 53) by lia.
    assert (X : w < pow2 (Zdigits2 mx + ex - e1)).
    { rewrite <- Ew. replace (Zdigits2 mx + ex - e1)%Z with (Zdigits2 mx + (ex - e1))%Z by lia.
      rewrite pow2_plus. apply Qmult_lt_pow2.
      eapply Qlt_le_trans; [exact Hi|].
      rewrite <- pow2_Z by exact Dn.
      change 1 with (inject_Z 1). rewrite <- inject_Z_plus, <- Zle_Qle. lia. }
    eapply Qlt_le_trans; [exact X|]. apply pow2_le. lia. }
  assert (Pv : 0 <= v).
  { rewrite Ev. apply Qmult_le_0_compat; [|apply Qlt_le_weak, pow2_pos].
    eapply Qle_trans; [|exact Lo']. change 0 with (inject_Z 0). rewrite <- Zle_Qle. exact Pos'. }
  (* away from the smallest unit the number has 53 digits in front *)
  assert (Normal : e1 <> (-1074)%Z -> pow2 (e1 + 52) <= v).
  { intros Em.
    assert (Dx : (e1 = Zdigits2 mx + ex - 53)%Z) by lia.
    assert (Px : (0 < mx)%Z) by (destruct mx; cbn in *; lia).
    pose proof (Zdigits2_lower mx Px) as Dl.
    rewrite <- (unscale_pow2 v ex).
    replace (e1 + 52)%Z with (Zdigits2 mx - 1 + ex)%Z by lia.
    rewrite pow2_plus. apply Qmult_le_pow2.
    eapply Qle_trans; [|exact Lo].
    rewrite <- pow2_Z by lia. rewrite <- Zle_Qle. exact Dl. }
  (* half a unit in the last place *)
  assert (Ulp : pow2 (e1 - 1) <= roundoff * v + eta).
  { pose proof (pow2_pos (-53)) as Pu. fold roundoff in Pu.
    destruct (Z.eq_dec e1 (-1074)) as [Em|Em].
    - rewrite Em. change (pow2 (-1074 - 1)) with eta.
      assert (0 <= roundoff * v) by (apply Qmult_le_0_compat; lra). lra.
    - specialize (Normal Em).
      assert (Y : pow2 (e1 - 1) == roundoff * pow2 (e1 + 52)).
      { unfold roundoff. rewrite <- pow2_plus. replace (-53 + (e1 + 52))%Z with (e1 - 1)%Z by lia.
        reflexivity. }
      pose proof (pow2_pos (-1075)) as Pe. fold eta in Pe.
      assert (roundoff * pow2 (e1 + 52) <= roundoff * v)
        by (rewrite !(Qmult_comm roundoff); apply Qmult_le_compat_r; lra).
      lra. }
  (* a number the format holds is cut exactly *)
  assert (Exact : representable v -> inject_Z m1 * pow2 e1 == v).
  { intros (M & E & PM & DM & EE & HV).
    assert (Le : (e1 <= E)%Z).
    { destruct (Z.eq_dec e1 (-1074)) as [Em|Em]; [lia|]. specialize (Normal Em).
      assert (X : v < pow2 (53 + E)).
      { rewrite HV, pow2_plus. apply Qmult_lt_pow2.
        pose proof (Zdigits2_upper M PM) as UM. pose proof (Zdigits2_nonneg M).
        rewrite <- pow2_Z by lia. rewrite <- Zlt_Qlt.
        eapply Z.lt_le_trans; [exact UM|]. apply Z.pow_le_mono_r; lia. }
      assert (Y : pow2 (e1 + 52) < pow2 (53 + E)) by (eapply Qle_lt_trans; eassumption).
      apply pow2_lt_inv in Y. lia. }
    assert (W : w == inject_Z (M * 2 ^ (E - e1))).
    { unfold w. rewrite HV, inject_Z_mult, pow2_Z by lia.
      rewrite scale_pow2. replace (E + - e1)%Z with (E - e1)%Z by lia. reflexivity. }
    unfold m1. rewrite (inside_integer mrs' _ w In' W), <- W, Ev. reflexivity. }
  (* the value rounded, before it is packed *)
  assert (Val : Qabs (inject_Z m1 * pow2 e1 - v) <= pow2 (e1 - 1)).
  { rewrite pow2_pred.
    assert (X : inject_Z m1 * pow2 e1 - v == (inject_Z m1 - w) * pow2 e1) by (rewrite Ev; ring).
    rewrite X, Qabs_Qmult, (Qabs_pos (pow2 e1)) by apply Qlt_le_weak, pow2_pos.
    apply Qmult_le_pow2. exact Half. }
  assert (M1 : (0 <= m1 <= 2 ^ 53)%Z) by lia.
  assert (Fin : forall a b : Q, a == inject_Z m1 * pow2 e1 ->
             b == (if sx then - a else a) ->
             Qabs (b - (if sx then - v else v)) <= roundoff * v + eta
             /\ (representable v -> b == (if sx then - v else v))).
  { intros a b Ea Eb. rewrite Eb. split.
    - eapply Qle_trans; [|exact Ulp]. destruct sx; rewrite Ea; [|exact Val].
      assert (X : - (inject_Z m1 * pow2 e1) - - v == - (inject_Z m1 * pow2 e1 - v)) by ring.
      rewrite X, Qabs_opp. exact Val.
    - intros Rv. destruct sx; rewrite Ea, (Exact Rv); reflexivity. }
  destruct (Z.eq_dec m1 (2 ^ 53)) as [Full|NotFull].
  - (* the mantissa spilled over: one more shift, which is exact *)
    rewrite Full.
    assert (N2 : (fexp prec emax (Zdigits2 (2 ^ 53) + e1) - e1 = 1)%Z).
    { rewrite fexp64. change (Zdigits2 (2 ^ 53)) with 54%Z. lia. }
    rewrite N2. cbn [shr shr_record_of_loc iter_pos].
    change (shr_m (shr_1 {| shr_m := 2 ^ 53; shr_r := false; shr_s := false |}))
      with (Zpos (2 ^ 52)).
    cbv iota beta.
    assert (Ok : (e1 + 1 <=? emax - prec)%Z = true)
      by (apply Z.leb_le; change (emax - prec)%Z with 971%Z; lia).
    rewrite Ok. split; [right; eauto|].
    cbn [SF2Q]. apply (Fin (inject_Z (Zpos (2 ^ 52)) * pow2 (e1 + 1))).
    + rewrite pow2_succ, Full.
      change (inject_Z (2 ^ 53)) with (2 * inject_Z (Zpos (2 ^ 52))). ring.
    + destruct sx; ring.
  - assert (D1 : (Zdigits2 m1 <= 53)%Z) by (apply Zdigits2_le; lia).
    rewrite (shr_nonpos _ _ (fexp prec emax (Zdigits2 m1 + e1) - e1))
      by (rewrite fexp64; lia).
    rewrite shr_m_of_loc.
    destruct m1 as [|m|m] eqn:Em; [| |lia].
    + split; [left; reflexivity|]. cbn [SF2Q]. apply (Fin 0).
      * change (inject_Z 0) with 0. ring.
      * destruct sx; ring.
    + assert (Ok : (e1 <=? emax - prec)%Z = true)
        by (apply Z.leb_le; change (emax - prec)%Z with 971%Z; lia).
      rewrite Ok. split; [right; eauto|]. cbn [SF2Q].
      apply (Fin (inject_Z (Zpos m) * pow2 e1)); [reflexivity|destruct sx; ring].
Qed.

(** ** What validity says about a finite datum *)

Lemma valid_finite (s : bool) (m : positive) (e : Z) :
  valid_binary (S754_finite s m e) = true ->
  (Zpos (digits2_pos m) <= 53 /\ -1074 <= e <= 971
   /\ (Zpos (digits2_pos m) = 53 \/ e = -1074))%Z.
Proof.
  unfold FloatAxioms.valid_binary, SpecFloat.valid_binary, bounded, canonical_mantissa.
  rewrite andb_true_iff, Z.eqb_eq, Z.leb_le, fexp64.
  change (emax - prec)%Z with 971%Z. lia.
Qed.

Lemma mantissa_bounds (m : positive) :
  pow2 (Zpos (digits2_pos m) - 1) <= inject_Z (Zpos m)
  /\ inject_Z (Zpos m) < pow2 (Zpos (digits2_pos m)).
Proof.
  pose proof (digits2_pos_bounds m) as (L & U).
  rewrite <- !pow2_Z by lia. rewrite <- Zle_Qle, <- Zlt_Qlt. auto.
Qed.

Lemma finite_bounds (m : positive) (e : Z) :
  pow2 (Zpos (digits2_pos m) - 1 + e) <= inject_Z (Zpos m) * pow2 e
  /\ inject_Z (Zpos m) * pow2 e < pow2 (Zpos (digits2_pos m) + e).
Proof.
  pose proof (mantissa_bounds m) as (L & U). rewrite !pow2_plus.
  split; [apply Qmult_le_pow2, L|apply Qmult_lt_pow2, U].
Qed.

Lemma SF2Q_nonneg (x : spec_float) : SFnonneg x = true -> 0 <= SF2Q x.
Proof.
  destruct x as [s|s| |[] m e]; try discriminate; intros _; cbn [SF2Q]; try lra.
  apply Qmult_le_0_compat; [|apply Qlt_le_weak, pow2_pos].
  change 0 with (inject_Z 0). rewrite <- Zle_Qle. lia.
Qed.

Lemma SFnonneg_finite (x : spec_float) : SFnonneg x = true -> SFfinite x = true.
Proof. destruct x as [s|s| |[] m e]; try discriminate; reflexivity. Qed.

Lemma pow2_cancel (a b : Z) : pow2 a * pow2 b * pow2 (- (a + b)) == 1.
Proof.
  rewrite <- !pow2_plus. replace (a + b + - (a + b))%Z with 0%Z by lia. reflexivity.
Qed.

Lemma zero_close (a : Q) : a == 0 -> Qabs (0 - a) <= roundoff * a + eta.
Proof.
  intros E. rewrite E. change (Qabs (0 - 0)) with 0.
  pose proof (pow2_pos (-1075)) as P. fold eta in P. lra.
Qed.

Lemma round_nonneg (r : spec_float) :
  (r = S754_zero false \/ exists m e, r = S754_finite false m e) -> SFnonneg r = true.
Proof. intros [->|(m & e & ->)]; reflexivity. Qed.

(** ** Multiplication *)

Lemma Zdigits2_mul (m n : positive) :
  (Zpos (digits2_pos m) + Zpos (digits2_pos n) - 1 <= Zdigits2 (Zpos (m * n)))%Z.
Proof.
  pose proof (digits2_pos_bounds m) as (Lm & _).
  pose proof (digits2_pos_bounds n) as (Ln & _).
  apply Zdigits2_ge; [lia| |lia].
  replace (Zpos (digits2_pos m) + Zpos (digits2_pos n) - 1 - 1)%Z
    with ((Zpos (digits2_pos m) - 1) + (Zpos (digits2_pos n) - 1))%Z by lia.
  rewrite Z.pow_add_r by lia. rewrite Pos2Z.inj_mul.
  apply Z.mul_le_mono_nonneg; try assumption; apply Z.pow_nonneg; lia.
Qed.

(** The product of two data that are not negative, when it does not
    overflow, is the exact product rounded: off by a relative [roundoff] at
    most, or by [eta] near zero. *)
Lemma SFmul_nonneg (x y : spec_float) :
  valid_binary x = true -> valid_binary y = true ->
  SFnonneg x = true -> SFnonneg y = true ->
  SF2Q x * SF2Q y < pow2 1023 ->
  SFnonneg (SFmul prec emax x y) = true
  /\ Qabs (SF2Q (SFmul prec emax x y) - SF2Q x * SF2Q y) <= roundoff * (SF2Q x * SF2Q y) + eta
  /\ (representable (SF2Q x * SF2Q y) -> SF2Q (SFmul prec emax x y) == SF2Q x * SF2Q y).
Proof.
  intros Vx Vy Nx Ny Top.
  destruct x as [sx|sx| |[] mx ex]; try discriminate;
    destruct y as [sy|sy| |[] my ey]; try discriminate;
    try (split; [reflexivity|split; [apply zero_close|intros _]; cbn [SFmul SF2Q]; ring]).
  cbn [SFmul xorb]. cbn [SF2Q] in *.
  set (v := inject_Z (Zpos mx) * pow2 ex * (inject_Z (Zpos my) * pow2 ey)) in *.
  apply valid_finite in Vx, Vy.
  pose proof (Zdigits2_mul mx my) as D.
  assert (Ev : v == inject_Z (Zpos (mx * my)) * pow2 (ex + ey)).
  { unfold v. rewrite Pos2Z.inj_mul, inject_Z_mult, pow2_plus. ring. }
  pose proof (binary_round_aux_spec false (Zpos (mx * my)) (ex + ey) loc_Exact v) as R.
  cbv zeta in R. destruct R as (Shape & Close & Exact).
  - lia.
  - apply inside_exact. rewrite Ev.
    rewrite <- Qmult_assoc, <- pow2_plus.
    replace (ex + ey + - (ex + ey))%Z with 0%Z by lia. change (pow2 0) with 1. ring.
  - rewrite fexp64. pose proof (digits2_pos_bounds mx). pose proof (digits2_pos_bounds my).
    assert (1 <= Zpos (digits2_pos mx))%Z by lia.
    assert (1 <= Zpos (digits2_pos my))%Z by lia. lia.
  - pose proof (finite_bounds (mx * my) (ex + ey)) as (L & _). rewrite <- Ev in L.
    assert (X : pow2 (Zpos (digits2_pos (mx * my)) - 1 + (ex + ey)) < pow2 1023)
      by (eapply Qle_lt_trans; eassumption).
    apply pow2_lt_inv in X. cbn [Zdigits2]. lia.
  - split; [apply round_nonneg, Shape|split; [exact Close|exact Exact]].
Qed.

(** ** Division *)

Lemma new_location_inside (d r q : Z) (x : Q) :
  (0 < d)%Z -> (0 <= r < d)%Z -> x == inject_Z q + inject_Z r / inject_Z d ->
  inside (shr_record_of_loc q (new_location d r)) x.
Proof.
  intros Pd Rr E.
  assert (Dq : 0 < inject_Z d) by (change 0 with (inject_Z 0); rewrite <- Zlt_Qlt; exact Pd).
  set (t := inject_Z r / inject_Z d) in *.
  assert (Et : t * inject_Z d == inject_Z r)
    by (unfold t; field; intros C; lra).
  assert (Half : forall c : comparison, (2 * r ?= d)%Z = c ->
            match c with Lt => t < 1 # 2 | Eq => t == 1 # 2 | Gt => 1 # 2 < t end).
  { intros c <-. destruct (Z.compare_spec (2 * r) d) as [C|C|C].
    - assert (X : inject_Z 2 * inject_Z r == inject_Z d)
        by (rewrite <- inject_Z_mult, C; reflexivity).
      rewrite <- Et in X. change (inject_Z 2) with 2 in X.
      assert (Y : (2 * t - 1) * inject_Z d == 0) by lra.
      apply Qmult_integral in Y. destruct Y as [Y|Y]; lra.
    - rewrite Zlt_Qlt, inject_Z_mult, <- Et in C. change (inject_Z 2) with 2 in C.
      assert (Y : (2 * t) * inject_Z d < 1 * inject_Z d) by lra.
      apply Qmult_lt_r in Y; [lra|exact Dq].
    - rewrite Zlt_Qlt, inject_Z_mult, <- Et in C. change (inject_Z 2) with 2 in C.
      assert (Y : 1 * inject_Z d < (2 * t) * inject_Z d) by lra.
      apply Qmult_lt_r in Y; [lra|exact Dq]. }
  assert (T0 : 0 <= t /\ t < 1).
  { split.
    - unfold t. apply Qle_shift_div_l; [exact Dq|]. rewrite Qmult_0_l.
      change 0 with (inject_Z 0). rewrite <- Zle_Qle. lia.
    - unfold t. apply Qlt_shift_div_r; [exact Dq|]. rewrite Qmult_1_l.
      rewrite <- Zlt_Qlt. lia. }
  assert (Tpos : r <> 0%Z -> 0 < t).
  { intros N. unfold t. apply Qlt_shift_div_l; [exact Dq|]. rewrite Qmult_0_l.
    change 0 with (inject_Z 0). rewrite <- Zlt_Qlt. lia. }
  assert (Tzero : r = 0%Z -> t == 0).
  { intros ->. unfold t. change (inject_Z 0) with 0. unfold Qdiv. ring. }
  set (iq := inject_Z q) in *.
  unfold new_location, new_location_even, new_location_odd.
  destruct (Z.even d) eqn:Ev.
  - destruct (Z.eqb_spec r 0) as [Z|NZ].
    + apply inside_exact. fold iq. rewrite E, (Tzero Z). ring.
    + specialize (Tpos NZ). pose proof (Half _ eq_refl) as H.
      destruct (2 * r ?= d)%Z; unfold inside; cbn [shr_record_of_loc shr_m shr_r shr_s];
        fold iq; lra.
  - destruct (Z.eqb_spec r 0) as [Z|NZ].
    + apply inside_exact. fold iq. rewrite E, (Tzero Z). ring.
    + specialize (Tpos NZ).
      assert (Odd : (2 * r <> d)%Z).
      { intros C. rewrite <- C, Z.even_mul in Ev. discriminate. }
      pose proof (Half _ eq_refl) as H.
      destruct (Z.compare_spec (2 * r + 1) d) as [C|C|C];
        destruct (Z.compare_spec (2 * r) d) as [C'|C'|C']; try lia;
        unfold inside; cbn [shr_record_of_loc shr_m shr_r shr_s]; fold iq; lra.
Qed.

Lemma inject_Z_pos (m : positive) : 0 < inject_Z (Zpos m).
Proof. change 0 with (inject_Z 0). rewrite <- Zlt_Qlt. lia. Qed.

(** The quotient that [SFdiv] hands to the rounding step: the cell of the
    exact quotient [v], fine enough for the format. *)
Lemma SFdiv_core_binary_spec (mx my : positive) (ex ey : Z) (q e' : Z) (l : location) :
  SFdiv_core_binary prec emax (Zpos mx) ex (Zpos my) ey = (q, e', l) ->
  let v := (inject_Z (Zpos mx) * pow2 ex) / (inject_Z (Zpos my) * pow2 ey) in
  (0 <= q)%Z
  /\ inside (shr_record_of_loc q l) (v * pow2 (- e'))
  /\ (e' <= fexp prec emax (Zdigits2 q + e'))%Z
  /\ (v < pow2 1023 -> (Zdigits2 q + e' <= 1023)%Z).
Proof.
  unfold SFdiv_core_binary. cbv zeta. rewrite fexp64.
  cbn [Zdigits2].
  set (d1 := Zpos (digits2_pos mx)). set (d2 := Zpos (digits2_pos my)).
  set (e0 := Z.min (Z.max (d1 + ex - (d2 + ey) - 53) (-1074)) (ex - ey)).
  assert (He0 : e0 = Z.min (Z.max (d1 + ex - (d2 + ey) - 53) (-1074)) (ex - ey)) by reflexivity.
  clearbody e0.
  set (s := (ex - ey - e0)%Z). assert (Hs : s = (ex - ey - e0)%Z) by reflexivity. clearbody s.
  assert (Ps : (0 <= s)%Z) by lia.
  set (m' := match s with Zpos _ => Z.shiftl (Zpos mx) s | 0%Z => Zpos mx | Zneg _ => 0%Z end).
  assert (Hm : m' = (Zpos mx * 2 ^ s)%Z).
  { unfold m'. destruct s as [|p|p]; [cbn; lia|apply Z.shiftl_mul_pow2; lia|lia]. }
  clearbody m'.
  pose proof (Z_div_mod m' (Zpos my) eq_refl) as DM.
  destruct (Z.div_eucl m' (Zpos my)) as [q0 r]. destruct DM as (Em & Rr).
  intros H. inversion H; subst q e' l. clear H.
  pose proof (digits2_pos_bounds mx) as (Lx & Ux). fold d1 in Lx, Ux.
  pose proof (digits2_pos_bounds my) as (Ly & Uy). fold d2 in Ly, Uy.
  assert (P2 : (0 < 2 ^ s)%Z) by (apply Z.pow_pos_nonneg; lia).
  assert (Pm : (0 < m')%Z) by (rewrite Hm; apply Z.mul_pos_pos; lia).
  assert (Pq : (0 <= q0)%Z) by nia.
  pose proof (inject_Z_pos mx) as Ix. pose proof (inject_Z_pos my) as Iy.
  pose proof (pow2_pos ex) as Pex. pose proof (pow2_pos ey) as Pey.
  set (v := inject_Z (Zpos mx) * pow2 ex / (inject_Z (Zpos my) * pow2 ey)).
  (* the quotient, in units of [2 ^ e0] *)
  assert (Ev : v * pow2 (- e0) == inject_Z q0 + inject_Z r / inject_Z (Zpos my)).
  { assert (X : pow2 ex == pow2 s * pow2 ey * pow2 e0).
    { rewrite <- !pow2_plus. replace (s + ey + e0)%Z with ex by lia. reflexivity. }
    assert (Y : inject_Z (Zpos mx) * pow2 s == inject_Z (Zpos my) * inject_Z q0 + inject_Z r).
    { rewrite <- pow2_Z by exact Ps. rewrite <- !inject_Z_mult, <- inject_Z_plus, <- Hm, Em.
      reflexivity. }
    pose proof (pow2_opp e0) as Z.
    unfold v. rewrite X.
    set (a := inject_Z (Zpos mx)) in *. set (b := inject_Z (Zpos my)) in *.
    set (S := pow2 s) in *. set (A := pow2 ey) in *. set (B := pow2 e0) in *.
    set (C := pow2 (- e0)) in *.
    assert (W : a * (S * A * B) / (b * A) * C == (a * S) / b * (B * C))
      by (field; split; intros K; lra).
    rewrite W, Z, Y. field. intros K. lra. }
  assert (In : inside (shr_record_of_loc q0 (new_location (Zpos my) r)) (v * pow2 (- e0)))
    by (apply new_location_inside; [lia|exact Rr|exact Ev]).
  (* the digits of the quotient *)
  assert (Dq : (d1 + s - d2 <= Zdigits2 q0)%Z).
  { pose proof (Zdigits2_nonneg q0).
    destruct (Z_lt_le_dec (d1 + s - d2) 1) as [C|C]; [lia|].
    apply Zdigits2_ge; [exact Pq| |exact C].
    assert (X : (2 ^ (d1 - 1) * 2 ^ s = 2 ^ (d1 + s - d2 - 1) * 2 ^ d2)%Z).
    { rewrite <- !Z.pow_add_r by lia. f_equal. lia. }
    assert (Y : (0 < 2 ^ (d1 + s - d2 - 1))%Z) by (apply Z.pow_pos_nonneg; lia).
    assert (W : (2 ^ (d1 - 1) * 2 ^ s <= Zpos mx * 2 ^ s)%Z)
      by (apply Z.mul_le_mono_nonneg_r; lia).
    assert (W2 : (2 ^ (d1 + s - d2 - 1) * Zpos my < 2 ^ (d1 + s - d2 - 1) * 2 ^ d2)%Z)
      by (apply Z.mul_lt_mono_pos_l; lia).
    assert (W3 : (2 ^ (d1 + s - d2 - 1) * Zpos my < Zpos my * (q0 + 1))%Z) by lia.
    rewrite (Z.mul_comm (2 ^ _)) in W3. apply Z.mul_lt_mono_pos_l in W3; lia. }
  split; [exact Pq|]. split; [exact In|]. split; [rewrite fexp64; lia|].
  intros Top.
  assert (Pv : 0 < v).
  { unfold v. apply Qlt_shift_div_l; [apply Qmult_lt_0_compat; lra|].
    rewrite Qmult_0_l. apply Qmult_lt_0_compat; lra. }
  destruct (Z.eq_dec q0 0) as [Q0|Q0].
  - (* the quotient is below one unit: the unit is the smallest one *)
    subst q0. cbn [Zdigits2].
    pose proof (finite_bounds mx ex) as (Nl & _). fold d1 in Nl.
    pose proof (finite_bounds my ey) as (_ & Du). fold d2 in Du.
    assert (X : pow2 (d1 - 1 + ex) < v * pow2 (d2 + ey)).
    { eapply Qle_lt_trans; [exact Nl|].
      assert (Y : inject_Z (Zpos mx) * pow2 ex == v * (inject_Z (Zpos my) * pow2 ey)).
      { unfold v. field. split; intros K; lra. }
      rewrite Y. rewrite !(Qmult_comm v). apply Qmult_lt_compat_r; [exact Pv|exact Du]. }
    assert (Y : pow2 (d1 - 1 + ex) < pow2 (1023 + (d2 + ey))).
    { eapply Qlt_trans; [exact X|]. rewrite (pow2_plus 1023 (d2 + ey)). apply Qmult_lt_pow2, Top. }
    apply pow2_lt_inv in Y. lia.
  - pose proof (Zdigits2_lower q0 ltac:(lia)) as Lq.
    pose proof (inside_bounds _ _ In) as (Lo & _). rewrite shr_m_of_loc in Lo.
    assert (X : pow2 (Zdigits2 q0 - 1 + e0) <= v).
    { rewrite <- (unscale_pow2 v e0), pow2_plus. apply Qmult_le_pow2.
      eapply Qle_trans; [|exact Lo].
      pose proof (Zdigits2_nonneg q0).
      assert (1 <= Zdigits2 q0)%Z by (destruct q0; cbn in *; lia).
      rewrite <- pow2_Z by lia. rewrite <- Zle_Qle. exact Lq. }
    assert (Y : pow2 (Zdigits2 q0 - 1 + e0) < pow2 1023) by (eapply Qle_lt_trans; eassumption).
    apply pow2_lt_inv in Y. lia.
Qed.

(** The quotient of a datum that is not negative by a positive one, when it
    does not overflow, is the exact quotient rounded. *)
Lemma SFdiv_nonneg (x : spec_float) (my : positive) (ey : Z) :
  SFnonneg x = true ->
  let y := S754_finite false my ey in
  SF2Q x / SF2Q y < pow2 1023 ->
  SFnonneg (SFdiv prec emax x y) = true
  /\ Qabs (SF2Q (SFdiv prec emax x y) - SF2Q x / SF2Q y) <= roundoff * (SF2Q x / SF2Q y) + eta
  /\ (representable (SF2Q x / SF2Q y) -> SF2Q (SFdiv prec emax x y) == SF2Q x / SF2Q y).
Proof.
  intros Nx y Top. subst y.
  destruct x as [sx|sx| |[] mx ex]; try discriminate.
  - split; [reflexivity|split; [apply zero_close|intros _]; cbn [SFdiv SF2Q]; unfold Qdiv; ring].
  - cbn [SFdiv xorb]. cbn [SF2Q] in *.
    destruct (SFdiv_core_binary prec emax (Zpos mx) ex (Zpos my) ey) as [[q e'] l] eqn:Core.
    pose proof (SFdiv_core_binary_spec mx my ex ey q e' l Core) as S. cbv zeta in S.
    destruct S as (Pq & In & Cell & Tp).
    pose proof (binary_round_aux_spec false q e' l _ Pq In Cell (Tp Top)) as R.
    cbv zeta in R. destruct R as (Shape & Close & Exact).
    split; [apply round_nonneg, Shape|split; [exact Close|exact Exact]].
Qed.

(** ** Subtraction *)

Lemma shl_align_spec (mx : positive) (ex ex' : Z) :
  snd (shl_align mx ex ex') = Z.min ex ex'
  /\ Zpos (fst (shl_align mx ex ex')) = (Zpos mx * 2 ^ (ex - Z.min ex ex'))%Z.
Proof.
  unfold shl_align. destruct (ex' - ex)%Z as [|d|d] eqn:E; cbn [fst snd].
  - split; [lia|]. replace (ex - Z.min ex ex')%Z with 0%Z by lia. cbn. lia.
  - split; [lia|]. replace (ex - Z.min ex ex')%Z with 0%Z by lia. cbn. lia.
  - split; [lia|]. replace (ex - Z.min ex ex')%Z with (Zpos d) by lia.
    change (Pos.iter xO mx d) with (shift_pos d mx).
    rewrite shift_pos_correct. change (Z.pow_pos 2 d) with (2 ^ Zpos d)%Z. lia.
Qed.

Lemma Zdigits2_shift (p : positive) (k : Z) :
  (0 <= k)%Z -> Zdigits2 (Zpos p * 2 ^ k) = (Zpos (digits2_pos p) + k)%Z.
Proof.
  intros Pk. pose proof (digits2_pos_bounds p) as (L & U).
  assert (P2 : (0 < 2 ^ k)%Z) by (apply Z.pow_pos_nonneg; lia).
  apply Z.le_antisymm.
  - apply Zdigits2_le; [|lia]. split; [lia|].
    rewrite Z.pow_add_r by lia. apply Z.mul_lt_mono_pos_r; lia.
  - apply Zdigits2_ge; [lia| |lia].
    replace (Zpos (digits2_pos p) + k - 1)%Z with (Zpos (digits2_pos p) - 1 + k)%Z by lia.
    rewrite Z.pow_add_r by lia. apply Z.mul_le_mono_nonneg_r; lia.
Qed.

(** Rounding an integer multiple of a power of two. *)
Lemma binary_round_spec (s : bool) (p : positive) (e : Z) :
  (Zpos (digits2_pos p) + e <= 1023)%Z ->
  let v := inject_Z (Zpos p) * pow2 e in
  let r := binary_round prec emax s p e in
  (r = S754_zero s \/ exists m e', r = S754_finite s m e')
  /\ Qabs (SF2Q r - (if s then - v else v)) <= roundoff * v + eta.
Proof.
  intros Top v. unfold binary_round. cbv zeta.
  pose proof (shl_align_spec p e (fexp prec emax (Zpos (digits2_pos p) + e))) as (E2 & E1).
  destruct (shl_align p e (fexp prec emax (Zpos (digits2_pos p) + e))) as [mz ez].
  cbn [fst snd] in E1, E2. rewrite fexp64 in E1, E2. rewrite <- E2 in E1.
  assert (D : Zdigits2 (Zpos mz) = (Zpos (digits2_pos p) + (e - ez))%Z).
  { rewrite E1. apply Zdigits2_shift. lia. }
  assert (R : let r := binary_round_aux prec emax s (Zpos mz) ez loc_Exact in
              (r = S754_zero s \/ exists m e, r = S754_finite s m e)
              /\ Qabs (SF2Q r - (if s then - v else v)) <= roundoff * v + eta
              /\ (representable v -> SF2Q r == (if s then - v else v)));
    [|cbv zeta in R; destruct R as (Shape & Close & _); split; assumption].
  apply binary_round_aux_spec.
  - lia.
  - apply inside_exact. unfold v. rewrite E1, inject_Z_mult, pow2_Z by lia.
    rewrite scale_pow2. replace (e + - ez)%Z with (e - ez)%Z by lia. reflexivity.
  - rewrite D, fexp64. lia.
  - rewrite D. lia.
Qed.

Lemma exact_close (a b c : Q) : a == b -> Qabs (a - b) <= roundoff * Qabs c + eta.
Proof.
  intros E. assert (X : a - b == 0) by lra. rewrite X. change (Qabs 0) with 0.
  pose proof (pow2_pos (-1075)) as P. fold eta in P.
  pose proof (pow2_pos (-53)) as Pu. fold roundoff in Pu.
  pose proof (Qabs_nonneg c).
  assert (0 <= roundoff * Qabs c) by (apply Qmult_le_0_compat; lra). lra.
Qed.

(** The rounded value of an integer in units of [2 ^ e]. *)
Lemma binary_normalize_spec (m e : Z) :
  (Zdigits2 m + e <= 1023)%Z ->
  let v := inject_Z m * pow2 e in
  let r := binary_normalize prec emax m e false in
  SFfinite r = true /\ Qabs (SF2Q r - v) <= roundoff * Qabs v + eta.
Proof.
  intros Top v r. unfold r, binary_normalize. destruct m as [|p|p].
  - split; [reflexivity|]. apply exact_close. unfold v. cbn [SF2Q].
    change (inject_Z 0) with 0. ring.
  - pose proof (binary_round_spec false p e Top) as (Shape & Close). cbv zeta in *.
    split; [destruct Shape as [->|(m' & e' & ->)]; reflexivity|].
    fold v in Close. rewrite (Qabs_pos v); [exact Close|].
    unfold v. apply Qmult_le_0_compat; [|apply Qlt_le_weak, pow2_pos].
    apply Qlt_le_weak, inject_Z_pos.
  - pose proof (binary_round_spec true p e Top) as (Shape & Close). cbv zeta in *.
    split; [destruct Shape as [->|(m' & e' & ->)]; reflexivity|].
    assert (X : v == - (inject_Z (Zpos p) * pow2 e)).
    { unfold v. change (Zneg p) with (- Zpos p)%Z. rewrite inject_Z_opp. ring. }
    rewrite X, (Qabs_opp (inject_Z (Zpos p) * pow2 e)),
      (Qabs_pos (inject_Z (Zpos p) * pow2 e)); [exact Close|].
    apply Qmult_le_0_compat; [|apply Qlt_le_weak, pow2_pos].
    apply Qlt_le_weak, inject_Z_pos.
Qed.

Lemma finite_top (m : positive) (e : Z) :
  inject_Z (Zpos m) * pow2 e < pow2 1023 -> (Zpos (digits2_pos m) + e <= 1023)%Z.
Proof.
  intros H. pose proof (finite_bounds m e) as (L & _).
  assert (X : pow2 (Zpos (digits2_pos m) - 1 + e) < pow2 1023) by (eapply Qle_lt_trans; eassumption).
  apply pow2_lt_inv in X. lia.
Qed.

(** The difference of two data that are not negative is the exact
    difference rounded. *)
Lemma SFsub_nonneg (x y : spec_float) :
  SFnonneg x = true -> SFnonneg y = true ->
  SF2Q x < pow2 1023 -> SF2Q y < pow2 1023 ->
  SFfinite (SFsub prec emax x y) = true
  /\ Qabs (SF2Q (SFsub prec emax x y) - (SF2Q x - SF2Q y))
     <= roundoff * Qabs (SF2Q x - SF2Q y) + eta.
Proof.
  intros Nx Ny Tx Ty.
  destruct x as [sx|sx| |[] mx ex]; try discriminate;
    destruct y as [sy|sy| |[] my ey]; try discriminate.
  - split; [destruct sx, sy; reflexivity|]. apply exact_close.
    destruct sx, sy; cbn [SFsub SF2Q]; ring.
  - split; [reflexivity|]. apply exact_close. cbn [SFsub SF2Q negb]. ring.
  - split; [reflexivity|]. apply exact_close. cbn [SFsub SF2Q]. ring.
  - cbn [SFsub cond_Zopp]. cbn [SF2Q] in *.
    apply finite_top in Tx, Ty.
    set (ez := Z.min ex ey).
    pose proof (shl_align_spec mx ex ez) as (_ & Ea).
    pose proof (shl_align_spec my ey ez) as (_ & Eb).
    replace (Z.min ex ez) with ez in Ea by lia.
    replace (Z.min ey ez) with ez in Eb by lia.
    set (A := Zpos (fst (shl_align mx ex ez))) in *.
    set (B := Zpos (fst (shl_align my ey ez))) in *.
    pose proof (digits2_pos_bounds mx) as (_ & Ux).
    pose proof (digits2_pos_bounds my) as (_ & Uy).
    assert (Pa : (0 < 2 ^ (ex - ez))%Z) by (apply Z.pow_pos_nonneg; lia).
    assert (Pb : (0 < 2 ^ (ey - ez))%Z) by (apply Z.pow_pos_nonneg; lia).
    assert (Ba : (0 < A < 2 ^ (1023 - ez))%Z).
    { rewrite Ea. split; [lia|].
      apply Z.lt_le_trans with (2 ^ Zpos (digits2_pos mx) * 2 ^ (ex - ez))%Z;
        [apply Z.mul_lt_mono_pos_r; lia|].
      rewrite <- Z.pow_add_r by lia. apply Z.pow_le_mono_r; lia. }
    assert (Bb : (0 < B < 2 ^ (1023 - ez))%Z).
    { rewrite Eb. split; [lia|].
      apply Z.lt_le_trans with (2 ^ Zpos (digits2_pos my) * 2 ^ (ey - ez))%Z;
        [apply Z.mul_lt_mono_pos_r; lia|].
      rewrite <- Z.pow_add_r by lia. apply Z.pow_le_mono_r; lia. }
    assert (Top : (Zdigits2 (A - B) + ez <= 1023)%Z).
    { assert (X : Zdigits2 (A - B) = Zdigits2 (Z.abs (A - B))) by (destruct (A - B)%Z; reflexivity).
      rewrite X. assert (Zdigits2 (Z.abs (A - B)) <= 1023 - ez)%Z; [|lia].
      apply Zdigits2_le; lia. }
    pose proof (binary_normalize_spec (A - B) ez Top) as R. cbv zeta in R.
    assert (V : inject_Z (A - B) * pow2 ez
                == inject_Z (Zpos mx) * pow2 ex - inject_Z (Zpos my) * pow2 ey).
    { unfold Z.sub. rewrite inject_Z_plus, inject_Z_opp, Ea, Eb, !inject_Z_mult.
      rewrite !pow2_Z by lia.
      assert (Xa : pow2 (ex - ez) * pow2 ez == pow2 ex)
        by (rewrite <- pow2_plus; replace (ex - ez + ez)%Z with ex by lia; reflexivity).
      assert (Xb : pow2 (ey - ez) * pow2 ez == pow2 ey)
        by (rewrite <- pow2_plus; replace (ey - ez + ez)%Z with ey by lia; reflexivity).
      rewrite <- Xa, <- Xb. ring. }
    rewrite V in R. exact R.
Qed.

(** ** Comparison and absolute value *)

Lemma Qcompare_scale (a b : Q) (e : Z) : (a * pow2 e ?= b * pow2 e) = (a ?= b).
Proof.
  pose proof (pow2_pos e) as P.
  destruct (Qcompare_spec a b) as [E|L|G].
  - apply Qeq_alt. rewrite E. reflexivity.
  - apply Qlt_alt. apply Qmult_lt_pow2, L.
  - apply Qgt_alt. apply Qmult_lt_pow2, G.
Qed.

Lemma finite_lt (m1 m2 : positive) (e1 e2 : Z) :
  (Zpos (digits2_pos m1) <= 53)%Z -> (Zpos (digits2_pos m2) = 53)%Z -> (e1 < e2)%Z ->
  inject_Z (Zpos m1) * pow2 e1 < inject_Z (Zpos m2) * pow2 e2.
Proof.
  intros D1 D2 Lt.
  pose proof (finite_bounds m1 e1) as (_ & U). pose proof (finite_bounds m2 e2) as (L & _).
  eapply Qlt_le_trans; [exact U|]. eapply Qle_trans; [|exact L]. apply pow2_le. lia.
Qed.

(** On valid data that are not negative, [SFcompare] compares the numbers. *)
Lemma SFcompare_nonneg (x y : spec_float) :
  valid_binary x = true -> valid_binary y = true ->
  SFnonneg x = true -> SFnonneg y = true ->
  SFcompare x y = Some (SF2Q x ?= SF2Q y).
Proof.
  intros Vx Vy Nx Ny.
  destruct x as [sx|sx| |[] mx ex]; try discriminate;
    destruct y as [sy|sy| |[] my ey]; try discriminate; cbn [SFcompare SF2Q].
  - reflexivity.
  - f_equal. symmetry. apply Qlt_alt.
    apply Qmult_lt_0_compat; [apply inject_Z_pos|apply pow2_pos].
  - f_equal. symmetry. apply Qgt_alt.
    apply Qmult_lt_0_compat; [apply inject_Z_pos|apply pow2_pos].
  - apply valid_finite in Vx, Vy. f_equal.
    destruct (Z.compare_spec ex ey) as [E|L|G].
    + subst ey. rewrite Qcompare_scale.
      change (inject_Z (Zpos mx) ?= inject_Z (Zpos my)) with (Zpos mx * 1 ?= Zpos my * 1)%Z.
      rewrite !Z.mul_1_r. reflexivity.
    + symmetry. apply Qlt_alt. apply finite_lt; lia.
    + symmetry. apply Qgt_alt. apply finite_lt; lia.
Qed.

(** Valid data that are not negative and stand for the same positive number
    are the same datum. *)
Lemma SF2Q_inj (x y : spec_float) :
  valid_binary x = true -> valid_binary y = true ->
  SFnonneg x = true -> SFnonneg y = true ->
  0 < SF2Q x -> SF2Q x == SF2Q y -> x = y.
Proof.
  intros Vx Vy Nx Ny Px E.
  pose proof (SFcompare_nonneg x y Vx Vy Nx Ny) as C.
  apply Qeq_alt in E. rewrite E in C. clear E.
  destruct x as [sx|sx| |[] mx ex]; try discriminate;
    destruct y as [sy|sy| |[] my ey]; try discriminate;
    cbn [SFcompare] in C; try discriminate C.
  destruct (Z.compare_spec ex ey) as [Ee|L|G]; try discriminate C.
    inversion C as [Cm]. apply Pcompare_Eq_eq in Cm. subst. reflexivity.
Qed.

Lemma SFleb_nonneg (x y : spec_float) :
  valid_binary x = true -> valid_binary y = true ->
  SFnonneg x = true -> SFnonneg y = true ->
  SFleb x y = true <-> SF2Q x <= SF2Q y.
Proof.
  intros Vx Vy Nx Ny. unfold SFleb. rewrite (SFcompare_nonneg x y Vx Vy Nx Ny).
  rewrite Qle_alt. destruct (SF2Q x ?= SF2Q y); split; congruence.
Qed.

Lemma SFabs_value (x : spec_float) :
  SFfinite x = true -> SFnonneg (SFabs x) = true /\ SF2Q (SFabs x) == Qabs (SF2Q x).
Proof.
  destruct x as [s|s| |s m e]; try discriminate; intros _; cbn [SFabs SFnonneg SF2Q].
  - split; reflexivity.
  - split; [reflexivity|].
    assert (P : 0 <= inject_Z (Zpos m) * pow2 e).
    { apply Qmult_le_0_compat; [apply Qlt_le_weak, inject_Z_pos|apply Qlt_le_weak, pow2_pos]. }
    destruct s.
    + assert (X : - inject_Z (Zpos m) * pow2 e == - (inject_Z (Zpos m) * pow2 e)) by ring.
      rewrite X, Qabs_opp, Qabs_pos by exact P. reflexivity.
    + rewrite Qabs_pos by exact P. reflexivity.
Qed.

Lemma valid_SFabs (x : spec_float) : valid_binary (SFabs x) = valid_binary x.
Proof. destruct x; reflexivity. Qed.

(** ** The operations of JavaScript numbers *)

Lemma F2Q_nonneg (x : float) : nonneg x -> 0 <= F2Q x.
Proof. apply SF2Q_nonneg. Qed.

Lemma mul_close (x y : float) :
  nonneg x -> nonneg y -> F2Q x * F2Q y < pow2 1023 ->
  nonneg (x * y)
  /\ Qabs (F2Q (x * y) - F2Q x * F2Q y) <= roundoff * (F2Q x * F2Q y) + eta
  /\ (representable (F2Q x * F2Q y) -> F2Q (x * y) == F2Q x * F2Q y).
Proof.
  intros Nx Ny Top. unfold nonneg, F2Q. rewrite mul_spec.
  apply SFmul_nonneg; auto using Prim2SF_valid.
Qed.

Lemma div_close (x y : float) :
  nonneg x -> nonneg y -> 0 < F2Q y -> F2Q x / F2Q y < pow2 1023 ->
  nonneg (x / y)
  /\ Qabs (F2Q (x / y) - F2Q x / F2Q y) <= roundoff * (F2Q x / F2Q y) + eta
  /\ (representable (F2Q x / F2Q y) -> F2Q (x / y) == F2Q x / F2Q y).
Proof.
  intros Nx Ny Py Top. unfold nonneg, F2Q in *. rewrite div_spec.
  destruct (Prim2SF y) as [sy|sy| |[] my ey] eqn:Ey; try discriminate.
  apply SFdiv_nonneg; assumption.
Qed.

Lemma sub_close (x y : float) :
  nonneg x -> nonneg y -> F2Q x < pow2 1023 -> F2Q y < pow2 1023 ->
  SFfinite (Prim2SF (x - y)) = true
  /\ Qabs (F2Q (x - y) - (F2Q x - F2Q y)) <= roundoff * Qabs (F2Q x - F2Q y) + eta.
Proof.
  intros Nx Ny Tx Ty. unfold F2Q. rewrite sub_spec. apply SFsub_nonneg; assumption.
Qed.

Lemma leb_le (x y : float) : nonneg x -> nonneg y -> (x <=? y)%float = true <-> F2Q x <= F2Q y.
Proof.
  intros Nx Ny. rewrite leb_spec. apply SFleb_nonneg; auto using Prim2SF_valid.
Qed.

Lemma abs_value (x : float) :
  SFfinite (Prim2SF x) = true -> nonneg (abs x) /\ F2Q (abs x) == Qabs (F2Q x).
Proof. intros Fx. unfold nonneg, F2Q. rewrite abs_spec. apply SFabs_value, Fx. Qed.

(** A positive number no larger than a finite one is finite. *)
Lemma positive_bounded (x b : float) :
  (0 <? x)%float = true -> (x <=? b)%float = true -> nonneg b ->
  nonneg x /\ 0 < F2Q x /\ F2Q x <= F2Q b.
Proof.
  intros Px Bx Nb.
  assert (Nx : nonneg x /\ 0 < F2Q x).
  { rewrite ltb_spec in Px. rewrite leb_spec in Bx. unfold nonneg, F2Q in *.
    change (Prim2SF 0) with (S754_zero false) in Px.
    destruct (Prim2SF x) as [sx|sx| |[] mx ex]; try discriminate.
    - destruct sx; try discriminate.
      destruct (Prim2SF b) as [sb|sb| |[] mb eb]; discriminate.
    - split; [reflexivity|]. cbn [SF2Q].
      apply Qmult_lt_0_compat; [apply inject_Z_pos|apply pow2_pos]. }
  destruct Nx as (Nx & Qx). split; [exact Nx|]. split; [exact Qx|].
  apply leb_le; assumption.
Qed.

(** Two numbers that are not negative and have the same positive value are
    the same number. *)
Lemma F2Q_inj (x y : float) :
  nonneg x -> nonneg y -> 0 < F2Q x -> F2Q x == F2Q y -> x = y.
Proof.
  intros Nx Ny Px E. apply Prim2SF_inj.
  apply SF2Q_inj; auto using Prim2SF_valid.
Qed.

Lemma representable_wd (v w : Q) : v == w -> representable v -> representable w.
Proof.
  intros E (M & X & PM & DM & PX & HV). exists M, X. rewrite <- E. auto.
Qed.

(** A number that is not negative is held exactly, and so is its double;
    its half is, from twice the smallest normal number on. *)
Lemma positive_finite (x : float) :
  nonneg x -> 0 < F2Q x ->
  exists m e, Prim2SF x = S754_finite false m e
    /\ (Zpos (digits2_pos m) <= 53 /\ -1074 <= e <= 971)%Z.
Proof.
  intros Nx Px. unfold nonneg, F2Q in *. pose proof (Prim2SF_valid x) as V.
  destruct (Prim2SF x) as [s|s| |[] m e]; try discriminate.
  exists m, e. split; [reflexivity|]. apply valid_finite in V. lia.
Qed.

Lemma F2Q_scaled_up (x : float) (k : Z) :
  nonneg x -> 0 < F2Q x -> (0 <= k)%Z -> representable (F2Q x * pow2 k).
Proof.
  intros Nx Px K. destruct (positive_finite x Nx Px) as (m & e & E & D & R).
  unfold F2Q in *. rewrite E in *. cbn [SF2Q] in *.
  exists (Zpos m), (e + k)%Z. split; [lia|]. split; [exact D|].
  split; [lia|rewrite pow2_plus; ring].
Qed.

Lemma F2Q_halved (x : float) :
  nonneg x -> pow2 (-1021) <= F2Q x -> representable (F2Q x * pow2 (-1)).
Proof.
  intros Nx Big.
  assert (Px : 0 < F2Q x) by (eapply Qlt_le_trans; [apply (pow2_pos (-1021))|exact Big]).
  destruct (positive_finite x Nx Px) as (m & e & E & D & R).
  unfold F2Q in *. rewrite E in *. cbn [SF2Q] in *.
  exists (Zpos m), (e + -1)%Z. split; [lia|]. split; [exact D|].
  split; [|rewrite pow2_plus; ring].
  pose proof (finite_bounds m e) as (_ & U).
  assert (X : pow2 (-1021) < pow2 (Zpos (digits2_pos m) + e))
    by (eapply Qle_lt_trans; eassumption).
  apply pow2_lt_inv in X. lia.
Qed.

Lemma roundoff_value : roundoff == 1 # 9007199254740992.
Proof. reflexivity. Qed.

Lemma eta_small : 0 < eta /\ eta <= 1 # 1267650600228229401496703205376.
Proof.
  split; [apply pow2_pos|].
  change (1 # 1267650600228229401496703205376) with (pow2 (-100)).
  apply pow2_le. lia.
Qed.

(** Amounts up to [2 ^ 1000] leave room for the factors of the
    conversions below the largest binary64 number. *)
Lemma ceiling_room :
  4194304 <= pow2 1000 /\ 1024 * pow2 1000 <= pow2 1023.
Proof.
  split.
  - change 4194304 with (pow2 22). apply pow2_le. lia.
  - change 1024 with (pow2 10). rewrite <- pow2_plus. apply pow2_le. lia.
Qed.

End Binary64Facts.

(** * Properties of the budget conversion *)

Module BudgetFacts.
Import App Budget.

(** One round trip on JavaScript numbers: base amount to [p] and back. *)
Definition roundTrip (amount : float) (p : period) : float :=
  convertBudgetToBase (convertBudgetFromBase amount p) p.

(** 12345678.9, the closest binary64 number. *)
Definition large_budget : float := 0x1.78c29dccccccdp+23%float.

(** C9 as stated fails on JavaScript numbers: a base amount of 12345678.9
    converted to the month basis and back comes out as 12345678.900000002,
    more than 1e-9 away. *)
Lemma budget_round_trip_exceeds_tolerance :
  PrimFloat.ltb 0 large_budget = true
  /\ roundTrip large_budget Month = 0x1.78c29dccccccep+23%float
  /\ within_tolerance (roundTrip large_budget Month) large_budget = false.
Proof. vm_compute. repeat split; reflexivity. Qed.

Section Rounding.
Import Binary64 Binary64Facts.
Local Open Scope Q_scope.

(** The other round trip: an amount of period [p] to the base and back. *)
Definition roundTripPeriod (amount : float) (p : period) : float :=
  convertBudgetFromBase (convertBudgetToBase amount p) p.

(** The roundings of one round trip: two operations each way for the month,
    one each way for the week and the year, none for the payweek. *)
Definition roundings (p : period) : Q :=
  match p with
  | Month => 4
  | Week | Year => 2
  | Payweek | OtherPeriod => 0
  end.

(** [2 ^ 1000]: the amounts up to which no conversion overflows. *)
Definition budget_ceiling : float := 0x1p+1000%float.

(** The amounts up to which the round trips of a period are shown to stay
    within the tolerance. *)
Definition budget_limit (p : period) : float :=
  match p with
  | Month => 2250000%float
  | Year => 4500000%float
  | Week | Payweek | OtherPeriod => budget_ceiling
  end.

(** [2 ^ -1021], twice the smallest normal number: from here on a half is
    exact. *)
Definition budget_floor : float := 0x1p-1021%float.

Lemma constant_value (c : float) (m : positive) (e : Z) (C : Q) :
  Prim2SF c = S754_finite false m e -> inject_Z (Zpos m) * pow2 e == C ->
  nonneg c /\ F2Q c == C.
Proof. intros E V. unfold nonneg, F2Q. rewrite E. split; [reflexivity|exact V]. Qed.

Lemma payweeksPerYear_value : nonneg payweeksPerYear /\ F2Q payweeksPerYear == 26.
Proof. apply (constant_value _ 7318349394477056 (-48)); reflexivity. Qed.

Lemma twelve_value : nonneg 12 /\ F2Q 12 == 12.
Proof. apply (constant_value _ 6755399441055744 (-49)); reflexivity. Qed.

Lemma two_value : nonneg 2 /\ F2Q 2 == 2.
Proof. apply (constant_value _ 4503599627370496 (-51)); reflexivity. Qed.

Lemma budget_ceiling_value : nonneg budget_ceiling /\ F2Q budget_ceiling == pow2 1000.
Proof.
  apply (constant_value _ 4503599627370496 948).
  - reflexivity.
  - change (inject_Z 4503599627370496) with (pow2 52). rewrite <- pow2_plus. reflexivity.
Qed.

Lemma budget_floor_value : nonneg budget_floor /\ F2Q budget_floor == pow2 (-1021).
Proof.
  apply (constant_value _ 4503599627370496 (-1073)).
  - reflexivity.
  - change (inject_Z 4503599627370496) with (pow2 52). rewrite <- pow2_plus. reflexivity.
Qed.

Lemma budget_limit_value (p : period) :
  nonneg (budget_limit p)
  /\ F2Q (budget_limit p)
     == match p with
        | Month => 2250000
        | Year => 4500000
        | Week | Payweek | OtherPeriod => pow2 1000
        end.
Proof.
  destruct p; try apply budget_ceiling_value.
  - apply (constant_value _ 4831838208000000 (-31)); reflexivity.
  - apply (constant_value _ 4831838208000000 (-30)); reflexivity.
Qed.

Lemma tolerance_value :
  nonneg 0x1.12e0be826d695p-30%float
  /\ 999999999 # 1000000000000000000 <= F2Q 0x1.12e0be826d695p-30%float.
Proof.
  destruct (constant_value 0x1.12e0be826d695p-30%float 4835703278458517 (-82)
              (4835703278458517 # 4835703278458516698824704)) as (N & E);
    [reflexivity|reflexivity|].
  split; [exact N|]. rewrite E. apply Qle_bool_iff. reflexivity.
Qed.

(** Multiplying by a constant, with the unit roundoff written out. *)
Lemma times_constant (x c : float) (C : Q) :
  nonneg c /\ F2Q c == C -> nonneg x ->
  F2Q x * C < pow2 1023 ->
  nonneg (x * c)
  /\ F2Q x * C * (1 - (1 # 9007199254740992)) - eta <= F2Q (x * c)
  /\ F2Q (x * c) <= F2Q x * C * (1 + (1 # 9007199254740992)) + eta.
Proof.
  intros (Nc & Ec) Nx Top.
  destruct (mul_close x c Nx Nc) as (N & B & _).
  - rewrite Ec. exact Top.
  - split; [exact N|]. rewrite Ec, roundoff_value in B. apply Qabs_Qle_condition in B. lra.
Qed.

(** Dividing by a constant. *)
Lemma over_constant (x c : float) (C Cinv : Q) :
  nonneg c /\ F2Q c == C -> 0 < C -> C * Cinv == 1 -> nonneg x ->
  F2Q x * Cinv < pow2 1023 ->
  nonneg (x / c)
  /\ F2Q x * Cinv * (1 - (1 # 9007199254740992)) - eta <= F2Q (x / c)
  /\ F2Q (x / c) <= F2Q x * Cinv * (1 + (1 # 9007199254740992)) + eta.
Proof.
  intros (Nc & Ec) Pc Inv Nx Top.
  assert (E : F2Q x / F2Q c == F2Q x * Cinv).
  { rewrite Ec. assert (X : Cinv == / C) by (field_simplify_eq; lra). rewrite X. reflexivity. }
  destruct (div_close x c Nx Nc) as (N & B & _).
  - rewrite Ec. exact Pc.
  - rewrite E. exact Top.
  - split; [exact N|]. rewrite E, roundoff_value in B. apply Qabs_Qle_condition in B. lra.
Qed.

(** Doubling is exact, and so is halving where the half is held. *)
Lemma doubled (x : float) :
  nonneg x -> 0 < F2Q x -> F2Q x * 2 < pow2 1023 ->
  nonneg (x * 2) /\ F2Q (x * 2) == F2Q x * 2.
Proof.
  intros Nx Px Top. destruct two_value as (N2 & E2).
  destruct (mul_close x 2 Nx N2) as (N & _ & X).
  - rewrite E2. exact Top.
  - split; [exact N|]. etransitivity; [apply X|rewrite E2; reflexivity].
    apply (representable_wd (F2Q x * pow2 1)); [rewrite E2; reflexivity|].
    apply (F2Q_scaled_up x 1 Nx Px). lia.
Qed.

Lemma halved (x : float) :
  nonneg x -> representable (F2Q x * pow2 (-1)) -> F2Q x * (1 # 2) < pow2 1023 ->
  nonneg (x / 2) /\ F2Q (x / 2) == F2Q x * (1 # 2).
Proof.
  intros Nx Rx Top. destruct two_value as (N2 & E2).
  assert (E : F2Q x / F2Q 2 == F2Q x * (1 # 2)) by (rewrite E2; reflexivity).
  destruct (div_close x 2 Nx N2) as (N & _ & X).
  - rewrite E2. reflexivity.
  - rewrite E. exact Top.
  - split; [exact N|]. etransitivity; [apply X|exact E].
    apply (representable_wd (F2Q x * pow2 (-1))); [|exact Rx].
    rewrite E. reflexivity.
Qed.

(** The week round trips are exact. *)
Lemma roundTripPeriod_week (amount : float) :
  nonneg amount -> 0 < F2Q amount -> F2Q amount <= pow2 1000 ->
  roundTripPeriod amount Week = amount.
Proof.
  intros Na Pa Ba. destruct ceiling_room as (R0 & R1).
  unfold roundTripPeriod. cbn [convertBudgetFromBase convertBudgetToBase].
  destruct (doubled amount Na Pa ltac:(lra)) as (N1 & E1).
  destruct (halved (amount * 2) N1) as (N2 & E2).
  - apply (representable_wd (F2Q amount * pow2 0)); [|apply F2Q_scaled_up; [assumption..|lia]].
    rewrite E1. change (pow2 0) with 1. change (pow2 (-1)) with (1 # 2). ring.
  - rewrite E1. lra.
  - symmetry. apply F2Q_inj; try assumption. rewrite E2, E1. ring.
Qed.

Lemma roundTrip_week (amount : float) :
  nonneg amount -> pow2 (-1021) <= F2Q amount -> F2Q amount <= pow2 1000 ->
  roundTrip amount Week = amount.
Proof.
  intros Na Fa Ba. destruct ceiling_room as (R0 & R1).
  assert (Pa : 0 < F2Q amount)
    by (eapply Qlt_le_trans; [apply (pow2_pos (-1021))|exact Fa]).
  unfold roundTrip. cbn [convertBudgetFromBase convertBudgetToBase].
  destruct (halved amount Na (F2Q_halved amount Na Fa) ltac:(lra)) as (N1 & E1).
  destruct (doubled (amount / 2) N1) as (N2 & E2).
  - rewrite E1. lra.
  - rewrite E1. lra.
  - symmetry. apply F2Q_inj; try assumption. rewrite E2, E1. ring.
Qed.

(** The test of the tolerance on JavaScript numbers follows from the
    distance of the two numbers. *)
Lemma within_tolerance_intro (x y : float) :
  nonneg x -> nonneg y -> F2Q x < pow2 1023 -> F2Q y < pow2 1023 ->
  Qabs (F2Q x - F2Q y) <= 9999 # 10000000000000 ->
  within_tolerance x y = true.
Proof.
  intros Nx Ny Tx Ty Close. unfold within_tolerance.
  destruct (sub_close x y Nx Ny Tx Ty) as (Fin & B).
  destruct (abs_value (x - y) Fin) as (Na & Va).
  destruct tolerance_value as (Nt & Vt).
  apply (leb_le _ _ Na Nt). rewrite Va.
  pose proof (Qabs_triangle (F2Q (x - y) - (F2Q x - F2Q y)) (F2Q x - F2Q y)) as T.
  assert (X : F2Q (x - y) - (F2Q x - F2Q y) + (F2Q x - F2Q y) == F2Q (x - y)) by ring.
  rewrite X in T. rewrite roundoff_value in B.
  pose proof (Qabs_nonneg (F2Q x - F2Q y)).
  destruct eta_small as (E0 & E1).
  set (D := Qabs (F2Q x - F2Q y)) in *.
  set (S := Qabs (F2Q (x - y) - (F2Q x - F2Q y))) in *.
  set (t := F2Q 0x1.12e0be826d695p-30) in *.
  set (s := Qabs (F2Q (x - y))) in *. lra.
Qed.

Ltac round_step H :=
  let N := fresh "N" in let L := fresh "L" in let U := fresh "U" in
  destruct H as (N & L & U); [try assumption; try lra ..|].

Ltac round_close := split; [assumption|apply Qabs_Qle_condition; split; lra].

(** Each conversion computes its formula up to two roundings. *)
Lemma convertBudgetFromBase_close (amount : float) (p : period) :
  nonneg amount -> 0 < F2Q amount -> F2Q amount <= pow2 1000 ->
  let exact := convertBudgetFromBase_exact (F2Q amount) p in
  nonneg (convertBudgetFromBase amount p)
  /\ Qabs (F2Q (convertBudgetFromBase amount p) - exact)
     <= (2001 # 1000) * roundoff * exact + 2 * eta.
Proof.
  intros Na Pa Ba exact. subst exact.
  destruct eta_small as (E0 & E1). destruct ceiling_room as (R0 & R1).
  rewrite roundoff_value.
  destruct p; cbn [convertBudgetFromBase convertBudgetFromBase_exact]; cbv zeta;
    unfold payweeksPerYear_exact.
  - round_step (over_constant amount 2 2 (1 # 2) two_value ltac:(lra) ltac:(reflexivity) Na).
    assert (X : F2Q amount / 2 == F2Q amount * (1 # 2)) by (field). rewrite X. round_close.
  - round_close.
  - round_step (times_constant amount payweeksPerYear 26 payweeksPerYear_value Na).
    round_step (over_constant (amount * payweeksPerYear) 12 12 (1 # 12) twelve_value ltac:(lra)
            ltac:(reflexivity) N).
    assert (X : F2Q amount * 26 / 12 == F2Q amount * (13 # 6)) by (field). rewrite X. round_close.
  - round_step (times_constant amount payweeksPerYear 26 payweeksPerYear_value Na). round_close.
  - round_close.
Qed.

Lemma convertBudgetToBase_close (amount : float) (p : period) :
  nonneg amount -> 0 < F2Q amount -> F2Q amount <= pow2 1000 ->
  let exact := convertBudgetToBase_exact (F2Q amount) p in
  nonneg (convertBudgetToBase amount p)
  /\ Qabs (F2Q (convertBudgetToBase amount p) - exact)
     <= (2001 # 1000) * roundoff * exact + 2 * eta.
Proof.
  intros Na Pa Ba exact. subst exact.
  destruct eta_small as (E0 & E1). destruct ceiling_room as (R0 & R1).
  rewrite roundoff_value.
  destruct p; cbn [convertBudgetToBase convertBudgetToBase_exact]; cbv zeta;
    unfold payweeksPerYear_exact.
  - round_step (times_constant amount 2 2 two_value Na). round_close.
  - round_close.
  - round_step (times_constant amount 12 12 twelve_value Na).
    round_step (over_constant (amount * 12) payweeksPerYear 26 (1 # 26) payweeksPerYear_value ltac:(lra)
            ltac:(reflexivity) N).
    assert (X : F2Q amount * 12 / 26 == F2Q amount * (6 # 13)) by (field). rewrite X. round_close.
  - round_step (over_constant amount payweeksPerYear 26 (1 # 26) payweeksPerYear_value ltac:(lra)
            ltac:(reflexivity) Na).
    assert (X : F2Q amount / 26 == F2Q amount * (1 # 26)) by (field). rewrite X. round_close.
  - round_close.
Qed.

(** The round trip from the base and back, rounding by rounding. *)
Lemma roundTrip_relative (amount : float) (p : period) :
  nonneg amount -> 0 < F2Q amount -> F2Q amount <= pow2 1000 ->
  nonneg (roundTrip amount p)
  /\ Qabs (F2Q (roundTrip amount p) - F2Q amount)
     <= (roundings p + (1 # 1000)) * roundoff * F2Q amount + 32 * eta.
Proof.
  intros Na Pa Ba. destruct eta_small as (E0 & E1). destruct ceiling_room as (R0 & R1).
  rewrite roundoff_value. unfold roundTrip.
  destruct p; cbn [convertBudgetFromBase convertBudgetToBase roundings].
  - round_step (over_constant amount 2 2 (1 # 2) two_value ltac:(lra) ltac:(reflexivity) Na).
    round_step (times_constant (amount / 2) 2 2 two_value N). round_close.
  - round_close.
  - round_step (times_constant amount payweeksPerYear 26 payweeksPerYear_value Na).
    round_step (over_constant (amount * payweeksPerYear) 12 12 (1 # 12) twelve_value ltac:(lra)
            ltac:(reflexivity) N).
    round_step (times_constant (amount * payweeksPerYear / 12) 12 12 twelve_value N0).
    round_step (over_constant (amount * payweeksPerYear / 12 * 12) payweeksPerYear 26 (1 # 26)
            payweeksPerYear_value ltac:(lra) ltac:(reflexivity) N1).
    round_close.
  - round_step (times_constant amount payweeksPerYear 26 payweeksPerYear_value Na).
    round_step (over_constant (amount * payweeksPerYear) payweeksPerYear 26 (1 # 26)
            payweeksPerYear_value ltac:(lra) ltac:(reflexivity) N).
    round_close.
  - round_close.
Qed.

Lemma roundTripPeriod_relative (amount : float) (p : period) :
  nonneg amount -> 0 < F2Q amount -> F2Q amount <= pow2 1000 ->
  nonneg (roundTripPeriod amount p)
  /\ Qabs (F2Q (roundTripPeriod amount p) - F2Q amount)
     <= (roundings p + (1 # 1000)) * roundoff * F2Q amount + 32 * eta.
Proof.
  intros Na Pa Ba. destruct eta_small as (E0 & E1). destruct ceiling_room as (R0 & R1).
  rewrite roundoff_value. unfold roundTripPeriod.
  destruct p; cbn [convertBudgetFromBase convertBudgetToBase roundings].
  - round_step (times_constant amount 2 2 two_value Na).
    round_step (over_constant (amount * 2) 2 2 (1 # 2) two_value ltac:(lra) ltac:(reflexivity) N). round_close.
  - round_close.
  - round_step (times_constant amount 12 12 twelve_value Na).
    round_step (over_constant (amount * 12) payweeksPerYear 26 (1 # 26) payweeksPerYear_value ltac:(lra)
            ltac:(reflexivity) N).
    round_step (times_constant (amount * 12 / payweeksPerYear) payweeksPerYear 26 payweeksPerYear_value N0).
    round_step (over_constant (amount * 12 / payweeksPerYear * payweeksPerYear) 12 12 (1 # 12) twelve_value
            ltac:(lra) ltac:(reflexivity) N1).
    round_close.
  - round_step (over_constant amount payweeksPerYear 26 (1 # 26) payweeksPerYear_value ltac:(lra)
            ltac:(reflexivity) Na).
    round_step (times_constant (amount / payweeksPerYear) payweeksPerYear 26 payweeksPerYear_value N). round_close.
  - round_close.
Qed.

(** A number that is its own round trip passes the test. *)
Lemma same_within_tolerance (amount : float) :
  nonneg amount -> F2Q amount <= pow2 1000 -> within_tolerance amount amount = true.
Proof.
  intros Na Ba. destruct ceiling_room as (R0 & R1).
  pose proof (pow2_pos 1000).
  apply within_tolerance_intro; try assumption; try lra.
  assert (X : F2Q amount - F2Q amount == 0) by ring. rewrite X. discriminate.
Qed.

(** The distance that the roundings allow is within the tolerance, for
    amounts up to the limit of the period. *)
Lemma close_within_limit (x amount : float) (p : period) :
  p = Month \/ p = Year ->
  nonneg amount -> 0 < F2Q amount -> F2Q amount <= F2Q (budget_limit p) -> nonneg x ->
  Qabs (F2Q x - F2Q amount) <= (roundings p + (1 # 1000)) * roundoff * F2Q amount + 32 * eta ->
  Qabs (F2Q x - F2Q amount) <= 9999 # 10000000000000
  /\ within_tolerance x amount = true.
Proof.
  intros Hp Na Pa Ba Nx Close.
  destruct eta_small as (E0 & E1). destruct ceiling_room as (R0 & R1).
  rewrite roundoff_value in Close. rewrite (proj2 (budget_limit_value p)) in Ba.
  assert (C2 : Qabs (F2Q x - F2Q amount) <= 9999 # 10000000000000)
    by (destruct Hp; subst p; cbn [roundings] in Close; lra).
  split; [exact C2|].
  assert (F2Q amount <= 4500000) by (destruct Hp; subst p; lra).
  apply within_tolerance_intro; try assumption; [|lra].
  apply Qabs_Qle_condition in C2. lra.
Qed.

(** Below [2 ^ -1021] every distance the roundings allow is tiny. *)
Lemma close_when_tiny (x amount : float) (p : period) :
  nonneg amount -> 0 < F2Q amount -> F2Q amount <= pow2 (-1021) -> nonneg x ->
  Qabs (F2Q x - F2Q amount) <= (roundings p + (1 # 1000)) * roundoff * F2Q amount + 32 * eta ->
  Qabs (F2Q x - F2Q amount) <= 9999 # 10000000000000
  /\ within_tolerance x amount = true.
Proof.
  intros Na Pa Ba Nx Close.
  destruct eta_small as (E0 & E1). destruct ceiling_room as (R0 & R1).
  assert (T : pow2 (-1021) <= 1 # 1267650600228229401496703205376).
  { change (1 # 1267650600228229401496703205376) with (pow2 (-100)). apply pow2_le. lia. }
  rewrite roundoff_value in Close.
  assert (C2 : Qabs (F2Q x - F2Q amount) <= 9999 # 10000000000000)
    by (destruct p; cbn [roundings] in Close; lra).
  split; [exact C2|].
  apply within_tolerance_intro; try assumption; [|lra].
  apply Qabs_Qle_condition in C2. lra.
Qed.

Lemma exact_trip (x amount : float) :
  x = amount -> nonneg amount -> F2Q amount <= pow2 1000 ->
  within_tolerance x amount = true
  /\ Qabs (F2Q x - F2Q amount) <= 1 # 1000000000.
Proof.
  intros -> Na Ba. split; [apply same_within_tolerance; assumption|].
  assert (X : F2Q amount - F2Q amount == 0) by ring. rewrite X. discriminate.
Qed.

Lemma close_trip (x amount : float) :
  Qabs (F2Q x - F2Q amount) <= 9999 # 10000000000000 /\ within_tolerance x amount = true ->
  within_tolerance x amount = true
  /\ Qabs (F2Q x - F2Q amount) <= 1 # 1000000000.
Proof. intros (C & W). split; [exact W|lra]. Qed.

(** C9, amended: on JavaScript numbers the two conversions are inverse of
    each other up to rounding, and exactly so for the payweek and the week.
    For every positive amount up to [2 ^ 1000] (so that no step overflows)
    and every period, converting to the period and back, in either order,
    gives a number whose distance to the amount is at most the roundings of
    the trip (2 for the week and the year, 4 for the month) and a
    thousandth, times the unit roundoff [2 ^ -53], of the amount, plus 32
    times [2 ^ -1075].  This is within 1e-9, as the distance of the two
    numbers and as the test [|x - y| <= 1e-9] computed on JavaScript
    numbers, for amounts up to 2250000 for the month and up to 4500000 for
    the year, and for every such amount for the week and the payweek.  The
    payweek trips are the identity; the week trips give the amount itself,
    the one from the base for amounts from [2 ^ -1021] on.  Each conversion
    computes its formula over exact arithmetic up to 2.001 unit roundoffs,
    and the formulas over exact arithmetic are inverse of each other for
    every amount. *)
Theorem budget_conversions_inverse (amount : float) (p : period) :
  (0 <? amount)%float = true ->
  (amount <=? budget_ceiling)%float = true ->
  (Qabs (F2Q (roundTrip amount p) - F2Q amount)
     <= (roundings p + (1 # 1000)) * roundoff * F2Q amount + 32 * eta
   /\ Qabs (F2Q (roundTripPeriod amount p) - F2Q amount)
     <= (roundings p + (1 # 1000)) * roundoff * F2Q amount + 32 * eta)
  /\ ((amount <=? budget_limit p)%float = true ->
      (within_tolerance (roundTrip amount p) amount = true
       /\ Qabs (F2Q (roundTrip amount p) - F2Q amount) <= 1 # 1000000000)
      /\ (within_tolerance (roundTripPeriod amount p) amount = true
          /\ Qabs (F2Q (roundTripPeriod amount p) - F2Q amount) <= 1 # 1000000000))
  /\ (roundTrip amount Payweek = amount
      /\ roundTripPeriod amount Payweek = amount
      /\ roundTripPeriod amount Week = amount
      /\ ((budget_floor <=? amount)%float = true -> roundTrip amount Week = amount))
  /\ (Qabs (F2Q (convertBudgetFromBase amount p)
            - convertBudgetFromBase_exact (F2Q amount) p)
        <= (2001 # 1000) * roundoff * convertBudgetFromBase_exact (F2Q amount) p + 2 * eta
      /\ Qabs (F2Q (convertBudgetToBase amount p)
               - convertBudgetToBase_exact (F2Q amount) p)
        <= (2001 # 1000) * roundoff * convertBudgetToBase_exact (F2Q amount) p + 2 * eta)
  /\ (forall q : Q,
        convertBudgetToBase_exact (convertBudgetFromBase_exact q p) p == q
        /\ convertBudgetFromBase_exact (convertBudgetToBase_exact q p) p == q).
Proof.
  intros Pos Ceil.
  destruct (positive_bounded amount budget_ceiling Pos Ceil (proj1 budget_ceiling_value))
    as (Na & Pa & Ba).
  rewrite (proj2 budget_ceiling_value) in Ba.
  destruct (roundTrip_relative amount p Na Pa Ba) as (N1 & R1).
  destruct (roundTripPeriod_relative amount p Na Pa Ba) as (N2 & R2).
  assert (Wk : (budget_floor <=? amount)%float = true -> roundTrip amount Week = amount).
  { intros Fl. apply roundTrip_week; try assumption.
    rewrite <- (proj2 budget_floor_value).
    apply leb_le; [apply budget_floor_value|exact Na|exact Fl]. }
  split; [split; assumption|]. split; [|split; [|split]].
  - intros Lim.
    destruct (positive_bounded amount (budget_limit p) Pos Lim (proj1 (budget_limit_value p)))
      as (_ & _ & Bl).
    destruct p.
    + (* week *)
      split; [|apply exact_trip; try assumption; apply roundTripPeriod_week; assumption].
      destruct (Qlt_le_dec (F2Q amount) (pow2 (-1021))) as [Tiny|Big].
      * apply close_trip. apply (close_when_tiny _ amount Week); try assumption.
        apply Qlt_le_weak, Tiny.
      * apply exact_trip; try assumption. apply roundTrip_week; assumption.
    + split; apply exact_trip; try assumption; reflexivity.
    + split; apply close_trip; apply (close_within_limit _ amount Month); auto.
    + split; apply close_trip; apply (close_within_limit _ amount Year); auto.
    + split; apply exact_trip; try assumption; reflexivity.
  - split; [reflexivity|]. split; [reflexivity|].
    split; [apply roundTripPeriod_week; assumption|exact Wk].
  - split.
    + apply (convertBudgetFromBase_close amount p Na Pa Ba).
    + apply (convertBudgetToBase_close amount p Na Pa Ba).
  - intros q.
    destruct p; unfold convertBudgetToBase_exact, convertBudgetFromBase_exact,
      payweeksPerYear_exact; split; try reflexivity; field.
Qed.

Lemma budget_conversions_inverse_witness :
  within_tolerance (roundTrip 1234.5 Month) 1234.5 = true
  /\ within_tolerance (roundTripPeriod 1234.5 Month) 1234.5 = true
  /\ roundTrip 1234.5 Week = 1234.5%float.
Proof.
  pose proof (budget_conversions_inverse 1234.5 Month eq_refl eq_refl) as (_ & H & E & _).
  destruct (H eq_refl) as ((A & _) & (B & _)).
  destruct E as (_ & _ & _ & W).
  split; [exact A|]. split; [exact B|exact (W eq_refl)].
Defined.

End Rounding.

End BudgetFacts.

(** * Properties of the matcher: runs of a class and literal text *)

Module RegexRunFacts.
Import JsString Regex.

Fixpoint takeWhile (p : ascii -> bool) (l : chars) : chars :=
  match l with
  | [] => []
  | c :: l' => if p c then c :: takeWhile p l' else []
  end.

Lemma takeWhile_dropWhile p l : takeWhile p l ++ dropWhile p l = l.
Proof.
  induction l as [|c l IH]; simpl; [reflexivity|].
  destruct (p c); simpl; [f_equal; exact IH|reflexivity].
Qed.

Lemma takeWhile_all p l : forallb p (takeWhile p l) = true.
Proof.
  induction l as [|c l IH]; simpl; [reflexivity|].
  destruct (p c) eqn:E; simpl; [rewrite E; exact IH|reflexivity].
Qed.

Lemma dropWhile_head p l :
  match dropWhile p l with [] => True | c :: _ => p c = false end.
Proof.
  induction l as [|c l IH]; simpl; [exact I|].
  destruct (p c) eqn:E; [exact IH|exact E].
Qed.

Lemma firstn_length_app {A : Type} (a b : list A) : firstn (List.length a) (a ++ b) = a.
Proof. induction a as [|x a IH]; simpl; [destruct b; reflexivity|f_equal; exact IH]. Qed.

Lemma skipn_S_length_app {A : Type} (a : list A) y b :
  skipn (S (List.length a)) (a ++ y :: b) = b.
Proof. induction a as [|x a IH]; simpl; [reflexivity|exact IH]. Qed.

Lemma takeWhile_app_all p (l1 l2 : chars) :
  forallb p l1 = true -> takeWhile p (l1 ++ l2) = l1 ++ takeWhile p l2.
Proof.
  induction l1 as [|c l1 IH]; simpl; [reflexivity|].
  intros H. apply andb_true_iff in H. destruct H as (Hc & H).
  rewrite Hc, IH by exact H. reflexivity.
Qed.

Lemma dropWhile_app_all p (l1 l2 : chars) :
  forallb p l1 = true -> dropWhile p (l1 ++ l2) = dropWhile p l2.
Proof.
  induction l1 as [|c l1 IH]; simpl; [reflexivity|].
  intros H. apply andb_true_iff in H. destruct H as (Hc & H).
  rewrite Hc. apply IH, H.
Qed.

Lemma takeWhile_stop p (l : chars) :
  match l with [] => True | c :: _ => p c = false end -> takeWhile p l = [].
Proof. destruct l as [|c l]; simpl; [reflexivity|intros ->; reflexivity]. Qed.

Lemma dropWhile_stop p (l : chars) :
  match l with [] => True | c :: _ => p c = false end -> dropWhile p l = l.
Proof. destruct l as [|c l]; simpl; [reflexivity|intros ->; reflexivity]. Qed.

Lemma takeWhile_whole p (l : chars) : forallb p l = true -> takeWhile p l = l.
Proof.
  intros H. rewrite <- (app_nil_r l) at 1. rewrite takeWhile_app_all by exact H.
  simpl. apply app_nil_r.
Qed.

Section ClassRuns.
Variable ic : bool.
Variable p : ascii -> bool.

Lemma exec_star_cls_cons_greedy (R : Type) x s pos cap
    (k : nat -> chars -> capture -> option R) :
  exec R ic (Star true (Cls p)) pos (x :: s) cap k =
  if p x then
    match exec R ic (Star true (Cls p)) (S pos) s cap k with
    | Some res => Some res
    | None => k pos (x :: s) cap
    end
  else k pos (x :: s) cap.
Proof.
  simpl. destruct (p x); [|reflexivity].
  replace (List.length s <? S (List.length s))%nat with true
    by (symmetry; apply Nat.ltb_lt; lia).
  reflexivity.
Qed.

(** A greedy quantifier over a class takes the whole run of class
    characters when the rest of the pattern accepts that. *)
Lemma exec_star_cls_longest (R : Type) (s : chars) : forall pos cap
    (k : nat -> chars -> capture -> option R) res,
  k (pos + List.length (takeWhile p s))%nat (dropWhile p s) cap = Some res ->
  exec R ic (Star true (Cls p)) pos s cap k = Some res.
Proof.
  induction s as [|x s IH]; intros pos cap k res Hk.
  - simpl in *. rewrite Nat.add_0_r in Hk. exact Hk.
  - rewrite exec_star_cls_cons_greedy. simpl in Hk.
    destruct (p x).
    + rewrite (IH (S pos) cap k res); [reflexivity|].
      simpl in Hk. rewrite <- Hk. f_equal. lia.
    + simpl in Hk. rewrite Nat.add_0_r in Hk. exact Hk.
Qed.

Lemma exec_seq (R : Type) r1 r2 pos s cap (k : nat -> chars -> capture -> option R) :
  exec R ic (Seq r1 r2) pos s cap k
  = exec R ic r1 pos s cap (fun pos1 s1 cap1 => exec R ic r2 pos1 s1 cap1 k).
Proof. reflexivity. Qed.

Lemma exec_cls_cons (R : Type) x s pos cap (k : nat -> chars -> capture -> option R) :
  exec R ic (Cls p) pos (x :: s) cap k = if p x then k (S pos) s cap else None.
Proof. reflexivity. Qed.

(** Where [\c+] matches, and how far: at the first class character, over
    the whole run that starts there. *)
Lemma match_at_plus_cls pos (s : chars) :
  match_at ic (Plus true (Cls p)) pos s =
  match s with
  | x :: s' =>
      if p x then Some (pos, (pos + List.length (takeWhile p s))%nat, None) else None
  | [] => None
  end.
Proof.
  unfold match_at, Plus. destruct s as [|x s']; [reflexivity|].
  rewrite exec_seq, exec_cls_cons. destruct (p x) eqn:E; [|reflexivity].
  erewrite exec_star_cls_longest; [|reflexivity].
  simpl. rewrite E. simpl. do 3 f_equal. lia.
Qed.

Lemma search_from_plus_cls (s : chars) : forall pos,
  search_from ic (Plus true (Cls p)) pos s =
  match dropWhile (fun c => negb (p c)) s with
  | [] => None
  | rest =>
      let b := (pos + List.length (takeWhile (fun c => negb (p c)) s))%nat in
      Some (b, (b + List.length (takeWhile p rest))%nat, None)
  end.
Proof.
  induction s as [|x s IH]; intros pos.
  - reflexivity.
  - cbn [search_from]. rewrite match_at_plus_cls. simpl.
    destruct (p x) eqn:E; simpl.
    + rewrite E. rewrite Nat.add_0_r. reflexivity.
    + rewrite IH. destruct (dropWhile _ s); [reflexivity|].
      simpl. do 3 f_equal; lia.
Qed.

(** A global replacement of single class characters by nothing removes
    exactly the class characters. *)
Lemma match_at_cls pos (s : chars) :
  match_at ic (Cls p) pos s =
  match s with
  | x :: _ => if p x then Some (pos, S pos, None) else None
  | [] => None
  end.
Proof. destruct s as [|x s]; [reflexivity|]. unfold match_at. simpl. destruct (p x); reflexivity. Qed.

Lemma search_from_cls (s : chars) : forall pos,
  search_from ic (Cls p) pos s =
  match dropWhile (fun c => negb (p c)) s with
  | [] => None
  | _ :: _ =>
      let b := (pos + List.length (takeWhile (fun c => negb (p c)) s))%nat in
      Some (b, S b, None)
  end.
Proof.
  induction s as [|x s IH]; intros pos.
  - reflexivity.
  - cbn [search_from]. rewrite match_at_cls. simpl.
    destruct (p x) eqn:E; simpl.
    + rewrite Nat.add_0_r. reflexivity.
    + rewrite IH. destruct (dropWhile _ s); [reflexivity|].
      simpl. do 3 f_equal; lia.
Qed.

Lemma filter_takeWhile_neg (s : chars) :
  filter (fun c => negb (p c)) (takeWhile (fun c => negb (p c)) s)
  = takeWhile (fun c => negb (p c)) s.
Proof.
  induction s as [|x s IH]; simpl; [reflexivity|].
  destruct (negb (p x)) eqn:E; simpl; [rewrite E, IH|]; reflexivity.
Qed.

Lemma replace_all_cls_filter (fuel : nat) : forall pos (s : chars),
  (List.length s < fuel)%nat ->
  replace_all_from fuel ic (Cls p) pos s [] = filter (fun c => negb (p c)) s.
Proof.
  induction fuel as [|fuel IH]; intros pos s Hlen; [lia|].
  cbn [replace_all_from]. rewrite search_from_cls.
  pose proof (takeWhile_dropWhile (fun c => negb (p c)) s) as Split.
  pose proof (dropWhile_head (fun c => negb (p c)) s) as Head.
  destruct (dropWhile (fun c => negb (p c)) s) as [|y rest] eqn:D.
  - rewrite app_nil_r in Split. rewrite <- Split at 2.
    rewrite filter_takeWhile_neg. symmetry. exact Split.
  - set (pre := takeWhile (fun c => negb (p c)) s) in *.
    cbv beta iota zeta.
    replace (pos + List.length pre - pos)%nat with (List.length pre) by lia.
    replace (S (pos + List.length pre) - pos)%nat with (S (List.length pre)) by lia.
    replace (S (pos + List.length pre) =? pos + List.length pre)%nat with false
      by (symmetry; apply Nat.eqb_neq; lia).
    rewrite <- Split.
    rewrite firstn_length_app, skipn_S_length_app.
    rewrite filter_app. unfold pre. rewrite filter_takeWhile_neg. fold pre.
    simpl. apply negb_false_iff in Head. rewrite Head. simpl.
    f_equal. apply IH.
    apply (f_equal (@List.length ascii)) in Split.
    rewrite length_app in Split. simpl in Split. lia.
Qed.

(** What a greedy quantifier over a class can be followed by: the rest of
    the pattern is tried after every beginning of the run. *)
Lemma exec_star_cls_accepts (R : Type) (s : chars) : forall pos cap
    (k : nat -> chars -> capture -> option R),
  exec R ic (Star true (Cls p)) pos s cap k <> None
  <-> exists pre post, s = pre ++ post /\ forallb p pre = true
        /\ k (pos + List.length pre)%nat post cap <> None.
Proof.
  induction s as [|x s IH]; intros pos cap k.
  - simpl. split.
    + intros H. exists [], []. simpl. rewrite Nat.add_0_r. auto.
    + intros (pre & post & E & _ & H). symmetry in E. apply app_eq_nil in E.
      destruct E; subst. simpl in H. rewrite Nat.add_0_r in H. exact H.
  - rewrite exec_star_cls_cons_greedy. split.
    + intros H. destruct (p x) eqn:Px.
      * destruct (exec R ic (Star true (Cls p)) (S pos) s cap k) eqn:E.
        -- assert (N : exec R ic (Star true (Cls p)) (S pos) s cap k <> None)
             by (rewrite E; discriminate).
           apply IH in N. destruct N as (pre & post & -> & A & K).
           exists (x :: pre), post. simpl. rewrite Px, A.
           replace (pos + S (List.length pre))%nat with (S pos + List.length pre)%nat by lia.
           auto.
        -- exists [], (x :: s). simpl. rewrite Nat.add_0_r. auto.
      * exists [], (x :: s). simpl. rewrite Nat.add_0_r. auto.
    + intros (pre & post & E & A & K). destruct pre as [|y pre].
      * simpl in E, K. subst post. rewrite Nat.add_0_r in K.
        destruct (p x); [|exact K].
        destruct (exec R ic (Star true (Cls p)) (S pos) s cap k); [discriminate|exact K].
      * simpl in E, A, K. inversion E; subst y s.
        apply andb_true_iff in A. destruct A as (Px & A). rewrite Px.
        assert (N : exec R ic (Star true (Cls p)) (S pos) (pre ++ post) cap k <> None).
        { apply IH. exists pre, post. split; [reflexivity|]. split; [exact A|].
          replace (S pos + List.length pre)%nat with (pos + S (List.length pre))%nat by lia.
          exact K. }
        destruct (exec R ic (Star true (Cls p)) (S pos) (pre ++ post) cap k);
          [discriminate|contradiction].
Qed.

Lemma exec_plus_cls_accepts (R : Type) (s : chars) pos cap
    (k : nat -> chars -> capture -> option R) :
  exec R ic (Plus true (Cls p)) pos s cap k <> None
  <-> exists pre post, s = pre ++ post /\ pre <> [] /\ forallb p pre = true
        /\ k (pos + List.length pre)%nat post cap <> None.
Proof.
  unfold Plus. rewrite exec_seq. destruct s as [|x s].
  - simpl. split; [congruence|].
    intros (pre & post & E & N & _). symmetry in E. apply app_eq_nil in E.
    destruct E. contradiction.
  - rewrite exec_cls_cons. split.
    + destruct (p x) eqn:Px; [|congruence]. intros H.
      apply exec_star_cls_accepts in H. destruct H as (pre & post & -> & A & K).
      exists (x :: pre), post. simpl. rewrite Px, A.
      replace (pos + S (List.length pre))%nat with (S pos + List.length pre)%nat by lia.
      repeat split; [discriminate|exact K].
    + intros (pre & post & E & N & A & K). destruct pre as [|y pre]; [contradiction|].
      simpl in E, A, K. inversion E; subst y s.
      apply andb_true_iff in A. destruct A as (Px & A). rewrite Px.
      apply exec_star_cls_accepts. exists pre, post. split; [reflexivity|]. split; [exact A|].
      replace (S pos + List.length pre)%nat with (pos + S (List.length pre))%nat by lia.
      exact K.
Qed.

End ClassRuns.

(** ** Literal text *)

Lemma exec_lit_chars (R : Type) (l : chars) : forall pos rest cap
    (k : nat -> chars -> capture -> option R),
  exec R false (lit_chars l) pos (l ++ rest) cap k = k (pos + List.length l)%nat rest cap.
Proof.
  induction l as [|c l IH]; intros pos rest cap k.
  - simpl. rewrite Nat.add_0_r. reflexivity.
  - destruct l as [|d l].
    + simpl. unfold char_matches. rewrite Ascii.eqb_refl. f_equal. lia.
    + change (lit_chars (c :: d :: l)) with (Seq (Chr c) (lit_chars (d :: l))).
      cbn [exec app]. unfold char_matches. rewrite Ascii.eqb_refl.
      change (d :: l ++ rest) with ((d :: l) ++ rest). rewrite IH.
      f_equal. simpl. lia.
Qed.

Lemma exec_lit_chars_sound (R : Type) (l : chars) : forall pos s cap
    (k : nat -> chars -> capture -> option R),
  exec R false (lit_chars l) pos s cap k <> None ->
  exists rest, s = l ++ rest /\ k (pos + List.length l)%nat rest cap <> None.
Proof.
  induction l as [|c l IH]; intros pos s cap k H.
  - exists s. simpl in *. rewrite Nat.add_0_r. auto.
  - destruct l as [|d l].
    + simpl in H. destruct s as [|x s]; [congruence|].
      unfold char_matches in H. destruct (Ascii.eqb_spec c x) as [<-|]; [|congruence].
      exists s. split; [reflexivity|]. simpl.
      replace (pos + 1)%nat with (S pos) by lia. exact H.
    + change (lit_chars (c :: d :: l)) with (Seq (Chr c) (lit_chars (d :: l))) in H.
      cbn [exec] in H. destruct s as [|x s]; [congruence|].
      unfold char_matches in H. destruct (Ascii.eqb_spec c x) as [<-|]; [|congruence].
      apply IH in H. destruct H as (rest & -> & K). exists rest. split; [reflexivity|].
      replace (pos + List.length (c :: d :: l))%nat
        with (S pos + List.length (d :: l))%nat by (simpl; lia).
      exact K.
Qed.

Lemma exec_chr_accepts (R : Type) (c : ascii) pos (s : chars) cap
    (k : nat -> chars -> capture -> option R) :
  exec R false (Chr c) pos s cap k <> None
  <-> exists s', s = c :: s' /\ k (S pos) s' cap <> None.
Proof.
  cbn [exec]. unfold char_matches. destruct s as [|x s].
  - split; [congruence|intros (s' & E & _); discriminate].
  - destruct (Ascii.eqb_spec c x) as [<-|N].
    + split; [intros H; exists s; auto|intros (s' & E & H); inversion E; subst; exact H].
    + split; [congruence|intros (s' & E & _); inversion E; congruence].
Qed.

Lemma exec_eol_accepts (R : Type) ic pos (s : chars) cap
    (k : nat -> chars -> capture -> option R) :
  exec R ic Eol pos s cap k <> None <-> s = [] /\ k pos [] cap <> None.
Proof.
  cbn [exec]. destruct s as [|x s].
  - split; [auto|intros (_ & H); exact H].
  - split; [congruence|intros (E & _); discriminate].
Qed.

(** An expression anchored at the start matches at offset 0 only. *)
Lemma search_from_bol ic r (s : chars) : forall pos,
  (0 < pos)%nat -> search_from ic (Seq Bol r) pos s = None.
Proof.
  induction s as [|x s IH]; intros pos H; cbn [search_from]; unfold match_at; cbn [exec];
    replace (pos =? 0)%nat with false by (symmetry; apply Nat.eqb_neq; lia).
  - reflexivity.
  - apply IH. lia.
Qed.

Lemma search_from_anchored ic r (s : chars) :
  search_from ic (Seq Bol r) 0 s = match_at ic (Seq Bol r) 0 s.
Proof.
  destruct s as [|x s]; cbn [search_from]; destruct (match_at ic (Seq Bol r) 0 _);
    try reflexivity.
  apply search_from_bol. lia.
Qed.

Lemma search_from_skip ic r pos (x : ascii) (s : chars) :
  match_at ic r pos (x :: s) = None ->
  search_from ic r pos (x :: s) = search_from ic r (S pos) s.
Proof. intros H. cbn [search_from]. rewrite H. reflexivity. Qed.

Lemma search_from_hit ic r pos (s : chars) m :
  match_at ic r pos s = Some m -> search_from ic r pos s = Some m.
Proof. intros H. destruct s; cbn [search_from]; rewrite H; reflexivity. Qed.

(** A match of a pattern that begins with a literal text starts at an
    occurrence of that text. *)
Lemma search_from_lit_occurs (l : chars) r (s : chars) : forall pos m,
  search_from false (Seq (lit_chars l) r) pos s = Some m ->
  exists a b, s = a ++ l ++ b.
Proof.
  induction s as [|x s IH]; intros pos m H; cbn [search_from] in H.
  - destruct (match_at false (Seq (lit_chars l) r) pos []) eqn:E; [|discriminate].
    unfold match_at in E. cbn [exec] in E.
    assert (N : exec found false (lit_chars l) pos [] None
                  (fun pos1 s1 cap1 => exec found false r pos1 s1 cap1
                     (fun e _ cap => Some (pos, e, cap))) <> None) by (rewrite E; discriminate).
    apply exec_lit_chars_sound in N. destruct N as (rest & Er & _).
    exists [], rest. exact Er.
  - destruct (match_at false (Seq (lit_chars l) r) pos (x :: s)) eqn:E.
    + unfold match_at in E. cbn [exec] in E.
      assert (N : exec found false (lit_chars l) pos (x :: s) None
                    (fun pos1 s1 cap1 => exec found false r pos1 s1 cap1
                       (fun e _ cap => Some (pos, e, cap))) <> None) by (rewrite E; discriminate).
      apply exec_lit_chars_sound in N. destruct N as (rest & Er & _).
      exists [], rest. exact Er.
    + apply IH in H. destruct H as (a & b & ->). exists (x :: a), b. reflexivity.
Qed.

End RegexRunFacts.

(** * Properties of the string operations *)

Module JsStringFacts.
Import JsString Regex RegexRunFacts.

Lemma lower_not_upper c : is_upper (lower c) = false.
Proof. destruct c as [[] [] [] [] [] [] [] []]; reflexivity. Qed.

Lemma lower_idempotent c : lower (lower c) = lower c.
Proof. unfold lower at 1. rewrite lower_not_upper. reflexivity. Qed.

Lemma toLowerCase_chars s :
  list_ascii_of_string (toLowerCase s) = map lower (list_ascii_of_string s).
Proof. unfold toLowerCase. apply list_ascii_of_string_of_list_ascii. Qed.

Lemma toLowerCase_idempotent s : toLowerCase (toLowerCase s) = toLowerCase s.
Proof.
  unfold toLowerCase at 1. rewrite toLowerCase_chars, map_map.
  unfold toLowerCase. f_equal. apply map_ext. intros c. apply lower_idempotent.
Qed.

Lemma chars_length s : List.length (list_ascii_of_string s) = String.length s.
Proof. induction s as [|c s IH]; simpl; [reflexivity|f_equal; exact IH]. Qed.

Lemma string_length_chars l : String.length (string_of_list_ascii l) = List.length l.
Proof. rewrite <- chars_length, list_ascii_of_string_of_list_ascii. reflexivity. Qed.

Lemma chars_append (s1 s2 : string) :
  list_ascii_of_string (s1 ++ s2) = list_ascii_of_string s1 ++ list_ascii_of_string s2.
Proof. induction s1 as [|c s1 IH]; simpl; [reflexivity|f_equal; exact IH]. Qed.

Lemma In_firstn {A : Type} (x : A) n l : In x (firstn n l) -> In x l.
Proof. intros H. rewrite <- (firstn_skipn n l). apply in_or_app. left. exact H. Qed.

Lemma In_skipn {A : Type} (x : A) n l : In x (skipn n l) -> In x l.
Proof. intros H. rewrite <- (firstn_skipn n l). apply in_or_app. right. exact H. Qed.

Lemma In_dropWhile p (x : ascii) l : In x (dropWhile p l) -> In x l.
Proof.
  induction l as [|c l IH]; simpl; [tauto|].
  destruct (p c); [intros H; right; apply IH, H|intros H; exact H].
Qed.

Lemma In_trim_chars x l : In x (trim_chars l) -> In x l.
Proof.
  unfold trim_chars, dropWhileEnd. intros H.
  apply in_rev, In_dropWhile, in_rev, In_dropWhile in H. exact H.
Qed.

Lemma dropWhile_length p (l : chars) : (List.length (dropWhile p l) <= List.length l)%nat.
Proof. induction l as [|c l IH]; simpl; [lia|]. destruct (p c); simpl; lia. Qed.

Lemma trim_chars_length l : (List.length (trim_chars l) <= List.length l)%nat.
Proof.
  unfold trim_chars, dropWhileEnd. rewrite length_rev.
  etransitivity; [apply dropWhile_length|]. rewrite length_rev. apply dropWhile_length.
Qed.

Lemma dropWhileEnd_prefix p (l : chars) : exists suffix, l = dropWhileEnd p l ++ suffix.
Proof.
  unfold dropWhileEnd.
  pose proof (takeWhile_dropWhile p (rev l)) as H.
  exists (rev (takeWhile p (rev l))).
  rewrite <- rev_app_distr, H. symmetry. apply rev_involutive.
Qed.

Lemma trim_chars_first l c rest : trim_chars l = c :: rest -> is_space c = false.
Proof.
  unfold trim_chars. intros H.
  destruct (dropWhileEnd_prefix is_space (dropWhile is_space l)) as (suffix & E).
  rewrite H in E. pose proof (dropWhile_head is_space l) as D.
  rewrite E in D. exact D.
Qed.

Lemma trim_chars_last l c front : trim_chars l = front ++ [c] -> is_space c = false.
Proof.
  unfold trim_chars, dropWhileEnd. intros H.
  apply (f_equal (@rev ascii)) in H. rewrite rev_involutive, rev_app_distr in H.
  cbn [rev app] in H.
  pose proof (dropWhile_head is_space (rev (dropWhile is_space l))) as D.
  rewrite H in D. exact D.
Qed.

(** A text that neither starts nor ends with white space is left alone. *)
Lemma trim_chars_fixed l :
  (forall c rest, l = c :: rest -> is_space c = false) ->
  (forall c front, l = front ++ [c] -> is_space c = false) ->
  trim_chars l = l.
Proof.
  intros F L. unfold trim_chars, dropWhileEnd.
  rewrite (dropWhile_stop is_space l).
  - rewrite dropWhile_stop; [apply rev_involutive|].
    destruct (rev l) as [|c r] eqn:E; [exact I|].
    apply (L c (rev r)). rewrite <- (rev_involutive l), E. reflexivity.
  - destruct l as [|c r]; [exact I|]. apply (F c r eq_refl).
Qed.

Lemma trim_chars_idempotent l : trim_chars (trim_chars l) = trim_chars l.
Proof.
  apply trim_chars_fixed.
  - intros c rest. apply trim_chars_first.
  - intros c front. apply trim_chars_last.
Qed.

Lemma trim_idempotent s : trim (trim s) = trim s.
Proof.
  unfold trim. rewrite list_ascii_of_string_of_list_ascii, trim_chars_idempotent.
  reflexivity.
Qed.

Lemma trim_chars_id l :
  forallb (fun c => negb (is_space c)) l = true -> trim_chars l = l.
Proof.
  intros H. rewrite forallb_forall in H. apply trim_chars_fixed.
  - intros c rest ->. apply negb_true_iff, H. left. reflexivity.
  - intros c front ->. apply negb_true_iff, H, in_or_app. right. left. reflexivity.
Qed.

(** ** Substrings *)

Lemma prefix_chars_spec (p l : chars) :
  prefix_chars p l = true <-> exists b, l = p ++ b.
Proof.
  revert l. induction p as [|a p IH]; intros l; simpl.
  - split; [intros _; exists l; reflexivity|reflexivity].
  - destruct l as [|x l].
    + split; [discriminate|intros (b & E); discriminate].
    + rewrite andb_true_iff, IH. split.
      * intros (E & b & ->). apply Ascii.eqb_eq in E. subst. exists b. reflexivity.
      * intros (b & E). inversion E; subst. split; [apply Ascii.eqb_refl|exists b; reflexivity].
Qed.

Lemma includes_chars_spec (p l : chars) :
  includes_chars p l = true <-> exists a b, l = a ++ p ++ b.
Proof.
  induction l as [|x l IH]; simpl.
  - rewrite orb_false_r, prefix_chars_spec. split.
    + intros (b & E). exists [], b. exact E.
    + intros (a & b & E). destruct a; [exists b; exact E|discriminate].
  - rewrite orb_true_iff, prefix_chars_spec, IH. split.
    + intros [(b & E)|(a & b & E)].
      * exists [], b. exact E.
      * exists (x :: a), b. simpl. rewrite E. reflexivity.
    + intros (a & b & E). destruct a as [|y a].
      * left. exists b. exact E.
      * right. inversion E; subst. exists a, b. reflexivity.
Qed.

(** A text that lacks a character of [sub] does not include [sub]. *)
Lemma includes_needs_char (s sub : string) (c : ascii) :
  In c (list_ascii_of_string sub) -> ~ In c (list_ascii_of_string s) ->
  includes s sub = false.
Proof.
  intros Hc N. unfold includes. destruct (includes_chars _ _) eqn:E; [|reflexivity].
  apply includes_chars_spec in E. destruct E as (a & b & E). exfalso. apply N.
  rewrite E. apply in_or_app. right. apply in_or_app. left. exact Hc.
Qed.

(** ** Global deletion of a class *)

Lemma replace_delete_class (p : ascii -> bool) (s : string) :
  list_ascii_of_string
    (replace {| source := Cls p; flag_i := false; flag_g := true |} s EmptyString)
  = filter (fun c => negb (p c)) (list_ascii_of_string s).
Proof.
  unfold replace. cbn [flag_g flag_i source].
  rewrite list_ascii_of_string_of_list_ascii.
  change (list_ascii_of_string EmptyString) with (@nil ascii).
  apply replace_all_cls_filter. lia.
Qed.

End JsStringFacts.

(** * Properties of the merchant name cleaner: the fallback on failure *)

Module MerchantFallbackFacts.
Import JsString Regex RegexRunFacts JsStringFacts MerchantCleaner MerchantCleanerFacts.












End MerchantFallbackFacts.

(** * Properties of objects used as maps *)

Module JsObjectFacts.
Import JsObject.

Lemma own_put_same {V : Type} (o : object V) k v : own (put k v o) k = Some v.
Proof.
  induction o as [|[k' v'] o IH]; simpl.
  - rewrite String.eqb_refl. reflexivity.
  - destruct (String.eqb k k') eqn:E; simpl; rewrite ?String.eqb_refl, ?E; auto.
Qed.

Lemma own_put_other {V : Type} (o : object V) k k' v :
  k' <> k -> own (put k v o) k' = own o k'.
Proof.
  intros Ne. induction o as [|[k0 v0] o IH]; simpl.
  - apply String.eqb_neq in Ne. rewrite Ne. reflexivity.
  - destruct (String.eqb k k0) eqn:E; simpl.
    + apply String.eqb_eq in E. subst k0.
      apply String.eqb_neq in Ne. rewrite Ne. reflexivity.
    + rewrite IH. reflexivity.
Qed.

(** The keys of an object are distinct, and stay so. *)
Lemma put_keys {V : Type} (o : object V) k v :
  NoDup (map fst o) -> NoDup (map fst (put k v o))
  /\ (forall x, In x (map fst (put k v o)) <-> x = k \/ In x (map fst o)).
Proof.
  induction o as [|[k' v'] o IH]; simpl; intros ND.
  - split; [repeat constructor; intros []|]. intros x. intuition auto.
  - inversion ND as [|? ? Nin ND']; subst.
    destruct (String.eqb k k') eqn:E; simpl.
    + apply String.eqb_eq in E. subst k'. split; [constructor; assumption|].
      intros x. intuition auto.
    + destruct (IH ND') as (ND1 & Keys). split.
      * constructor; [|exact ND1]. intros H. apply Keys in H.
        apply String.eqb_neq in E. destruct H as [->|H]; [congruence|contradiction].
      * intros x. rewrite Keys. intuition auto.
Qed.

End JsObjectFacts.

(** * Properties of the live merchant groups *)

Module LiveDataFacts.
Import Js App JsString JsObject JsObjectFacts MerchantCleaner EditCache EditCacheFacts LiveData.

Definition members (o : object (list cell)) (k : string) : list cell :=
  match own o k with Some l => l | None => [] end.

Lemma cell_eqb_eq a b : cell_eqb a b = true <-> a = b.
Proof.
  destruct a, b; simpl; split; intros H; try discriminate; try reflexivity.
  - apply String.eqb_eq in H. congruence.
  - inversion H. apply String.eqb_refl.
Qed.

Lemma cell_includes_In l x : cell_includes l x = true <-> In x l.
Proof.
  unfold cell_includes. rewrite existsb_exists. split.
  - intros (y & I & E). apply cell_eqb_eq in E. subst. exact I.
  - intros I. exists x. split; [exact I|apply cell_eqb_eq; reflexivity].
Qed.

Lemma liveStep_thrown a rows e :
  fold_left (liveStep a) rows (Thrown e) = Thrown e.
Proof. induction rows as [|r rows IH]; simpl; auto. Qed.

(** What one row adds to the groups. *)
Lemma liveStep_members a o r o' :
  liveStep a (Returned o) r = Returned o' ->
  forall k m, In m (members o' k)
              <-> In m (members o k) \/ (groupKey a r = Some k /\ merchantOf a r = m).
Proof.
  unfold liveStep. destruct (groupKey a r) as [key|] eqn:G.
  2:{ intros H. inversion H; subst. intros k m. split; [auto|]. intros [H'|[? _]]; [auto|discriminate]. }
  destruct (own o key) as [ms|] eqn:O.
  - destruct (cell_includes ms (merchantOf a r)) eqn:Inc; intros H; inversion H; subst; intros k m.
    + apply cell_includes_In in Inc. split; [auto|].
      intros [H'|[E <-]]; [auto|]. inversion E; subst. unfold members. rewrite O. exact Inc.
    + unfold members. destruct (String.eqb k key) eqn:E.
      * apply String.eqb_eq in E. subst k. rewrite own_put_same, O, in_app_iff. simpl.
        split; intros [H'|H']; auto.
        -- destruct H' as [H'|[]]. auto.
        -- destruct H' as [_ <-]. auto.
      * apply String.eqb_neq in E. rewrite (own_put_other _ _ _ _ E).
        split; [auto|]. intros [H'|[E' _]]; [auto|]. inversion E'. congruence.
  - destruct (inherited key); [discriminate|]. intros H. inversion H; subst. intros k m.
    unfold members. destruct (String.eqb k key) eqn:E.
    + apply String.eqb_eq in E. subst k. rewrite own_put_same, O. simpl.
      split; intros [H'|H']; auto; try contradiction.
      destruct H' as [_ <-]. auto.
    + apply String.eqb_neq in E. rewrite (own_put_other _ _ _ _ E).
      split; [auto|]. intros [H'|[E' _]]; [auto|]. inversion E'. congruence.
Qed.

Lemma live_members a rows : forall o o',
  fold_left (liveStep a) rows (Returned o) = Returned o' ->
  forall k m, In m (members o' k)
              <-> In m (members o k)
                  \/ exists r, In r rows /\ groupKey a r = Some k /\ merchantOf a r = m.
Proof.
  induction rows as [|r rows IH]; intros o o' H k m; cbn [fold_left] in H.
  - inversion H; subst. split; [auto|]. intros [H'|(r & [] & _)]. exact H'.
  - destruct (liveStep a (Returned o) r) as [o1|e] eqn:S.
    2:{ rewrite liveStep_thrown in H. discriminate. }
    rewrite (IH o1 o' H k m), (liveStep_members a o r o1 S k m).
    split.
    + intros [[H'|H']|(r' & I & G & M)]; [auto| |].
      * right. exists r. simpl. auto.
      * right. exists r'. simpl. auto.
    + intros [H'|(r' & [<-|I] & G & M)]; [auto|auto|].
      right. exists r'. auto.
Qed.

Lemma live_nodup a rows : forall o o',
  fold_left (liveStep a) rows (Returned o) = Returned o' ->
  (forall k, NoDup (members o k)) -> forall k, NoDup (members o' k).
Proof.
  induction rows as [|r rows IH]; intros o o' H ND; cbn [fold_left] in H.
  - inversion H; subst. exact ND.
  - destruct (liveStep a (Returned o) r) as [o1|e] eqn:S.
    2:{ rewrite liveStep_thrown in H. discriminate. }
    apply (IH o1 o' H). clear IH H. intros k.
    unfold liveStep in S. destruct (groupKey a r) as [key|]; [|inversion S; subst; apply ND].
    destruct (own o key) as [ms|] eqn:O.
    + destruct (cell_includes ms (merchantOf a r)) eqn:Inc; inversion S; subst; [apply ND|].
      unfold members. destruct (String.eqb k key) eqn:E.
      * apply String.eqb_eq in E. subst k. rewrite own_put_same.
        pose proof (ND key) as N. unfold members in N. rewrite O in N.
        apply NoDup_app; [exact N|repeat constructor; intros []|].
        intros x Hx [<-|[]].
        apply cell_includes_In in Hx. congruence.
      * apply String.eqb_neq in E. rewrite (own_put_other _ _ _ _ E). apply ND.
    + destruct (inherited key); [discriminate|]. inversion S; subst.
      unfold members. destruct (String.eqb k key) eqn:E.
      * apply String.eqb_eq in E. subst k. rewrite own_put_same. repeat constructor. intros [].
      * apply String.eqb_neq in E. rewrite (own_put_other _ _ _ _ E). apply ND.
Qed.

(** The groups read so far never hold a key that is inherited. *)
Definition no_inherited_key (o : object (list cell)) : Prop :=
  forall k, inherited k = true -> own o k = None.

Lemma liveStep_no_inherited a o r o' :
  no_inherited_key o -> liveStep a (Returned o) r = Returned o' -> no_inherited_key o'.
Proof.
  intros NI. unfold liveStep. destruct (groupKey a r) as [key|]; [|intros H; inversion H; subst; exact NI].
  destruct (own o key) as [ms|] eqn:O.
  - assert (K : inherited key = false).
    { destruct (inherited key) eqn:E; [|reflexivity]. rewrite (NI key E) in O. discriminate. }
    destruct (cell_includes ms (merchantOf a r)); intros H; inversion H; subst; [exact NI|].
    intros k Hk. rewrite own_put_other; [apply NI, Hk|]. intros ->. congruence.
  - destruct (inherited key) eqn:K; [discriminate|]. intros H; inversion H; subst.
    intros k Hk. rewrite own_put_other; [apply NI, Hk|]. intros ->. congruence.
Qed.

Lemma live_returns a rows : forall o,
  no_inherited_key o ->
  ((exists o', fold_left (liveStep a) rows (Returned o) = Returned o')
   <-> forall r key, In r rows -> groupKey a r = Some key -> inherited key = false).
Proof.
  induction rows as [|r rows IH]; intros o NI; cbn [fold_left].
  - split; [intros _ r key []|eauto].
  - destruct (liveStep a (Returned o) r) as [o1|e] eqn:S.
    + rewrite (IH o1 (liveStep_no_inherited a o r o1 NI S)).
      split.
      * intros H r' key [<-|I] G; [|eapply H; eauto].
        unfold liveStep in S. rewrite G in S.
        destruct (own o key) eqn:O.
        -- destruct (inherited key) eqn:K; [|reflexivity]. rewrite (NI key K) in O. discriminate.
        -- destruct (inherited key); [discriminate|reflexivity].
      * intros H r' key I. apply H. right. exact I.
    + rewrite liveStep_thrown. split; [intros [o' H]; discriminate|].
      intros H. exfalso. unfold liveStep in S.
      destruct (groupKey a r) as [key|] eqn:G; [|discriminate].
      destruct (own o key) eqn:O.
      * destruct (cell_includes _ _); discriminate.
      * destruct (inherited key) eqn:K; [|discriminate].
        rewrite (H r key (or_introl eq_refl) G) in K. discriminate.
Qed.

(** ** Effect of [applyCachedMerchantChange] on the rows *)

(** [getColumnValue(row, 'merchant') || row[2]], the merchant the loop of
    [applyCachedMerchantChange] compares. *)
Definition rowMerchant (a : BudgetTrackerApp) (r : row) : cell :=
  or_else (getColumnValue r (merchant (columnIndices a))) (arrayGet r 2).

Definition regroup (a : BudgetTrackerApp) (m g : string) (r : row) : row :=
  if cell_eqb (rowMerchant a r) (JStr m)
  then arraySet r (Z.to_nat (merchantGroup (columnIndices a))) (JStr g)
  else r.

Lemma apply_row_rows m g a i r :
  0 <= merchantGroup (columnIndices a) ->
  nth_error (rowsData a) i = Some r ->
  rowsData (apply_row m g a i)
  = firstn i (rowsData a) ++ regroup a m g r :: skipn (S i) (rowsData a).
Proof.
  intros Mg Nth. unfold apply_row, regroup, rowMerchant. rewrite Nth.
  destruct (cell_eqb _ _).
  - apply Z.leb_le in Mg. rewrite Mg. reflexivity.
  - symmetry. rewrite <- (firstn_skipn i (rowsData a)) at 3.
    f_equal. clear - Nth. revert i Nth.
    induction (rowsData a) as [|x l IH]; intros [|i] Nth; simpl in *; try discriminate.
    + congruence.
    + apply IH, Nth.
Qed.

Lemma firstn_S_middle {A : Type} (pre : list A) x post k :
  List.length pre = k -> firstn (S k) (pre ++ x :: post) = pre ++ [x].
Proof.
  intros <-. induction pre as [|y pre IH]; simpl; [destruct post; reflexivity|].
  f_equal. exact IH.
Qed.

Lemma skipn_S_middle {A : Type} (pre : list A) x post k :
  List.length pre = k -> skipn (S k) (pre ++ x :: post) = post.
Proof. intros <-. induction pre as [|y pre IH]; simpl; [reflexivity|exact IH]. Qed.

Lemma apply_rows_seq m g (n : nat) : forall (k : nat) (a : BudgetTrackerApp),
  0 <= merchantGroup (columnIndices a) ->
  (k + n = List.length (rowsData a))%nat ->
  rowsData (fold_left (apply_row m g) (seq k n) a)
  = firstn k (rowsData a) ++ map (regroup a m g) (skipn k (rowsData a)).
Proof.
  induction n as [|n IH]; intros k a Mg Len; simpl.
  - rewrite skipn_all2 by lia. rewrite firstn_all2 by lia. rewrite app_nil_r. reflexivity.
  - destruct (nth_error (rowsData a) k) as [r|] eqn:Nth.
    2:{ apply nth_error_None in Nth. lia. }
    pose proof (apply_row_rows m g a k r Mg Nth) as R1.
    destruct (apply_row_frame m g a k) as (_ & _ & C).
    assert (Lk : List.length (firstn k (rowsData a)) = k) by (rewrite length_firstn; lia).
    assert (RG : forall x, regroup (apply_row m g a k) m g x = regroup a m g x).
    { intros x. unfold regroup, rowMerchant. rewrite C. reflexivity. }
    assert (S' : skipn k (rowsData a) = r :: skipn (S k) (rowsData a)).
    { clear - Nth. revert k Nth.
      induction (rowsData a) as [|x l IHl]; intros [|k] Nth; simpl in *; try discriminate.
      - congruence.
      - apply IHl, Nth. }
    rewrite IH.
    + rewrite (map_ext _ _ RG), R1.
      rewrite (firstn_S_middle _ _ _ k Lk), (skipn_S_middle _ _ _ k Lk).
      rewrite <- app_assoc. simpl. rewrite S'. reflexivity.
    + rewrite C. exact Mg.
    + rewrite R1, length_app, Lk. cbn [List.length]. rewrite length_skipn. lia.
Qed.

Lemma applyCachedMerchantChange_rows m g a :
  enabled (merchantEditingCache a) = true ->
  0 <= merchantGroup (columnIndices a) ->
  rowsData (applyCachedMerchantChange m g a)
  = firstn 1 (rowsData a) ++ map (regroup a m g) (skipn 1 (rowsData a))
  /\ columnIndices (applyCachedMerchantChange m g a) = columnIndices a.
Proof.
  intros En Mg. unfold applyCachedMerchantChange. rewrite En. cbn [negb].
  set (a0 := with_cache a _).
  assert (RG : forall x, regroup a0 m g x = regroup a m g x) by reflexivity.
  split.
  - destruct (rowsData a) as [|h t] eqn:Rows.
    + unfold a0. simpl. rewrite Rows. simpl. exact Rows.
    + rewrite (apply_rows_seq m g (List.length (rowsData a0) - 1) 1 a0).
      * unfold a0 at 1 2. simpl. rewrite Rows. simpl. reflexivity.
      * exact Mg.
      * unfold a0. simpl. rewrite Rows. simpl. lia.
  - match goal with
    | |- context [fold_left _ ?ixs ?x] =>
        destruct (apply_rows_frame m g ixs x) as (_ & _ & C)
    end.
    exact C.
Qed.

(** ** Reading a row after a write to its merchant group cell *)

Lemma nth_arraySet_same (r : row) : forall n v, nth n (arraySet r n v) JUndef = v.
Proof.
  induction r as [|c r IH]; intros n v.
  - induction n as [|n IHn]; simpl; [reflexivity|exact IHn].
  - destruct n; simpl; [reflexivity|apply IH].
Qed.

Lemma nth_arraySet_other (r : row) : forall n i v,
  i <> n -> nth i (arraySet r n v) JUndef = nth i r JUndef.
Proof.
  induction r as [|c r IH]; intros n i v Ne.
  - revert i Ne. induction n as [|n IHn]; intros i Ne.
    + destruct i as [|i]; [congruence|]. simpl. destruct i; reflexivity.
    + destruct i as [|i]; simpl; [reflexivity|].
      rewrite IHn by congruence. destruct i; reflexivity.
  - destruct n, i; simpl; try reflexivity; try congruence.
    apply IH. congruence.
Qed.

Lemma arrayGet_arraySet_same r n v : arrayGet (arraySet r n v) (Z.of_nat n) = v.
Proof.
  unfold arrayGet. replace (Z.of_nat n <? 0) with false by (symmetry; apply Z.ltb_ge; lia).
  rewrite Nat2Z.id. apply nth_arraySet_same.
Qed.

Lemma arrayGet_arraySet_at r j v : 0 <= j -> arrayGet (arraySet r (Z.to_nat j) v) j = v.
Proof.
  intros H. rewrite <- (Z2Nat.id j H) at 2. apply arrayGet_arraySet_same.
Qed.

Lemma arrayGet_arraySet_other r n j v :
  j <> Z.of_nat n -> arrayGet (arraySet r n v) j = arrayGet r j.
Proof.
  intros Ne. unfold arrayGet. destruct (j <? 0) eqn:E; [reflexivity|].
  apply Z.ltb_ge in E. apply nth_arraySet_other. lia.
Qed.

Lemma getColumnValue_arraySet_other r n j v :
  j <> Z.of_nat n -> getColumnValue (arraySet r n v) j = getColumnValue r j.
Proof.
  intros Ne. unfold getColumnValue. rewrite arrayGet_arraySet_other by exact Ne. reflexivity.
Qed.

Section Regrouped.
Variables (a : BudgetTrackerApp) (m g : string).
Hypothesis group_column : 0 <= merchantGroup (columnIndices a).
Hypothesis not_merchant_column : merchantGroup (columnIndices a) <> merchant (columnIndices a).
Hypothesis not_third_column : merchantGroup (columnIndices a) <> 2.

Lemma rowMerchant_regroup r : rowMerchant a (regroup a m g r) = rowMerchant a r.
Proof.
  unfold regroup. destruct (cell_eqb (rowMerchant a r) (JStr m)); [|reflexivity].
  unfold rowMerchant.
  rewrite getColumnValue_arraySet_other, arrayGet_arraySet_other; [reflexivity|lia|lia].
Qed.

Lemma groupKey_regroup r :
  trim g <> EmptyString ->
  groupKey a (regroup a m g r)
  = if cell_eqb (rowMerchant a r) (JStr m) then Some (trim g) else groupKey a r.
Proof.
  intros G. unfold regroup. destruct (cell_eqb (rowMerchant a r) (JStr m)); [|reflexivity].
  unfold groupKey, getColumnValue.
  rewrite arrayGet_arraySet_at by exact group_column.
  replace (_ =? -1) with false by (symmetry; apply Z.eqb_neq; lia).
  assert (g <> EmptyString) by (intros ->; apply G; reflexivity).
  simpl. apply String.eqb_neq in H. rewrite H. simpl.
  apply String.eqb_neq in G. rewrite G. reflexivity.
Qed.

End Regrouped.

Lemma live_keys a rows : forall o o',
  fold_left (liveStep a) rows (Returned o) = Returned o' ->
  NoDup (map fst o) ->
  NoDup (map fst o')
  /\ forall k, In k (map fst o')
               <-> In k (map fst o) \/ exists r, In r rows /\ groupKey a r = Some k.
Proof.
  induction rows as [|r rows IH]; intros o o' H ND; cbn [fold_left] in H.
  - inversion H; subst. split; [exact ND|]. intros k. split; [auto|].
    intros [H'|(r & [] & _)]. exact H'.
  - destruct (liveStep a (Returned o) r) as [o1|e] eqn:S.
    2:{ rewrite liveStep_thrown in H. discriminate. }
    assert (K1 : NoDup (map fst o1)
                 /\ forall k, In k (map fst o1) <-> In k (map fst o) \/ groupKey a r = Some k).
    { unfold liveStep in S. destruct (groupKey a r) as [key|] eqn:G.
      2:{ inversion S; subst. split; [exact ND|]. intros k. split; [auto|].
          intros [H'|H']; [exact H'|discriminate]. }
      assert (Own : forall v, own o key = Some v -> In key (map fst o)).
      { clear. induction o as [|[k0 v0] o IHo]; simpl; [discriminate|].
        intros v. destruct (String.eqb key k0) eqn:E; [|eauto].
        apply String.eqb_eq in E. auto. }
      destruct (own o key) as [ms|] eqn:O.
      - destruct (cell_includes ms (merchantOf a r)); inversion S; subst.
        + split; [exact ND|]. intros k. split; [auto|].
          intros [H'|H']; [exact H'|]. inversion H'; subst. eapply Own; reflexivity.
        + destruct (put_keys o key (ms ++ [merchantOf a r]) ND) as (ND1 & Keys).
          split; [exact ND1|]. intros k. rewrite Keys. split.
          * intros [->|H']; auto.
          * intros [H'|H']; [auto|]. inversion H'; auto.
      - destruct (inherited key); [discriminate|]. inversion S; subst.
        destruct (put_keys o key [merchantOf a r] ND) as (ND1 & Keys).
        split; [exact ND1|]. intros k. rewrite Keys. split.
        * intros [->|H']; auto.
        * intros [H'|H']; [auto|]. inversion H'; auto. }
    destruct K1 as (ND1 & Keys1).
    destruct (IH o1 o' H ND1) as (ND' & Keys').
    split; [exact ND'|]. intros k. rewrite Keys', Keys1. split.
    + intros [[H'|H']|(r' & I & G)]; [auto| |].
      * right. exists r. simpl. auto.
      * right. exists r'. simpl. auto.
    + intros [H'|(r' & [<-|I] & G)]; [auto|auto|].
      right. exists r'. auto.
Qed.

Lemma no_inherited_key_empty : no_inherited_key [].
Proof. intros k _. reflexivity. Qed.

(** The transactions of the table: every row but the header. *)
Definition dataRows (a : BudgetTrackerApp) : list row := skipn 1 (rowsData a).

(** Who is listed under a group. *)
Lemma live_listed (a : BudgetTrackerApp) (groups : object (list cell)) :
  getLiveMerchantData a = Returned groups ->
  forall k c, In c (members groups k)
              <-> exists r, In r (dataRows a) /\ groupKey a r = Some k /\ merchantOf a r = c.
Proof.
  unfold getLiveMerchantData, dataRows.
  destruct (negb (enabled (merchantEditingCache a))); [discriminate|].
  intros H k c. rewrite (live_members a _ _ _ H k c). simpl. tauto.
Qed.

(** X1: what the live groups hold.  When [getLiveMerchantData] returns, a
    merchant is listed under a group exactly when some transaction row
    carries that merchant and that (trimmed, non-blank) group; no merchant
    is listed twice in a group and no group name appears twice. *)
Theorem getLiveMerchantData_lists_rows (a : BudgetTrackerApp)
    (groups : object (list cell)) :
  getLiveMerchantData a = Returned groups ->
  (forall k c, In c (members groups k)
               <-> exists r, In r (dataRows a) /\ groupKey a r = Some k /\ merchantOf a r = c)
  /\ (forall k, In k (map fst groups)
                <-> exists r, In r (dataRows a) /\ groupKey a r = Some k)
  /\ (forall k, NoDup (members groups k))
  /\ NoDup (map fst groups).
Proof.
  intros Live. split; [exact (live_listed a groups Live)|].
  revert Live. unfold getLiveMerchantData, dataRows.
  destruct (negb (enabled (merchantEditingCache a))); [discriminate|].
  intros H.
  destruct (live_keys a _ _ _ H (NoDup_nil _)) as (ND & Keys).
  split; [|split].
  - intros k. rewrite Keys. simpl. tauto.
  - apply (live_nodup a _ _ _ H). intros k. constructor.
  - exact ND.
Qed.

Lemma getLiveMerchantData_lists_rows_witness :
  In "Tim Hortons" (map fst [("Tim Hortons", [JStr "TIM HORTONS #12"])])
  <-> exists r, In r (dataRows sample_session) /\ groupKey sample_session r = Some "Tim Hortons".
Proof.
  refine (proj1 (proj2 (getLiveMerchantData_lists_rows sample_session
                         [("Tim Hortons", [JStr "TIM HORTONS #12"])] _)) "Tim Hortons").
  vm_compute. reflexivity.
Defined.

(** X2: when reading the live groups fails.  [getLiveMerchantData] returns
    exactly when the cache is enabled and no transaction row carries a
    group whose trimmed name is inherited from [Object.prototype] (such as
    "constructor"); otherwise it ends in a TypeError. *)
Theorem getLiveMerchantData_returns_iff (a : BudgetTrackerApp) :
  (exists groups, getLiveMerchantData a = Returned groups)
  <-> enabled (merchantEditingCache a) = true
      /\ forall r key, In r (dataRows a) -> groupKey a r = Some key -> inherited key = false.
Proof.
  unfold getLiveMerchantData, dataRows.
  destruct (enabled (merchantEditingCache a)); cbn [negb].
  - rewrite (live_returns a _ [] no_inherited_key_empty). tauto.
  - split; [intros [g H]; discriminate|intros [H _]; discriminate].
Qed.

Section AfterApply.
Variables (a : BudgetTrackerApp) (m g : string).
Hypothesis cache_enabled : enabled (merchantEditingCache a) = true.
Hypothesis group_column : 0 <= merchantGroup (columnIndices a).
Hypothesis not_merchant_column : merchantGroup (columnIndices a) <> merchant (columnIndices a).
Hypothesis not_third_column : merchantGroup (columnIndices a) <> 2.
Hypothesis named : m <> EmptyString.

Let a' := applyCachedMerchantChange m g a.

Lemma dataRows_apply : dataRows a' = map (regroup a m g) (dataRows a).
Proof.
  unfold dataRows, a'.
  destruct (applyCachedMerchantChange_rows m g a cache_enabled group_column) as (R & _).
  rewrite R. destruct (rowsData a) as [|h t]; reflexivity.
Qed.

Lemma merchantOf_apply r : merchantOf a' r = merchantOf a r.
Proof.
  unfold merchantOf, a'.
  destruct (applyCachedMerchantChange_rows m g a cache_enabled group_column) as (_ & C).
  rewrite C. reflexivity.
Qed.

Lemma groupKey_apply r : groupKey a' r = groupKey a r.
Proof.
  unfold groupKey, a'.
  destruct (applyCachedMerchantChange_rows m g a cache_enabled group_column) as (_ & C).
  rewrite C. reflexivity.
Qed.

Lemma merchantOf_regroup r : merchantOf a (regroup a m g r) = merchantOf a r.
Proof.
  unfold merchantOf. fold (rowMerchant a (regroup a m g r)). fold (rowMerchant a r).
  rewrite rowMerchant_regroup by assumption. reflexivity.
Qed.

(** A row matched by the loop is a row listed under the name [m]. *)
Lemma matched_merchantOf r :
  cell_eqb (rowMerchant a r) (JStr m) = true -> merchantOf a r = JStr m.
Proof.
  intros E. apply cell_eqb_eq in E. unfold merchantOf. fold (rowMerchant a r).
  rewrite E. unfold or_else. simpl.
  apply String.eqb_neq in named. rewrite named. reflexivity.
Qed.

Lemma merchantOf_matched r :
  m <> "Unknown" -> merchantOf a r = JStr m -> cell_eqb (rowMerchant a r) (JStr m) = true.
Proof.
  intros NU. unfold merchantOf. fold (rowMerchant a r). unfold or_else at 1.
  destruct (truthy (rowMerchant a r)).
  - intros ->. apply cell_eqb_eq. reflexivity.
  - intros E. inversion E. congruence.
Qed.

End AfterApply.

(** X3: an applied change shows in the live groups.  With the cache
    enabled, a merchant group column that is neither the merchant column nor
    the third column, a merchant name other than the empty string and
    "Unknown", and a group name that is not blank: after
    [applyCachedMerchantChange m g] the live groups list [m] under the
    trimmed [g] when some transaction has merchant [m], and under no other
    group. *)
Theorem applyCachedMerchantChange_then_live (a : BudgetTrackerApp) (m g : string)
    (groups : object (list cell)) :
  enabled (merchantEditingCache a) = true ->
  0 <= merchantGroup (columnIndices a) ->
  merchantGroup (columnIndices a) <> merchant (columnIndices a) ->
  merchantGroup (columnIndices a) <> 2 ->
  m <> EmptyString -> m <> "Unknown" -> trim g <> EmptyString ->
  getLiveMerchantData (applyCachedMerchantChange m g a) = Returned groups ->
  forall k, In (JStr m) (members groups k)
            <-> k = trim g /\ exists r, In r (dataRows a) /\ rowMerchant a r = JStr m.
Proof.
  intros En Mg NM N3 Named NU G Live k.
  pose proof (live_listed _ _ Live) as Mem.
  rewrite (Mem k (JStr m)).
  rewrite (dataRows_apply a m g En Mg).
  split.
  - intros (r' & I & GK & MO). apply in_map_iff in I. destruct I as (r & <- & I).
    rewrite (merchantOf_apply a m g En Mg) in MO.
    rewrite (merchantOf_regroup a m g Mg NM N3) in MO.
    pose proof (merchantOf_matched a m r NU MO) as Matched.
    rewrite (groupKey_apply a m g En Mg) in GK.
    rewrite (groupKey_regroup a m g Mg r G), Matched in GK.
    split; [congruence|]. exists r. split; [exact I|]. apply cell_eqb_eq, Matched.
  - intros (-> & r & I & RM).
    assert (Matched : cell_eqb (rowMerchant a r) (JStr m) = true) by (apply cell_eqb_eq, RM).
    exists (regroup a m g r). split; [apply in_map, I|]. split.
    + rewrite (groupKey_apply a m g En Mg), (groupKey_regroup a m g Mg r G), Matched. reflexivity.
    + rewrite (merchantOf_apply a m g En Mg), (merchantOf_regroup a m g Mg NM N3).
      apply (matched_merchantOf a m Named r Matched).
Qed.

Lemma applyCachedMerchantChange_then_live_witness :
  In (JStr "COSTCO")
     (members [("Tim Hortons", [JStr "TIM HORTONS #12"]); ("Wholesale", [JStr "COSTCO"])]
        "Wholesale").
Proof.
  refine (proj2 (applyCachedMerchantChange_then_live sample_session "COSTCO" " Wholesale "
                   [("Tim Hortons", [JStr "TIM HORTONS #12"]); ("Wholesale", [JStr "COSTCO"])]
                   eq_refl _ _ _ _ _ _ _ "Wholesale") _).
  - vm_compute. discriminate.
  - vm_compute. discriminate.
  - vm_compute. discriminate.
  - discriminate.
  - discriminate.
  - vm_compute. discriminate.
  - vm_compute. reflexivity.
  - split; [reflexivity|].
    exists [JStr "Visa"; JStr "-12"; JStr "COSTCO"; JStr EmptyString; JStr "2024-03-02"].
    split; [vm_compute; auto|reflexivity].
Defined.

(** X4: an applied change leaves the other merchants where they were.
    Under the same conditions on the columns, every merchant other than
    [m] is listed under the same groups before and after
    [applyCachedMerchantChange m g]. *)
Theorem applyCachedMerchantChange_live_frame (a : BudgetTrackerApp) (m g : string)
    (before after : object (list cell)) :
  enabled (merchantEditingCache a) = true ->
  0 <= merchantGroup (columnIndices a) ->
  merchantGroup (columnIndices a) <> merchant (columnIndices a) ->
  merchantGroup (columnIndices a) <> 2 ->
  m <> EmptyString ->
  getLiveMerchantData a = Returned before ->
  getLiveMerchantData (applyCachedMerchantChange m g a) = Returned after ->
  forall c k, c <> JStr m -> (In c (members after k) <-> In c (members before k)).
Proof.
  intros En Mg NM N3 Named Before After c k Other.
  pose proof (live_listed _ _ Before) as MemB.
  pose proof (live_listed _ _ After) as MemA.
  rewrite (MemA k c), (MemB k c), (dataRows_apply a m g En Mg).
  assert (Same : forall r, merchantOf a r = c -> regroup a m g r = r).
  { intros r MO. unfold regroup.
    destruct (cell_eqb (rowMerchant a r) (JStr m)) eqn:Matched; [|reflexivity].
    rewrite (matched_merchantOf a m Named r Matched) in MO. congruence. }
  split.
  - intros (r' & I & GK & MO). apply in_map_iff in I. destruct I as (r & <- & I).
    rewrite (merchantOf_apply a m g En Mg), (merchantOf_regroup a m g Mg NM N3) in MO.
    rewrite (groupKey_apply a m g En Mg), (Same r MO) in GK.
    exists r. auto.
  - intros (r & I & GK & MO). exists r. split.
    + rewrite <- (Same r MO) at 1. apply in_map, I.
    + rewrite (groupKey_apply a m g En Mg), (merchantOf_apply a m g En Mg). auto.
Qed.

Lemma applyCachedMerchantChange_live_frame_witness :
  In (JStr "TIM HORTONS #12")
     (members [("Tim Hortons", [JStr "TIM HORTONS #12"]); ("Wholesale", [JStr "COSTCO"])]
        "Tim Hortons")
  <-> In (JStr "TIM HORTONS #12")
        (members [("Tim Hortons", [JStr "TIM HORTONS #12"])] "Tim Hortons").
Proof.
  refine (applyCachedMerchantChange_live_frame sample_session "COSTCO" " Wholesale "
            [("Tim Hortons", [JStr "TIM HORTONS #12"])]
            [("Tim Hortons", [JStr "TIM HORTONS #12"]); ("Wholesale", [JStr "COSTCO"])]
            eq_refl _ _ _ _ _ _ (JStr "TIM HORTONS #12") "Tim Hortons" _).
  - vm_compute. discriminate.
  - vm_compute. discriminate.
  - vm_compute. discriminate.
  - discriminate.
  - vm_compute. reflexivity.
  - vm_compute. reflexivity.
  - discriminate.
Defined.

(** ** Cancelling a session *)

Lemma setAdd_not_nil i s : setAdd i s <> [].
Proof.
  unfold setAdd. destruct (existsb (Nat.eqb i) s) eqn:E.
  - destruct s; [discriminate|discriminate].
  - destruct s; discriminate.
Qed.

Lemma apply_row_untouched m g a i :
  changedRows (merchantEditingCache (apply_row m g a i)) = [] ->
  rowsData (apply_row m g a i) = rowsData a /\ changedRows (merchantEditingCache a) = [].
Proof.
  unfold apply_row. destruct (nth_error (rowsData a) i); [|auto].
  destruct (cell_eqb _ _); [|auto].
  simpl. intros H. exfalso. exact (setAdd_not_nil _ _ H).
Qed.

Lemma apply_rows_untouched m g ixs : forall a,
  changedRows (merchantEditingCache (fold_left (apply_row m g) ixs a)) = [] ->
  rowsData (fold_left (apply_row m g) ixs a) = rowsData a
  /\ changedRows (merchantEditingCache a) = [].
Proof.
  induction ixs as [|i ixs IH]; intros a H; simpl in *; [auto|].
  destruct (IH _ H) as (R & C).
  destruct (apply_row_untouched m g a i C) as (R' & C').
  split; congruence.
Qed.

Lemma applyCachedMerchantChange_untouched m g a :
  changedRows (merchantEditingCache (applyCachedMerchantChange m g a)) = [] ->
  rowsData (applyCachedMerchantChange m g a) = rowsData a
  /\ changedRows (merchantEditingCache a) = [].
Proof.
  unfold applyCachedMerchantChange.
  destruct (negb (enabled (merchantEditingCache a))); [auto|].
  intros H. apply apply_rows_untouched in H. exact H.
Qed.

Lemma applyAll_untouched edits : forall a,
  changedRows (merchantEditingCache (applyAll edits a)) = [] ->
  rowsData (applyAll edits a) = rowsData a.
Proof.
  unfold applyAll. induction edits as [|e edits IH]; intros a H; simpl in *; [reflexivity|].
  assert (C : changedRows (merchantEditingCache
                (applyCachedMerchantChange (fst e) (snd e) a)) = []).
  { clear IH. revert H. generalize (applyCachedMerchantChange (fst e) (snd e) a).
    induction edits as [|e' edits IH']; intros b H; simpl in *; [exact H|].
    apply IH' in H. apply applyCachedMerchantChange_untouched in H. apply H. }
  rewrite (IH _ H). apply applyCachedMerchantChange_untouched, C.
Qed.

(** X5: cancelling an editing session.  After [enable] and any sequence of
    [apply] calls, [cancelMerchantChanges] with the confirmation given ends
    with the cache disabled and the live table restored: to the snapshot
    when rows were changed, and untouched otherwise, so to the table as it
    was at [enable] whenever that table had no holes.  When rows were
    changed and the confirmation is refused, nothing changes and the dialog
    stays open; when no row was changed no confirmation is asked. *)
Theorem cancelMerchantChanges_after_session (a : BudgetTrackerApp)
    (edits : list (string * string)) :
  let session := applyAll edits (enableMerchantEditingCache a) in
  let changed := changedRows (merchantEditingCache session) in
  merchantEditingCache (fst (cancelMerchantChanges true session)) = disabledCache
  /\ snd (cancelMerchantChanges true session) = true
  /\ (changed <> [] ->
      rowsData (fst (cancelMerchantChanges true session)) = jsonClone (rowsData a)
      /\ cancelMerchantChanges false session = (session, false))
  /\ (changed = [] ->
      rowsData (fst (cancelMerchantChanges true session)) = rowsData a
      /\ cancelMerchantChanges false session = cancelMerchantChanges true session)
  /\ (json_safe (rowsData a) ->
      rowsData (fst (cancelMerchantChanges true session)) = rowsData a).
Proof.
  intros session changed.
  destruct (applyAll_frame edits (enableMerchantEditingCache a)) as (En & Orig).
  fold session in En, Orig. simpl in En, Orig.
  assert (Revert : revertCachedChanges session
                   = (disableMerchantEditingCache
                        (with_rows session (jsonClone (jsonClone (rowsData a)))),
                      [ToastReverted])).
  { unfold revertCachedChanges. rewrite Orig, En. reflexivity. }
  unfold cancelMerchantChanges. rewrite En. cbn [andb].
  fold changed. destruct changed as [|i rest] eqn:Ch.
  - assert (Same : rowsData session = rowsData a).
    { unfold session. rewrite applyAll_untouched; [reflexivity|exact Ch]. }
    cbn. repeat split; auto; congruence.
  - cbn. rewrite Revert. cbn. rewrite jsonClone_idempotent.
    repeat split; auto; try discriminate.
    intros Safe. apply jsonClone_safe, Safe.
Qed.

Lemma live_not_undefined_method a (rows : list row) : forall acc,
  acc <> Thrown "this.getExistingMerchantGroups is not a function" ->
  fold_left (liveStep a) rows acc <> Thrown "this.getExistingMerchantGroups is not a function".
Proof.
  induction rows as [|r rows IH]; intros acc H; cbn [fold_left]; [exact H|].
  apply IH. unfold liveStep. destruct acc as [groups|e]; [|exact H].
  destruct (groupKey a r) as [key|]; [|discriminate].
  destruct (own groups key) as [ms|].
  - destruct (cell_includes ms (merchantOf a r)); discriminate.
  - destruct (inherited key); discriminate.
Qed.

(** X6: opening the dialog reads the live groups.  [openMerchantEditDialog]
    enables the cache on a copy of the table, leaves the table as it is, and
    then reads the groups of the live table: since the cache is enabled by
    then, the read never reaches the method the class does not define, and
    it returns exactly when no transaction row carries a group named like a
    member every object inherits. *)
Theorem openMerchantEditDialog_reads_live (a : BudgetTrackerApp) :
  merchantEditingCache (fst (openMerchantEditDialog a))
    = {| enabled := true; originalData := Some (jsonClone (rowsData a));
         pendingChanges := []; changedRows := [] |}
  /\ rowsData (fst (openMerchantEditDialog a)) = rowsData a
  /\ ((exists groups, snd (openMerchantEditDialog a) = Returned groups)
       <-> forall r key, In r (dataRows a) -> groupKey a r = Some key -> inherited key = false)
  /\ snd (openMerchantEditDialog a)
       <> Thrown "this.getExistingMerchantGroups is not a function".
Proof.
  unfold openMerchantEditDialog. cbn [fst snd].
  split; [reflexivity|]. split; [reflexivity|]. split.
  - unfold getLiveMerchantData. cbn [enableMerchantEditingCache with_cache merchantEditingCache
      enabled negb rowsData].
    apply (live_returns (enableMerchantEditingCache a) _ [] no_inherited_key_empty).
  - unfold getLiveMerchantData. cbn [enableMerchantEditingCache with_cache merchantEditingCache
      enabled negb rowsData].
    apply live_not_undefined_method. discriminate.
Qed.

End LiveDataFacts.

(** * Properties of the column letters and of the grid ranges *)

Module ColumnLetterFacts.
Import Js JsString JsStringFacts Regex SheetsAPI SheetsAPIFacts App MerchantCleaner SheetsRange RegexRunFacts.

Lemma code_ascii_of_N (z : Z) :
  0 <= z < 256 -> Z.of_nat (code (ascii_of_N (Z.to_N z))) = z.
Proof.
  intros H. unfold code.
  replace (ascii_of_N (Z.to_N z)) with (ascii_of_nat (Z.to_nat z)).
  - rewrite nat_ascii_embedding by lia. lia.
  - unfold ascii_of_nat. f_equal. lia.
Qed.

(** The number a column name stands for, read as a numeral in base 26 with
    digits A = 1 ... Z = 26. *)
Fixpoint columnValue (l : chars) : Z :=
  match l with
  | [] => 0
  | c :: l' => (Z.of_nat (code c) - 64) * 26 ^ Z.of_nat (List.length l') + columnValue l'
  end.

Lemma numberToLetter_loop_value (fuel : nat) : forall (num : Z) (result : string),
  0 <= num -> (Z.to_nat num <= fuel)%nat ->
  columnValue (list_ascii_of_string (numberToLetter_loop fuel num result))
  = num * 26 ^ Z.of_nat (List.length (list_ascii_of_string result))
    + columnValue (list_ascii_of_string result).
Proof.
  induction fuel as [|fuel IH]; intros num result Pos Fuel; cbn [numberToLetter_loop].
  - assert (num = 0) by lia. subst. rewrite Z.mul_0_l. reflexivity.
  - destruct (0 <? num) eqn:E.
    2:{ apply Z.ltb_ge in E. assert (num = 0) by lia. subst. rewrite Z.mul_0_l. reflexivity. }
    apply Z.ltb_lt in E.
    assert (Q : 0 <= (num - 1) / 26 <= num - 1) by (Z.div_mod_to_equations; lia).
    rewrite IH by lia.
    cbn [list_ascii_of_string List.length columnValue].
    assert (R : 0 <= (num - 1) mod 26 < 26) by (apply Z.mod_pos_bound; lia).
    rewrite code_ascii_of_N by lia.
    rewrite Nat2Z.inj_succ, Z.pow_succ_r by lia.
    set (P := 26 ^ Z.of_nat (List.length (list_ascii_of_string result))).
    pose proof (Z.div_mod (num - 1) 26 ltac:(lia)) as DM.
    replace (65 + (num - 1) mod 26 - 64) with (1 + (num - 1) mod 26) by lia.
    replace num with (26 * ((num - 1) / 26) + (num - 1) mod 26 + 1) at 3 by lia.
    ring.
Qed.

Lemma numberToLetter_value (num : Z) :
  0 <= num -> columnValue (list_ascii_of_string (numberToLetter num)) = num.
Proof.
  intros Pos. unfold numberToLetter.
  rewrite numberToLetter_loop_value by lia. simpl. lia.
Qed.

Lemma numberToLetter_loop_upper (fuel : nat) : forall (num : Z) (result : string),
  forallb is_upper (list_ascii_of_string result) = true ->
  forallb is_upper (list_ascii_of_string (numberToLetter_loop fuel num result)) = true.
Proof.
  induction fuel as [|fuel IH]; intros num result H; cbn [numberToLetter_loop]; [exact H|].
  destruct (0 <? num); [|exact H].
  apply IH. cbn [list_ascii_of_string forallb]. rewrite H, andb_true_r.
  unfold is_upper.
  assert (R : 0 <= (num - 1) mod 26 < 26) by (apply Z.mod_pos_bound; lia).
  pose proof (code_ascii_of_N (65 + (num - 1) mod 26) ltac:(lia)) as C.
  apply andb_true_iff. split; apply Nat.leb_le; lia.
Qed.

(** X7: column names.  [numberToLetter] writes capital letters only, gives
    the empty string exactly for numbers below 1, and gives different names
    to different positive numbers. *)
Theorem numberToLetter_names_columns :
  (forall num, forallb is_upper (list_ascii_of_string (numberToLetter num)) = true)
  /\ (forall num, numberToLetter num = EmptyString <-> num <= 0)
  /\ (forall n m, 0 <= n -> 0 <= m -> numberToLetter n = numberToLetter m -> n = m).
Proof.
  split; [|split].
  - intros num. apply numberToLetter_loop_upper. reflexivity.
  - intros num. split.
    + intros E. destruct (Z_le_gt_dec num 0) as [|G]; [assumption|exfalso].
      pose proof (numberToLetter_value num ltac:(lia)) as V. rewrite E in V. simpl in V. lia.
    + intros Le. unfold numberToLetter.
      destruct (Z.to_nat num) eqn:F; simpl; [reflexivity|]. lia.
  - intros n m Pn Pm E.
    rewrite <- (numberToLetter_value n Pn), <- (numberToLetter_value m Pm), E. reflexivity.
Qed.

Lemma numberToLetter_loop_zero fuel result : numberToLetter_loop fuel 0 result = result.
Proof. destruct fuel; reflexivity. Qed.

Lemma numberToLetter_single (idx : Z) :
  0 <= idx <= 25 -> numberToLetter (idx + 1) = columnLetterOfIndex idx.
Proof.
  intros H. unfold numberToLetter, columnLetterOfIndex, fromCharCode.
  destruct (Z.to_nat (idx + 1)) as [|f] eqn:F; [lia|].
  cbn [numberToLetter_loop].
  replace (0 <? idx + 1) with true by (symmetry; apply Z.ltb_lt; lia).
  replace (idx + 1 - 1) with idx by lia.
  rewrite Z.div_small, Z.mod_small by lia.
  apply numberToLetter_loop_zero.
Qed.

(** X8: the two ways of naming a column.  [numberToLetter(index + 1)], used
    by the commit of the edit cache, and [String.fromCharCode(65 + index)],
    used by the automatic cleaning and by the clearing of the groups, give
    the same name exactly for the 26 columns A to Z (the code units compared
    are those below 256). *)
Theorem column_letters_agree (index : Z) :
  0 <= index -> 65 + index < 256 ->
  (numberToLetter (index + 1) = columnLetterOfIndex index <-> index <= 25).
Proof.
  intros Pos _. split.
  - intros E.
    pose proof (numberToLetter_value (index + 1) ltac:(lia)) as V.
    pose proof (numberToLetter_loop_upper (Z.to_nat (index + 1)) (index + 1) EmptyString eq_refl) as U.
    fold (numberToLetter (index + 1)) in U.
    rewrite E in V, U. unfold columnLetterOfIndex, fromCharCode in V, U.
    cbn [list_ascii_of_string columnValue forallb List.length] in V, U.
    rewrite andb_true_r in U. unfold is_upper in U.
    apply andb_true_iff in U. destruct U as (_ & U). apply Nat.leb_le in U.
    change (26 ^ Z.of_nat 0) with 1 in V. lia.
  - intros Le. apply numberToLetter_single. lia.
Qed.

Lemma column_letters_agree_witness :
  numberToLetter (8 + 1) = columnLetterOfIndex 8
  /\ (numberToLetter (26 + 1) = columnLetterOfIndex 26 -> False).
Proof.
  split.
  - apply (column_letters_agree 8); lia.
  - intros E. apply (column_letters_agree 26) in E; lia.
Defined.

(** ** Decimal row numbers *)

Definition digitStep (acc : Z) (c : ascii) : Z := acc * 10 + (Z.of_nat (code c) - 48).

Lemma parse_uint (d : Decimal.uint) : forall acc : nat,
  fold_left digitStep (list_ascii_of_string (NilEmpty.string_of_uint d)) (Z.of_nat acc)
  = Z.of_nat (Nat.of_uint_acc d acc).
Proof.
  induction d; intros acc; cbn [NilEmpty.string_of_uint list_ascii_of_string fold_left Nat.of_uint_acc];
    [reflexivity|..];
    rewrite <- IHd; f_equal; unfold digitStep; rewrite !Nat.tail_mul_spec; cbn; lia.
Qed.

Lemma parseDigits_decimal (n : nat) :
  parseDigits (list_ascii_of_string (decimal n)) = Z.of_nat n.
Proof.
  unfold parseDigits, decimal.
  change (fun acc c => acc * 10 + (Z.of_nat (code c) - 48)) with digitStep.
  etransitivity; [exact (parse_uint (Nat.to_uint n) 0)|].
  change (Nat.of_uint_acc (Nat.to_uint n) 0) with (Nat.of_uint (Nat.to_uint n)).
  rewrite DecimalNat.Unsigned.of_to. reflexivity.
Qed.

Lemma uint_digits (d : Decimal.uint) :
  forallb is_digit (list_ascii_of_string (NilEmpty.string_of_uint d)) = true.
Proof. induction d; simpl; auto. Qed.

Lemma decimal_digits (n : nat) : forallb is_digit (list_ascii_of_string (decimal n)) = true.
Proof. apply uint_digits. Qed.

Lemma upper_not_digit (l : chars) :
  forallb is_upper l = true -> forallb (fun c => negb (is_digit c)) l = true.
Proof.
  intros H. rewrite forallb_forall in *. intros c Hc. specialize (H c Hc).
  unfold is_upper, is_digit in *. apply andb_true_iff in H. destruct H as (H1 & H2).
  apply Nat.leb_le in H1. apply negb_true_iff, andb_false_iff. right.
  apply Nat.leb_gt. lia.
Qed.

(** X9: the cell a batch request addresses.  For the cell name the
    application builds for column [col] and row [rowIndex]
    ([numberToLetter(col + 1)] followed by the row number), the grid range
    computed by [batchUpdateCells] is the single row [rowIndex]; its column
    is [col] for the columns A to Z, and a column below 26, so another one,
    for every column past Z. *)
Theorem gridRangeOf_cell_name (col : Z) (rowIndex : nat) :
  0 <= col ->
  exists g,
    gridRangeOf (numberToLetter (col + 1) ++ decimal (rowIndex + 1)) = Returned g
    /\ startRowIndex g = Z.of_nat rowIndex
    /\ endRowIndex g = Z.of_nat rowIndex + 1
    /\ endColumnIndex g = startColumnIndex g + 1
    /\ (col <= 25 -> startColumnIndex g = col)
    /\ (25 < col -> 0 <= startColumnIndex g <= 25 /\ startColumnIndex g <> col).
Proof.
  intros Pos.
  remember (list_ascii_of_string (numberToLetter (col + 1))) as letters eqn:El0.
  remember (list_ascii_of_string (decimal (rowIndex + 1))) as digits eqn:Ed0.
  assert (U : forallb is_upper letters = true)
    by (subst letters; exact (numberToLetter_loop_upper _ _ EmptyString eq_refl)).
  assert (D : forallb is_digit digits = true) by (subst digits; apply decimal_digits).
  assert (PD : parseDigits digits = Z.of_nat rowIndex + 1).
  { subst digits. rewrite parseDigits_decimal. lia. }
  assert (D1 : digits <> []).
  { intros E. rewrite E in PD. cbn in PD. lia. }
  assert (L1 : letters <> []).
  { intros E. pose proof (numberToLetter_value (col + 1) ltac:(lia)) as V.
    rewrite <- El0, E in V. cbn in V. lia. }
  unfold gridRangeOf. rewrite chars_append, <- El0, <- Ed0.
  cbn [flag_i source re_digits]. unfold search.
  replace (List.length (letters ++ digits) <? 0)%nat with false by reflexivity.
  cbn [skipn]. rewrite search_from_plus_cls.
  rewrite dropWhile_app_all, takeWhile_app_all by (apply upper_not_digit, U).
  assert (Hd : match digits with [] => True | c :: _ => negb (is_digit c) = false end).
  { destruct digits as [|c ds]; [exact I|]. simpl in D.
    apply andb_true_iff in D. destruct D as (-> & _). reflexivity. }
  rewrite (dropWhile_stop _ _ Hd), (takeWhile_stop _ _ Hd), app_nil_r.
  destruct digits as [|d0 ds] eqn:Ed; [congruence|]. rewrite <- Ed in *.
  rewrite (takeWhile_whole _ _ D).
  cbv zeta.
  replace (0 + List.length letters + List.length digits - (0 + List.length letters))%nat
    with (List.length digits) by lia.
  cbn [Nat.add].
  rewrite skipn_app, skipn_all, Nat.sub_diag. cbn [skipn app].
  replace (List.length letters + List.length digits - List.length letters)%nat
    with (List.length digits) by lia.
  rewrite firstn_all, PD.
  destruct letters as [|c0 ls]; [congruence|]. rename El0 into El1.
  cbn [app].
  eexists. split; [reflexivity|]. cbn [startRowIndex endRowIndex startColumnIndex endColumnIndex].
  split; [lia|]. split; [reflexivity|]. split; [lia|].
  assert (C0 : 65 <= Z.of_nat (code c0) <= 90).
  { simpl in U. apply andb_true_iff in U. destruct U as (U0 & _).
    unfold is_upper in U0. apply andb_true_iff in U0. destruct U0 as (A & B).
    apply Nat.leb_le in A, B. lia. }
  split.
  - intros Le.
    pose proof (numberToLetter_single col ltac:(lia)) as S1.
    rewrite S1 in El1. unfold columnLetterOfIndex, fromCharCode in El1.
    cbn [list_ascii_of_string] in El1.
    assert (Ec : c0 = ascii_of_N (Z.to_N (65 + col))) by congruence.
    rewrite Ec, code_ascii_of_N by lia. lia.
  - intros Gt. lia.
Qed.

Lemma gridRangeOf_cell_name_witness :
  exists g, gridRangeOf "AA12" = Returned g /\ startColumnIndex g = 0.
Proof.
  destruct (gridRangeOf_cell_name 26 11) as (g & E & _); [lia|].
  exists g. split; [exact E|].
  vm_compute in E. inversion E. reflexivity.
Defined.

End ColumnLetterFacts.

(** * Properties of the column detection *)

Module ColumnDetectionFacts.
Import Js JsString JsStringFacts SheetsAPI App MerchantCleaner SheetsRange ColumnDetection.

(** A header that contains "merchant group" contains both words. *)
Lemma mentions_merchant_group (h : cell) :
  mentions "merchant group" h = true ->
  mentions "merchant" h = true /\ mentions "group" h = true.
Proof.
  destruct h as [s| |]; simpl; try discriminate.
  rewrite !andb_true_iff. intros (N & I). unfold includes in *.
  apply includes_chars_spec in I. destruct I as (a & b & E).
  split; (split; [exact N|]); apply includes_chars_spec; rewrite E.
  - exists a, (list_ascii_of_string " group" ++ b). reflexivity.
  - exists (a ++ list_ascii_of_string "merchant "), b.
    rewrite <- app_assoc. reflexivity.
Qed.

(** ** [findIndex] *)

Lemma findIndex_from_ext (p q : cell -> bool) (headers : list cell) :
  (forall h, In h headers -> p h = q h) ->
  forall i, findIndex_from p headers i = findIndex_from q headers i.
Proof.
  induction headers as [|h hs IH]; intros E i; simpl; [reflexivity|].
  rewrite (E h (or_introl eq_refl)), IH by (intros; apply E; right; assumption).
  reflexivity.
Qed.

Lemma findIndex_from_none (p : cell -> bool) (headers : list cell) : forall i,
  0 <= i ->
  (findIndex_from p headers i = -1 <-> forall h, In h headers -> p h = false).
Proof.
  induction headers as [|h hs IH]; intros i Pos; simpl.
  - split; [intros _ h []|reflexivity].
  - destruct (p h) eqn:E.
    + split; [lia|]. intros H. rewrite (H h (or_introl eq_refl)) in E. discriminate.
    + rewrite IH by lia. split.
      * intros H x [<-|Hx]; [exact E|apply H, Hx].
      * intros H x Hx. apply H. right. exact Hx.
Qed.

Lemma findIndex_from_found (p : cell -> bool) (headers : list cell) : forall i,
  0 <= i -> findIndex_from p headers i <> -1 ->
  i <= findIndex_from p headers i < i + Z.of_nat (List.length headers)
  /\ exists h, nth_error headers (Z.to_nat (findIndex_from p headers i - i)) = Some h
               /\ p h = true.
Proof.
  induction headers as [|h hs IH]; intros i Pos; simpl; [congruence|].
  destruct (p h) eqn:E; intros N.
  - split; [lia|]. exists h. rewrite Z.sub_diag. split; [reflexivity|exact E].
  - destruct (IH (i + 1) ltac:(lia) N) as (R & x & Hx & Px). split; [lia|].
    exists x. split; [|exact Px].
    replace (Z.to_nat (findIndex_from p hs (i + 1) - i))
      with (S (Z.to_nat (findIndex_from p hs (i + 1) - (i + 1)))) by lia.
    exact Hx.
Qed.

Lemma findIndex_found (p : cell -> bool) (headers : list cell) :
  findIndex p headers <> -1 ->
  0 <= findIndex p headers < Z.of_nat (List.length headers)
  /\ exists h, nth_error headers (Z.to_nat (findIndex p headers)) = Some h /\ p h = true.
Proof.
  intros N. destruct (findIndex_from_found p headers 0 ltac:(lia) N) as (R & h & Hh & Ph).
  unfold findIndex. split; [lia|]. exists h. rewrite Z.sub_0_r in Hh. auto.
Qed.

Lemma findIndex_exclusive (p q : cell -> bool) (headers : list cell) :
  (forall h, p h = true -> q h = false) ->
  findIndex p headers <> -1 -> findIndex p headers <> findIndex q headers.
Proof.
  intros X N E.
  destruct (findIndex_found p headers N) as (_ & h & Hh & Ph).
  assert (N' : findIndex q headers <> -1) by congruence.
  destruct (findIndex_found q headers N') as (_ & h' & Hh' & Qh).
  rewrite <- E, Hh in Hh'. inversion Hh'; subst h'.
  rewrite (X h Ph) in Qh. discriminate.
Qed.

(** X10: the merchant column is never taken for the group column.  The
    position [findColumnIndices] finds for the merchant names, when there is
    one, lies inside the header row and differs from the position of the
    merchant groups; the same holds of the category column and the column
    of the category groups. *)
Theorem detect_separates_name_and_group (rowsData : table) :
  let d := detect rowsData in
  let width := Z.of_nat (List.length (hd [] rowsData)) in
  (d_merchant d <> -1 ->
     0 <= d_merchant d < width /\ d_merchant d <> d_merchantGroup d)
  /\ (d_category d <> -1 ->
     0 <= d_category d < width /\ d_category d <> d_categoryGroup d).
Proof.
  assert (H : match rowsData with h :: _ => h | [] => [] end = hd [] rowsData)
    by (destruct rowsData; reflexivity).
  cbv zeta. unfold detect.
  cbn [d_merchant d_merchantGroup d_category d_categoryGroup]. rewrite H.
  split; intros N; (split; [apply (findIndex_found _ _ N)|]);
    apply findIndex_exclusive; try exact N;
    intros h Ph; apply andb_true_iff in Ph; destruct Ph as (A & B);
    apply negb_true_iff in B; rewrite A, B; reflexivity.
Qed.

(** ** [ensureColumn] *)

Lemma findIndex_lower (p : cell -> bool) (headers : list cell) :
  -1 <= findIndex p headers.
Proof.
  destruct (Z.eq_dec (findIndex p headers) (-1)) as [E|N]; [lia|].
  pose proof (findIndex_found p headers N). lia.
Qed.

Lemma ensureColumn_index (data : table) (store : request -> bool) (columnName : string)
    (i : Z) (qs : list request) :
  ensureColumn data store columnName = (Returned i, qs) ->
  0 <= i <= Z.of_nat (List.length (hd [] data)).
Proof.
  unfold ensureColumn. destruct data as [|headers rest]; [discriminate|].
  cbn [hd]. cbv zeta.
  destruct (Z.eqb_spec (findIndex (mentions (toLowerCase columnName)) headers) (-1)) as [E|N].
  - destruct (store _); [|discriminate]. intros H. inversion H. lia.
  - intros H. inversion H; subst.
    pose proof (findIndex_found _ headers N). lia.
Qed.

(** X11: a missing "Merchant Group" column is appended.  When no header
    mentions both "merchant" and "group", [ensureColumn] finds no header
    containing "merchant group" either: it writes the name into the first
    cell after the header row and returns that position, or fails with the
    write. *)
Theorem ensureColumn_appends_merchant_group (headers : row) (rest : table)
    (store : request -> bool) :
  findIndex (fun h => mentions "merchant" h && mentions "group" h) headers = -1 ->
  let columnIndex := Z.of_nat (List.length headers) in
  let q := UPDATE (numberToLetter (columnIndex + 1) ++ "1") (JStr "Merchant Group") in
  ensureColumn (headers :: rest) store "Merchant Group"
  = if store q then (Returned columnIndex, [q]) else (Thrown "Update failed", [q]).
Proof.
  intros N. cbv zeta. unfold ensureColumn.
  change (toLowerCase "Merchant Group") with "merchant group".
  assert (E : findIndex (mentions "merchant group") headers = -1).
  { apply findIndex_from_none; [lia|]. intros h Hh.
    destruct (mentions "merchant group" h) eqn:M; [|reflexivity].
    apply mentions_merchant_group in M. destruct M as (A & B).
    apply (proj1 (findIndex_from_none _ headers 0 ltac:(lia))) with (h := h) in N; [|exact Hh].
    rewrite A, B in N. discriminate. }
  rewrite E. reflexivity.
Qed.

Lemma ensureColumn_appends_merchant_group_witness :
  ensureColumn [[JStr "Date"; JStr "Amount"; JStr "Merchant"]] (fun _ => true) "Merchant Group"
  = (Returned 3, [UPDATE "D1" (JStr "Merchant Group")]).
Proof.
  apply (ensureColumn_appends_merchant_group [JStr "Date"; JStr "Amount"; JStr "Merchant"] []
           (fun _ => true)).
  reflexivity.
Defined.

(** ** [findColumnIndices] *)

Lemma ensureColumn_requests (data : table) (store : request -> bool) (columnName : string)
    (c : completion Z) (qs : list request) :
  ensureColumn data store columnName = (c, qs) ->
  forall q, In q qs -> exists range, q = UPDATE range (JStr columnName).
Proof.
  unfold ensureColumn. destruct data as [|headers rest].
  - intros H. inversion H. intros q [].
  - cbv zeta. destruct (_ =? -1).
    + destruct (store _); intros H; inversion H; intros q [<-|[]]; eexists; reflexivity.
    + intros H. inversion H. intros q [].
Qed.

Lemma ensureStep_returned sheet store name cur set st d' qs :
  ensureStep sheet store name cur set st = (Returned d', qs) ->
  exists d0 qs0 qs1,
    st = (Returned d0, qs0) /\ qs = qs0 ++ qs1
    /\ (forall q, In q qs1 -> exists range, q = UPDATE range (JStr name))
    /\ (d' = d0 \/ exists i, d' = set d0 i).
Proof.
  unfold ensureStep. destruct st as [[d0|e] qs0]; [|discriminate].
  destruct (cur =? -1).
  - destruct (ensureColumn sheet store name) as [[i|e] qs1] eqn:E; [|discriminate].
    intros H. inversion H; subst. exists d0, qs0, qs1.
    repeat split; [apply (ensureColumn_requests _ _ _ _ _ E)|right; exists i; reflexivity].
  - intros H. inversion H; subst. exists d', qs, []. rewrite app_nil_r.
    repeat split; [intros q []|left; reflexivity].
Qed.

Lemma ensureColumn_category_alias (headers : row) (rest : table) (store : request -> bool) :
  findIndex (fun h => mentions "category" h && negb (mentions "group" h)) headers = -1 ->
  findIndex (fun h => mentions "category" h && mentions "group" h) headers <> -1 ->
  ensureColumn (headers :: rest) store "Category"
  = (Returned (findIndex (fun h => mentions "category" h && mentions "group" h) headers), []).
Proof.
  intros N F. unfold ensureColumn. change (toLowerCase "Category") with "category".
  assert (E : findIndex (mentions "category") headers
              = findIndex (fun h => mentions "category" h && mentions "group" h) headers).
  { apply findIndex_from_ext. intros h Hh.
    apply (proj1 (findIndex_from_none _ headers 0 ltac:(lia))) with (h := h) in N; [|exact Hh].
    destruct (mentions "category" h), (mentions "group" h); try reflexivity; discriminate. }
  cbv zeta. rewrite E.
  destruct (Z.eqb_spec (findIndex (fun h => mentions "category" h && mentions "group" h) headers) (-1));
    [contradiction|reflexivity].
Qed.

(** X12: a "Category Group" column stands in for a missing "Category"
    column.  When the header row has no category column but has a column of
    category groups, and the sheet is unchanged since it was loaded,
    [findColumnIndices] sends no request for the category: [ensureColumn]
    accepts the first header containing "category", so the category
    position becomes the position of the category groups. *)
Theorem findColumnIndices_category_alias (rowsData sheet2 sheet3 : table)
    (store : request -> bool) (d' : detected) (qs : list request) :
  d_category (detect rowsData) = -1 ->
  d_categoryGroup (detect rowsData) <> -1 ->
  findColumnIndices rowsData rowsData sheet2 sheet3 store = (Returned d', qs) ->
  d_category d' = d_categoryGroup d'
  /\ d_categoryGroup d' = d_categoryGroup (detect rowsData)
  /\ forall range, ~ In (UPDATE range (JStr "Category")) qs.
Proof.
  intros N F. unfold findColumnIndices. cbv zeta.
  set (d := detect rowsData) in *.
  intros H.
  apply ensureStep_returned in H. destruct H as (d2 & qs2 & qs3 & H & -> & Q3 & D3).
  apply ensureStep_returned in H. destruct H as (d1 & qs1 & qs2' & H & -> & Q2 & D2).
  unfold ensureStep in H. rewrite N in H. cbn [Z.eqb] in H.
  destruct rowsData as [|headers rest]; [exfalso; apply F; reflexivity|].
  rewrite (ensureColumn_category_alias headers rest store N F) in H.
  inversion H; subst d1 qs1. clear H.
  assert (C : d_category d' = d_categoryGroup d /\ d_categoryGroup d' = d_categoryGroup d).
  { destruct D3 as [->|(i & ->)]; destruct D2 as [->|(j & ->)]; split; reflexivity. }
  destruct C as (C1 & C2). split; [congruence|]. split; [exact C2|].
  intros range I. cbn [app] in I. apply in_app_or in I.
  destruct I as [I|I]; [apply Q2 in I|apply Q3 in I]; destruct I as (r & I); discriminate.
Qed.

Definition sample_headers : table :=
  [[JStr "Date"; JStr "Amount"; JStr "Merchant"; JStr "Category Group"; JStr "Budget"]].

Lemma findColumnIndices_category_alias_witness :
  let d' := {| d_account := -1; d_category := 3; d_categoryGroup := 3; d_recurring := -1;
               d_merchantGroup := 5; d_merchant := 2; d_payweek := -1; d_budget := 4;
               d_isGrouped := -1 |} in
  d_category d' = d_categoryGroup d'.
Proof.
  intros d'.
  refine (proj1 (findColumnIndices_category_alias sample_headers [] sample_headers
                   (fun _ => true) d' [UPDATE "F1" (JStr "Merchant Group")] _ _ _)).
  - reflexivity.
  - vm_compute. discriminate.
  - vm_compute. reflexivity.
Defined.

(** Position [i] is the first header of [headers] that satisfies [p]. *)
Definition firstAt (p : cell -> bool) (headers : row) (i : Z) : Prop :=
  0 <= i < Z.of_nat (List.length headers)
  /\ (exists h, nth_error headers (Z.to_nat i) = Some h /\ p h = true)
  /\ forall j h, (j < Z.to_nat i)%nat -> nth_error headers j = Some h -> p h = false.

Lemma findIndex_from_first (p : cell -> bool) (headers : list cell) : forall i,
  0 <= i -> findIndex_from p headers i <> -1 ->
  forall j h, (j < Z.to_nat (findIndex_from p headers i - i))%nat ->
    nth_error headers j = Some h -> p h = false.
Proof.
  induction headers as [|x hs IH]; intros i Pos N j h Lt E; [destruct j; discriminate|].
  cbn [findIndex_from] in *. destruct (p x) eqn:Px.
  - rewrite Z.sub_diag in Lt. simpl in Lt. lia.
  - destruct j as [|j]; [simpl in E; inversion E; subst; exact Px|].
    simpl in E. apply (IH (i + 1) ltac:(lia) N j h); [|exact E].
    pose proof (findIndex_from_found p hs (i + 1) ltac:(lia) N) as (R & _). lia.
Qed.

Lemma findIndex_firstAt (p : cell -> bool) (headers : list cell) :
  findIndex p headers <> -1 -> firstAt p headers (findIndex p headers).
Proof.
  intros N. destruct (findIndex_found p headers N) as (R & H).
  split; [exact R|]. split; [exact H|].
  intros j h Lt E. apply (findIndex_from_first p headers 0 ltac:(lia) N j h); [|exact E].
  unfold findIndex in Lt. rewrite Z.sub_0_r. exact Lt.
Qed.

Lemma findIndex_none (p : cell -> bool) (headers : list cell) :
  findIndex p headers = -1 -> forall h, In h headers -> p h = false.
Proof. apply findIndex_from_none. lia. Qed.

(** What [ensureColumn] answers on a sheet: the position of the first header
    that contains the name, with nothing written, or the position just past
    the header row, after the one write of the name into that cell. *)
Definition ensured (sheet : table) (store : request -> bool) (columnName : string)
    (i : Z) (written : list request) : Prop :=
  exists headers rest,
    sheet = headers :: rest
    /\ ((firstAt (mentions (toLowerCase columnName)) headers i /\ written = [])
        \/ ((forall h, In h headers -> mentions (toLowerCase columnName) h = false)
            /\ i = Z.of_nat (List.length headers)
            /\ written = [UPDATE (numberToLetter (i + 1) ++ "1") (JStr columnName)]
            /\ store (UPDATE (numberToLetter (i + 1) ++ "1") (JStr columnName)) = true)).

Lemma ensureColumn_ensured (sheet : table) (store : request -> bool) (columnName : string)
    (i : Z) (written : list request) :
  ensureColumn sheet store columnName = (Returned i, written) ->
  ensured sheet store columnName i written.
Proof.
  unfold ensureColumn, ensured. destruct sheet as [|headers rest]; [discriminate|].
  cbv zeta. intros H. exists headers, rest. split; [reflexivity|].
  destruct (Z.eqb_spec (findIndex (mentions (toLowerCase columnName)) headers) (-1)) as [E|N].
  - destruct (store _) eqn:S; [|discriminate]. inversion H; subst. right.
    split; [apply findIndex_none, E|]. auto.
  - inversion H; subst. left. split; [apply findIndex_firstAt, N|reflexivity].
Qed.

(** How [findColumnIndices] locates a column it needs: in the header row it
    has in memory or, when no header there fits, through [ensureColumn] on
    the sheet. *)
Definition located (p : cell -> bool) (rowsData sheet : table) (store : request -> bool)
    (columnName : string) (i : Z) (written : list request) : Prop :=
  (firstAt p (hd [] rowsData) i /\ written = [])
  \/ ((forall h, In h (hd [] rowsData) -> p h = false)
      /\ ensured sheet store columnName i written).

Lemma firstAt_nonneg p headers i : firstAt p headers i -> 0 <= i.
Proof. intros (R & _). lia. Qed.

Lemma located_nonneg p rowsData sheet store columnName i written :
  located p rowsData sheet store columnName i written -> 0 <= i.
Proof.
  intros [(F & _)|(_ & headers & rest & _ & [(F & _)|(_ & -> & _)])];
    [apply (firstAt_nonneg _ _ _ F)|apply (firstAt_nonneg _ _ _ F)|lia].
Qed.

Lemma located_length p rowsData sheet store columnName i written :
  located p rowsData sheet store columnName i written -> (List.length written <= 1)%nat.
Proof.
  intros [(_ & ->)|(_ & headers & rest & _ & [(_ & ->)|(_ & _ & -> & _)])]; simpl; lia.
Qed.

Lemma ensureStep_located (p : cell -> bool) (rowsData sheet : table) (store : request -> bool)
    (columnName : string) (set : detected -> Z -> detected) (d d' : detected)
    (sent sent' : list request) :
  ensureStep sheet store columnName (findIndex p (hd [] rowsData)) set (Returned d, sent)
    = (Returned d', sent') ->
  exists i written,
    sent' = sent ++ written
    /\ located p rowsData sheet store columnName i written
    /\ ((findIndex p (hd [] rowsData) <> -1 /\ i = findIndex p (hd [] rowsData) /\ d' = d)
        \/ (findIndex p (hd [] rowsData) = -1 /\ d' = set d i)).
Proof.
  unfold ensureStep.
  destruct (Z.eqb_spec (findIndex p (hd [] rowsData)) (-1)) as [E|N].
  - destruct (ensureColumn sheet store columnName) as [[i|e] written] eqn:C; [|discriminate].
    intros H. inversion H; subst. exists i, written. split; [reflexivity|]. split.
    + right. split; [apply findIndex_none, E|apply ensureColumn_ensured, C].
    + right. auto.
  - intros H. inversion H; subst. exists (findIndex p (hd [] rowsData)), [].
    split; [symmetry; apply app_nil_r|]. split.
    + left. split; [apply findIndex_firstAt, N|reflexivity].
    + left. auto.
Qed.

Lemma detect_headers (rowsData : table) :
  match rowsData with h :: _ => h | [] => [] end = hd [] rowsData.
Proof. destruct rowsData; reflexivity. Qed.

(** X13: where the three columns the application writes to come from.  When
    [findColumnIndices] returns, each of the positions of the category, the
    budget and the merchant group is the first fitting header of the header
    row in memory or, when that row has none, what [ensureColumn] answers
    on the sheet as it is then: the first header containing the column
    name, or the position just past the header row after one accepted write
    of the name into that cell.  The requests sent are exactly these
    writes, in the order category, budget, merchant group, so at most
    three; the six other positions are those detected; none of the three is
    left at -1. *)
Theorem findColumnIndices_locates_required (rowsData sheet1 sheet2 sheet3 : table)
    (store : request -> bool) (d' : detected) (qs : list request) :
  findColumnIndices rowsData sheet1 sheet2 sheet3 store = (Returned d', qs) ->
  (exists q1 q2 q3,
     qs = q1 ++ q2 ++ q3
     /\ located (fun h => mentions "category" h && negb (mentions "group" h))
          rowsData sheet1 store "Category" (d_category d') q1
     /\ located (mentions "budget") rowsData sheet2 store "Budget" (d_budget d') q2
     /\ located (fun h => mentions "merchant" h && mentions "group" h)
          rowsData sheet3 store "Merchant Group" (d_merchantGroup d') q3)
  /\ (d_account d', d_categoryGroup d', d_recurring d', d_merchant d', d_payweek d',
      d_isGrouped d')
     = (let d := detect rowsData in
        (d_account d, d_categoryGroup d, d_recurring d, d_merchant d, d_payweek d,
         d_isGrouped d))
  /\ 0 <= d_category d' /\ 0 <= d_budget d' /\ 0 <= d_merchantGroup d'
  /\ (List.length qs <= 3)%nat.
Proof.
  unfold findColumnIndices. cbv zeta.
  set (d := detect rowsData).
  assert (Ec : d_category d
               = findIndex (fun h => mentions "category" h && negb (mentions "group" h))
                   (hd [] rowsData))
    by (unfold d, detect; rewrite detect_headers; reflexivity).
  assert (Eb : d_budget d = findIndex (mentions "budget") (hd [] rowsData))
    by (unfold d, detect; rewrite detect_headers; reflexivity).
  assert (Em : d_merchantGroup d
               = findIndex (fun h => mentions "merchant" h && mentions "group" h)
                   (hd [] rowsData))
    by (unfold d, detect; rewrite detect_headers; reflexivity).
  rewrite Ec, Eb, Em.
  destruct (ensureStep sheet1 store "Category" _ with_category (Returned d, []))
    as [[d1|e1] s1] eqn:S1.
  2:{ intros H. unfold ensureStep in H. discriminate H. }
  destruct (ensureStep sheet2 store "Budget" _ with_budget (Returned d1, s1))
    as [[d2|e2] s2] eqn:S2.
  2:{ intros H. unfold ensureStep in H. discriminate H. }
  intros S3.
  apply ensureStep_located in S1. destruct S1 as (i1 & q1 & -> & L1 & D1).
  apply ensureStep_located in S2. destruct S2 as (i2 & q2 & -> & L2 & D2).
  apply ensureStep_located in S3. destruct S3 as (i3 & q3 & -> & L3 & D3).
  assert (F1 : d_category d' = i1 /\ d_budget d' = i2 /\ d_merchantGroup d' = i3
               /\ (d_account d', d_categoryGroup d', d_recurring d', d_merchant d',
                   d_payweek d', d_isGrouped d')
                  = (d_account d, d_categoryGroup d, d_recurring d, d_merchant d,
                     d_payweek d, d_isGrouped d)).
  { destruct D1 as [(N1 & I1 & ->)|(_ & ->)], D2 as [(N2 & I2 & ->)|(_ & ->)],
      D3 as [(N3 & I3 & ->)|(_ & ->)];
      cbn [d_category d_budget d_merchantGroup d_account d_categoryGroup d_recurring
           d_merchant d_payweek d_isGrouped with_category with_budget with_merchantGroup];
      repeat split; congruence. }
  destruct F1 as (-> & -> & -> & Rest).
  split; [|split; [exact Rest|]].
  - exists q1, q2, q3. cbn [app]. rewrite <- app_assoc. auto.
  - split; [apply (located_nonneg _ _ _ _ _ _ _ L1)|].
    split; [apply (located_nonneg _ _ _ _ _ _ _ L2)|].
    split; [apply (located_nonneg _ _ _ _ _ _ _ L3)|].
    apply located_length in L1, L2, L3. cbn [app]. rewrite !length_app. lia.
Qed.

Lemma findColumnIndices_locates_required_witness :
  let d' := {| d_account := -1; d_category := 3; d_categoryGroup := 3; d_recurring := -1;
               d_merchantGroup := 5; d_merchant := 2; d_payweek := -1; d_budget := 4;
               d_isGrouped := -1 |} in
  (exists q1 q2 q3,
     [UPDATE "F1" (JStr "Merchant Group")] = q1 ++ q2 ++ q3
     /\ located (fun h => mentions "category" h && negb (mentions "group" h))
          sample_headers sample_headers (fun _ => true) "Category" 3 q1
     /\ located (mentions "budget") sample_headers [] (fun _ => true) "Budget" 4 q2
     /\ located (fun h => mentions "merchant" h && mentions "group" h)
          sample_headers sample_headers (fun _ => true) "Merchant Group" 5 q3)
  /\ 0 <= d_merchantGroup d'.
Proof.
  intros d'.
  pose proof (findColumnIndices_locates_required sample_headers sample_headers [] sample_headers
                (fun _ => true) d' [UPDATE "F1" (JStr "Merchant Group")]) as H.
  destruct H as (L & _ & _ & _ & M & _); [vm_compute; reflexivity|].
  split; [exact L|exact M].
Defined.

End ColumnDetectionFacts.

(** * Properties of the week filter and of the filtered rows *)

Module WeekFilterFacts.
Import Js App JsDate JsDateFacts PeriodFilter PeriodFilterFacts.

Lemma setHours_day t h m s ms : setHours t h m s ms = Day t * msPerDay + MakeTime h m s ms.
Proof. reflexivity. Qed.

Lemma weekStart_value now :
  setHours (setDate now (getDate now - getDay now)) 0 0 0 0
  = (Day now - getDay now) * msPerDay.
Proof.
  replace (getDate now - getDay now) with (getDate now + - getDay now) by lia.
  rewrite setDate_shift, setHours_day, Day_shift. unfold MakeTime. lia.
Qed.

Lemma weekEnd_value now :
  let weekStart := setHours (setDate now (getDate now - getDay now)) 0 0 0 0 in
  setHours (setDate weekStart (getDate weekStart + 6)) 23 59 59 999
  = (Day now - getDay now + 6) * msPerDay + (msPerDay - 1).
Proof.
  cbv zeta. rewrite setDate_shift, setHours_day, Day_shift, weekStart_value.
  unfold Day at 1. rewrite Z.div_mul by (unfold msPerDay; lia).
  unfold MakeTime, msPerDay. lia.
Qed.

(** X14: the week filter keeps the calendar week of [now], Sunday to
    Saturday.  For a transaction whose date parses, the filter returns true
    exactly when the date falls in the same Sunday-to-Saturday week as
    [now], whatever the times of day; the first day of that week is a
    Sunday. *)
Theorem week_filter_calendar_week (Date_parse : string -> option Z)
    (a : BudgetTrackerApp) (now : Z) (transaction : row)
    (dateStr : string) (transactionDate : Z) :
  arrayGet transaction 4 = JStr dateStr ->
  dateStr <> EmptyString ->
  Date_parse dateStr = Some transactionDate ->
  (inPeriod Date_parse a Week now transaction = true
   <-> Day transactionDate - getDay transactionDate = Day now - getDay now)
  /\ getDay ((Day now - getDay now) * msPerDay) = 0
  /\ 0 <= getDay transactionDate <= 6.
Proof.
  intros Cell Present Parsed.
  rewrite (inPeriod_parsed Date_parse a now transaction dateStr transactionDate
             Cell Present Parsed Week).
  cbv zeta. rewrite weekEnd_value, weekStart_value.
  rewrite andb_true_iff, !Z.leb_le.
  unfold getDay, Day, msPerDay.
  rewrite Z.div_mul by lia.
  split; [|split].
  - Z.div_mod_to_equations. lia.
  - Z.div_mod_to_equations. lia.
  - Z.div_mod_to_equations. lia.
Qed.

Lemma week_filter_calendar_week_witness :
  let now := instant 2024 3 2 18 30 in
  inPeriod Date_parse_example (changePeriod (construct now) Week) Week now
    (transaction_on "2024-02-29") = true
  /\ inPeriod Date_parse_example (changePeriod (construct now) Week) Week now
    (transaction_on "2024-01-20") = false.
Proof.
  intros now.
  destruct (week_filter_calendar_week Date_parse_example
              (changePeriod (construct now) Week) now
              (transaction_on "2024-02-29") "2024-02-29" (instant 2024 2 29 0 0)
              eq_refl ltac:(discriminate) eq_refl) as (W & _).
  split; [apply W; reflexivity|reflexivity].
Defined.

Section Rows.
Variable Date_parse : string -> option Z.

(** A row the filter can date. *)
Definition dated (r : row) : Prop :=
  exists dateStr transactionDate,
    arrayGet r 4 = JStr dateStr /\ dateStr <> EmptyString
    /\ Date_parse dateStr = Some transactionDate.

Lemma inPeriod_dated a p now r : inPeriod Date_parse a p now r = true -> dated r.
Proof.
  unfold inPeriod, dated. destruct (arrayGet r 4) as [s| |]; try discriminate.
  destruct (String.eqb_spec s EmptyString) as [|N]; [discriminate|].
  destruct (Date_parse s) as [t|] eqn:P; [|discriminate].
  intros _. exists s, t. auto.
Qed.

(** X15: the filtered rows are dated data rows.  Under every selected period
    [getFilteredRows] returns rows below the header row only, and only rows
    whose date cell is a non-empty text that parses; with a period it does
    not know it returns exactly those rows, and with one row or none in the
    table it returns nothing. *)
Theorem getFilteredRows_dated_rows (a : BudgetTrackerApp) (now : Z) (p : period) :
  currentPeriod a = Some p ->
  (forall r, In r (getFilteredRows Date_parse a now) ->
     In r (skipn 1 (rowsData a)) /\ dated r)
  /\ (p = OtherPeriod ->
      forall r, In r (skipn 1 (rowsData a)) -> dated r ->
        In r (getFilteredRows Date_parse a now))
  /\ ((List.length (rowsData a) <= 1)%nat -> getFilteredRows Date_parse a now = [])
  /\ (List.length (getFilteredRows Date_parse a now) <= List.length (rowsData a) - 1)%nat.
Proof.
  intros P. unfold getFilteredRows. rewrite P.
  destruct (Nat.leb_spec (List.length (rowsData a)) 1) as [Le|Gt].
  - split; [intros r []|]. split; [|split; [reflexivity|simpl; lia]].
    intros _ r Hr. destruct (rowsData a) as [|h [|x t]]; simpl in *; try contradiction; lia.
  - split; [|split; [|split]].
    + intros r Hr. apply filter_In in Hr. destruct Hr as (I & F).
      split; [exact I|apply (inPeriod_dated _ _ _ _ F)].
    + intros -> r I (s & t & C & N & D). apply filter_In. split; [exact I|].
      unfold inPeriod. rewrite C. apply String.eqb_neq in N. rewrite N, D. reflexivity.
    + lia.
    + etransitivity; [apply filter_length_le|]. rewrite length_skipn. lia.
Qed.

End Rows.

Lemma getFilteredRows_dated_rows_witness :
  let now := instant 2024 3 2 18 30 in
  let a := with_rows (changePeriod (construct now) Week)
             [[JStr "Account"]; transaction_on "2024-02-29"; transaction_on "2024-01-20"] in
  In (transaction_on "2024-02-29") (skipn 1 (rowsData a))
  /\ dated Date_parse_example (transaction_on "2024-02-29").
Proof.
  intros now a.
  apply (proj1 (getFilteredRows_dated_rows Date_parse_example a now Week eq_refl)).
  vm_compute. left. reflexivity.
Defined.

End WeekFilterFacts.

(** * Properties of the proposed groups: order, name and key alphabet *)

Module GroupShapeFacts.
Import JsString Regex Similarity SimilarityFacts RegexRunFacts JsStringFacts.

(** ** The sort *)

Definition byCount (a b : normalizedMerchant) : Prop := count b <= count a.

Lemma insertByCount_sorted x l :
  Sorted byCount l -> Sorted byCount (insertByCount x l).
Proof.
  induction l as [|y l IH]; intros S; simpl.
  - constructor; constructor.
  - destruct (Z.ltb_spec (count x) (count y)) as [Lt|Ge].
    + inversion S as [|? ? S' H]; subst. constructor; [apply IH, S'|].
      destruct l as [|z l]; simpl.
      * constructor. unfold byCount. lia.
      * destruct (count x <? count z); constructor.
        -- inversion H; assumption.
        -- unfold byCount. lia.
    + constructor; [exact S|]. constructor. unfold byCount. lia.
Qed.

Lemma sortByCount_sorted l : Sorted byCount (sortByCount l).
Proof.
  induction l as [|x l IH]; simpl; [constructor|apply insertByCount_sorted, IH].
Qed.

Lemma sortByCount_strongly_sorted l : StronglySorted byCount (sortByCount l).
Proof.
  apply Sorted_StronglySorted; [|apply sortByCount_sorted].
  intros a b c. unfold byCount. lia.
Qed.

Lemma StronglySorted_map {A B : Type} (R : A -> A -> Prop) (Q : B -> B -> Prop) (f : A -> B) l :
  (forall a b, R a b -> Q (f a) (f b)) ->
  StronglySorted R l -> StronglySorted Q (map f l).
Proof.
  intros H. induction 1 as [|a l S IH F]; simpl; constructor; [exact IH|].
  rewrite Forall_forall in *. intros y Hy. apply in_map_iff in Hy.
  destruct Hy as (x & <- & Hx). apply H, F, Hx.
Qed.

(** ** The name of a group *)

Definition free (c : ascii) : bool := negb (trailing_noise c).

Lemma free_not_space l : forallb free l = true -> forallb (fun c => negb (is_space c)) l = true.
Proof.
  intros H. rewrite forallb_forall in *. intros c Hc. specialize (H c Hc).
  unfold free, trailing_noise in H. apply negb_true_iff in H.
  apply orb_false_iff in H. destruct H as (_ & H). rewrite H. reflexivity.
Qed.

Lemma split_head_token (s : string) :
  trim (split_head re_token_end s)
  = string_of_list_ascii (takeWhile free (list_ascii_of_string s)).
Proof.
  unfold split_head. cbn [flag_i source re_token_end]. unfold search.
  replace (List.length (list_ascii_of_string s) <? 0)%nat with false by reflexivity.
  cbn [skipn]. rewrite search_from_plus_cls.
  fold free.
  pose proof (takeWhile_dropWhile free (list_ascii_of_string s)) as TD.
  pose proof (takeWhile_all free (list_ascii_of_string s)) as TA.
  change (fun c => negb (trailing_noise c)) with free.
  assert (T : trim (string_of_list_ascii (takeWhile free (list_ascii_of_string s)))
              = string_of_list_ascii (takeWhile free (list_ascii_of_string s))).
  { unfold trim. rewrite list_ascii_of_string_of_list_ascii.
    rewrite trim_chars_id by (apply free_not_space, TA). reflexivity. }
  destruct (dropWhile free (list_ascii_of_string s)) as [|x rest] eqn:D.
  - rewrite app_nil_r in TD. rewrite TD in T |- *.
    rewrite string_of_list_ascii_of_string in *. exact T.
  - cbv zeta. cbn [Nat.add]. rewrite <- TD at 2. rewrite firstn_length_app. exact T.
Qed.

(** ** The groups *)

Section Shape.
Variable all : list normalizedMerchant.

Definition entry (m : normalizedMerchant) : string * Z := (original m, count m).

Definition shaped (g : proposedGroup) : Prop :=
  StronglySorted (fun a b => snd b <= snd a) (merchants g)
  /\ (forall e, In e (merchants g) -> exists m, In m all /\ e = entry m)
  /\ exists best others,
       merchants g = best :: others
       /\ groupName g = string_of_list_ascii (takeWhile free (list_ascii_of_string (fst best))).

Lemma visit_shaped st m :
  In m all -> Forall shaped (snd st) -> Forall shaped (snd (visit all st m)).
Proof.
  intros Hm F. destruct st as [processed groups]. unfold visit.
  destruct (mem (original m) processed); [exact F|].
  set (similar := filter _ all).
  destruct (0 <? List.length similar)%nat; [|exact F].
  cbn [snd] in *. apply Forall_app. split; [exact F|]. constructor; [|constructor].
  pose proof (sortByCount_perm (m :: similar)) as P.
  pose proof (sortByCount_strongly_sorted (m :: similar)) as S.
  unfold shaped. cbn [merchants groupName]. split; [|split].
  - apply (StronglySorted_map byCount); [|exact S]. intros a b H. exact H.
  - intros e He. apply in_map_iff in He. destruct He as (x & <- & Hx).
    exists x. split; [|reflexivity].
    apply (Permutation_in _ P) in Hx. destruct Hx as [<-|Hx]; [exact Hm|].
    apply filter_In in Hx. apply Hx.
  - destruct (sortByCount (m :: similar)) as [|best rest] eqn:E.
    + apply Permutation_nil in P. discriminate.
    + exists (entry best), (map entry rest). split; [reflexivity|].
      apply split_head_token.
Qed.

Lemma visit_all_shaped (todo : list normalizedMerchant) : forall st,
  incl todo all -> Forall shaped (snd st) ->
  Forall shaped (snd (fold_left (visit all) todo st)).
Proof.
  induction todo as [|m todo IH]; intros st I F; simpl; [exact F|].
  apply IH; [intros x Hx; apply I; right; exact Hx|].
  apply visit_shaped; [apply I; left; reflexivity|exact F].
Qed.

End Shape.

(** X16: the shape of a proposed group.  In every group that
    [findSimilarMerchants] proposes, the names come with the count the
    count map gives them and in order of decreasing count, and the group is
    named after the first of them: the name of the group is the longest
    beginning of that merchant name that has no digit, "#", "-" or white
    space in it (so it is empty when the name starts with one of them). *)
Theorem findSimilarMerchants_group_shape (merchants0 : list string)
    (merchantCounts : string -> Z) (g : proposedGroup) :
  In g (findSimilarMerchants merchants0 merchantCounts) ->
  StronglySorted (fun a b => snd b <= snd a) (merchants g)
  /\ (forall name n, In (name, n) (merchants g) ->
        In name merchants0 /\ n = merchantCounts name)
  /\ exists best others,
       merchants g = best :: others
       /\ groupName g = string_of_list_ascii (takeWhile free (list_ascii_of_string (fst best)))
       /\ forallb free (list_ascii_of_string (groupName g)) = true.
Proof.
  intros Hg. rewrite findSimilarMerchants_fold in Hg.
  pose proof (visit_all_shaped (map (normalizedOf merchantCounts) merchants0)
                (map (normalizedOf merchantCounts) merchants0) ([], [])
                (incl_refl _) (Forall_nil _)) as F.
  rewrite Forall_forall in F. destruct (F g Hg) as (S & E & best & others & M & N).
  split; [exact S|]. split.
  - intros name n H. destruct (E _ H) as (m & Hm & Em).
    apply in_map_iff in Hm. destruct Hm as (x & <- & Hx).
    unfold entry, normalizedOf in Em. cbn in Em. inversion Em; subst. auto.
  - exists best, others. split; [exact M|]. split; [exact N|].
    rewrite N, list_ascii_of_string_of_list_ascii. apply takeWhile_all.
Qed.

Lemma findSimilarMerchants_group_shape_witness :
  let g := {| groupName := "tim"; merchants := [("tim", 7); ("Tim-2", 7); ("#Tim 1", 3)] |} in
  StronglySorted (fun a b => snd b <= snd a) (merchants g).
Proof.
  intros g.
  refine (proj1 (findSimilarMerchants_group_shape
            ["#Tim 1"; "tim"; "Costco"; "Tim-2"; "COSTCO INC"]
            (lookupCount [("#Tim 1", 3); ("tim", 7); ("Costco", 5); ("Tim-2", 7); ("COSTCO INC", 1)])
            g _)).
  vm_compute. left. reflexivity.
Defined.

(** ** The alphabet of the keys *)

(** A character of a key: a small letter, a digit, "_" or white space. *)
Definition keyChar (c : ascii) : bool :=
  is_lower c || is_digit c || (code c =? 95)%nat || is_space c.

Lemma replace_first_delete_In ic r s x :
  In x (replace_first ic r s []) -> In x s.
Proof.
  unfold replace_first. destruct (search ic r s 0) as [[[b e] cap]|]; [|tauto].
  cbn [expand app]. intros H. apply in_app_or in H.
  destruct H as [H|H]; [apply In_firstn in H|apply In_skipn in H]; exact H.
Qed.

Lemma replace_delete_In (re : RegExp) (s : string) x :
  flag_g re = false ->
  In x (list_ascii_of_string (replace re s EmptyString)) -> In x (list_ascii_of_string s).
Proof.
  intros G. unfold replace. rewrite G, list_ascii_of_string_of_list_ascii.
  apply replace_first_delete_In.
Qed.

(** X17: the alphabet of a normalized key.  Whatever the merchant name, the
    key under which names are compared is made of small letters, digits, "_"
    and white space only, and neither starts nor ends with white space: no
    capital letter and no punctuation survives. *)
Theorem normalize_key_alphabet (merchant : string) :
  let key := list_ascii_of_string (normalize merchant) in
  forallb keyChar key = true
  /\ (forall c rest, key = c :: rest -> is_space c = false)
  /\ (forall c front, key = front ++ [c] -> is_space c = false).
Proof.
  cbv zeta. unfold normalize, trim. rewrite list_ascii_of_string_of_list_ascii.
  split; [|split].
  - apply forallb_forall. intros c Hc. apply In_trim_chars in Hc.
    unfold re_special in Hc. rewrite replace_delete_class in Hc. apply filter_In in Hc.
    destruct Hc as (Hc & K). rewrite negb_involutive in K.
    apply replace_delete_In in Hc; [|reflexivity].
    apply replace_delete_In in Hc; [|reflexivity].
    unfold toLowerCase in Hc. rewrite list_ascii_of_string_of_list_ascii in Hc.
    apply in_map_iff in Hc. destruct Hc as (x & <- & _).
    pose proof (lower_not_upper x) as U.
    unfold keyChar. unfold is_word in K. rewrite U in K. cbn [orb] in K. exact K.
  - intros c rest. apply trim_chars_first.
  - intros c front. apply trim_chars_last.
Qed.

End GroupShapeFacts.

(** * Properties of the memo table and of the bulk cleaning *)

Module BulkCleaningFacts.
Import Js JsString MerchantCleaner MerchantCleanerFacts Similarity SimilarityFacts BulkCleaning.

(** ** The memo table *)

Lemma cacheGet_mapSet_same k v m : cacheGet k (mapSet k v m) = Some v.
Proof.
  induction m as [|[k' v'] m IH]; simpl.
  - rewrite String.eqb_refl. reflexivity.
  - destruct (String.eqb_spec k k') as [E|N]; simpl.
    + rewrite String.eqb_refl. reflexivity.
    + apply String.eqb_neq in N. rewrite N. exact IH.
Qed.

Lemma cacheGet_mapSet_other k k' v m : k' <> k -> cacheGet k' (mapSet k v m) = cacheGet k' m.
Proof.
  intros N. induction m as [|[k0 v0] m IH]; simpl.
  - apply String.eqb_neq in N. rewrite N. reflexivity.
  - destruct (String.eqb_spec k k0) as [E|N0]; simpl.
    + subst k0. apply String.eqb_neq in N. rewrite N. reflexivity.
    + rewrite IH. reflexivity.
Qed.

Lemma mapSet_keys k v m :
  map fst (mapSet k v m) = if mem k (map fst m) then map fst m else map fst m ++ [k].
Proof.
  induction m as [|[k' v'] m IH]; simpl; [reflexivity|].
  unfold mem in *. simpl.
  destruct (String.eqb_spec k k') as [E|N]; simpl; [subst; reflexivity|].
  rewrite IH. destruct (existsb (String.eqb k) (map fst m)); reflexivity.
Qed.

(** X18: [cleanWithGPT4] asks once for a name.  With a key configured and
    the name not yet in the memo table, a reply with a non-blank content is
    returned trimmed and stored; from then on every call for that name
    returns the stored text whatever the reply would be, and leaves the
    cleaner as it is.  A failed request stores nothing: the memo table is
    unchanged and the name still has no entry. *)
Theorem cleanWithGPT4_memoises (reply : gpt_reply) (mc : MerchantCleaner)
    (merchantName : string) :
  getApiKey mc <> EmptyString ->
  cacheGet merchantName (cleaningCache mc) = None ->
  let mc1 := snd (cleanWithGPT4 reply mc merchantName) in
  (forall cleanedName, gpt_try reply = Returned cleanedName ->
     fst (cleanWithGPT4 reply mc merchantName) = Returned cleanedName
     /\ forall reply', cleanWithGPT4 reply' mc1 merchantName = (Returned cleanedName, mc1))
  /\ (forall e, gpt_try reply = Thrown e ->
     cleaningCache mc1 = cleaningCache mc
     /\ fst (cleanWithGPT4 reply mc merchantName)
        = Returned (fst (cleanWithRegex (lastIndex mc) merchantName))).
Proof.
  intros K Miss. apply String.eqb_neq in K. cbv zeta.
  unfold cleanWithGPT4. rewrite K, Miss. split.
  - intros cleanedName ->. cbn [fst snd]. split; [reflexivity|].
    intros reply'. unfold getApiKey in *. cbn [openaiApiKey storedApiKey with_cleaningCache cleaningCache].
    rewrite K, cacheGet_mapSet_same. reflexivity.
  - intros e ->. unfold runRegex.
    destruct (cleanWithRegex (lastIndex mc) merchantName) as [cleaned li].
    cbn [fst snd with_lastIndex cleaningCache]. split; reflexivity.
Qed.

Lemma cleanWithGPT4_memoises_witness :
  let mc1 := snd (cleanWithGPT4 (Content (Some " Napoleon Home Comfort ")) sample_cleaner
                    "SP NAPOLEON HOME COMFO") in
  cleanWithGPT4 (HttpError 429) mc1 "SP NAPOLEON HOME COMFO"
  = (Returned "Napoleon Home Comfort", mc1).
Proof.
  intros mc1.
  refine (proj2 (proj1 (cleanWithGPT4_memoises (Content (Some " Napoleon Home Comfort "))
                          sample_cleaner "SP NAPOLEON HOME COMFO" _ _)
                   "Napoleon Home Comfort" _) (HttpError 429)).
  - discriminate.
  - reflexivity.
  - vm_compute. reflexivity.
Defined.

(** ** The bulk cleaning *)

Lemma addNames_NoDup (l : list string) : forall s,
  NoDup s -> NoDup (fold_left (fun s name => addName name s) l s).
Proof.
  induction l as [|x l IH]; intros s N; simpl; [exact N|].
  apply IH. unfold addName. destruct (mem x s) eqn:M; [exact N|].
  apply mem_false in M. apply NoDup_app; [exact N|repeat constructor; intros []|].
  intros y Hy [<-|[]]. exact (M Hy).
Qed.

Lemma addNames_names (l : list string) : forall s x,
  In x (fold_left (fun s name => addName name s) l s) <-> In x s \/ In x l.
Proof.
  induction l as [|y l IH]; intros s x; simpl; [tauto|].
  rewrite IH, addName_In. intuition congruence.
Qed.

Lemma uniqueNames_spec (merchantNames : list string) :
  NoDup (uniqueNames merchantNames)
  /\ forall x, In x (uniqueNames merchantNames) <-> In x merchantNames /\ nonBlank x = true.
Proof.
  unfold uniqueNames. split; [apply addNames_NoDup; constructor|].
  intros x. rewrite addNames_names, filter_In. simpl. tauto.
Qed.

Lemma cleanLoop_keys replies (todo : list string) : forall mc results,
  NoDup (map fst results ++ todo) ->
  map fst (fst (cleanLoop replies mc results todo)) = map fst results ++ todo.
Proof.
  induction todo as [|x todo IH]; intros mc results N; simpl; [symmetry; apply app_nil_r|].
  assert (F : forall v, map fst (mapSet x v results) = map fst results ++ [x]).
  { intros v. rewrite mapSet_keys. destruct (mem x (map fst results)) eqn:M; [|reflexivity].
    apply mem_In in M. apply NoDup_remove_2 in N. exfalso. apply N.
    apply in_or_app. left. exact M. }
  destruct (cleanMerchantName (replies x) mc x) as [[cleaned|e] mc'];
    rewrite IH, F, <- ?app_assoc; try reflexivity;
    rewrite F, <- app_assoc; exact N.
Qed.

Lemma addNames_distinct (l : list string) : forall s,
  NoDup (s ++ l) -> fold_left (fun s name => addName name s) l s = s ++ l.
Proof.
  induction l as [|x l IH]; intros s N; simpl; [symmetry; apply app_nil_r|].
  unfold addName. destruct (mem x s) eqn:M.
  - apply mem_In in M. apply NoDup_remove_2 in N. exfalso. apply N.
    apply in_or_app. left. exact M.
  - rewrite IH, <- app_assoc; [reflexivity|]. rewrite <- app_assoc. exact N.
Qed.

Lemma NoDup_filter {A : Type} (f : A -> bool) (l : list A) : NoDup l -> NoDup (filter f l).
Proof.
  induction 1 as [|x l H N IH]; simpl; [constructor|].
  destruct (f x); [|exact IH]. constructor; [|exact IH].
  intros I. apply filter_In in I. apply H, I.
Qed.

(** X19: one result for each name to clean.  The map that
    [cleanMerchantNames] returns has exactly one entry for each different
    name of the list that is not blank, whatever the replies to the requests
    are; for a list without repetition, as the callers pass, the entries
    follow the order of the list. *)
Theorem cleanMerchantNames_keys (replies : string -> gpt_reply) (mc : MerchantCleaner)
    (merchantNames : list string) :
  let results := fst (cleanMerchantNames replies mc merchantNames) in
  NoDup (map fst results)
  /\ (forall name, In name (map fst results)
        <-> In name merchantNames /\ nonBlank name = true)
  /\ (NoDup merchantNames -> map fst results = filter nonBlank merchantNames).
Proof.
  cbv zeta. unfold cleanMerchantNames.
  destruct (uniqueNames_spec merchantNames) as (N & I).
  rewrite cleanLoop_keys by exact N. cbn [map app].
  split; [exact N|]. split; [exact I|].
  intros ND. unfold uniqueNames. apply (addNames_distinct _ []).
  apply NoDup_filter, ND.
Qed.

End BulkCleaningFacts.

(** * Properties of the formatters *)

Module FormattersFacts.
Import JsString JsStringFacts Regex RegexRunFacts Formatters.

(** X20: what [sanitizeInput] lets through.  The result is the trimmed
    input without its angle brackets, double quotes and apostrophes, and
    with every other character kept in place: none of the four characters
    is left, and an input that has none of them is only trimmed. *)
Theorem sanitizeInput_removes_markup (input : string) :
  let safe c := negb (dangerous c) in
  list_ascii_of_string (sanitizeInput input)
    = filter safe (list_ascii_of_string (trim input))
  /\ forallb safe (list_ascii_of_string (sanitizeInput input)) = true
  /\ (forallb safe (list_ascii_of_string input) = true -> sanitizeInput input = trim input).
Proof.
  cbv zeta. unfold sanitizeInput, re_dangerous.
  rewrite replace_delete_class. split; [reflexivity|]. split.
  - apply forallb_forall. intros c Hc. apply filter_In in Hc. apply Hc.
  - intros Safe.
    rewrite <- (string_of_list_ascii_of_string (replace _ _ _)), replace_delete_class.
    rewrite <- (string_of_list_ascii_of_string (trim input)) at 2. f_equal.
    apply forallb_filter_id. apply forallb_forall. intros c Hc.
    rewrite forallb_forall in Safe. apply Safe.
    unfold trim in Hc. rewrite list_ascii_of_string_of_list_ascii in Hc.
    apply In_trim_chars, Hc.
Qed.

Lemma sanitizeInput_removes_markup_witness :
  sanitizeInput "  Tim Hortons  " = "Tim Hortons".
Proof.
  etransitivity; [apply (proj2 (proj2 (sanitizeInput_removes_markup "  Tim Hortons  ")))|];
    reflexivity.
Defined.

Lemma substring_length (n : nat) : forall s,
  (n <= String.length s)%nat -> String.length (substring 0 n s) = n.
Proof.
  induction n as [|n IH]; intros s H.
  - destruct s; reflexivity.
  - destruct s as [|c s]; simpl in *; [lia|]. rewrite IH; [reflexivity|lia].
Qed.

Lemma append_length (s1 s2 : string) :
  String.length (s1 ++ s2) = (String.length s1 + String.length s2)%nat.
Proof. induction s1 as [|c s1 IH]; simpl; [reflexivity|rewrite IH; reflexivity]. Qed.

(** X21: the length of a truncated text.  A text of at most [maxLength]
    characters is returned as it is; a longer one becomes its first
    [maxLength] characters followed by three dots, so the result has
    [maxLength + 3] characters: more than [maxLength], and more than the
    text itself when the text is one or two characters over the limit. *)
Theorem truncate_length (text : string) (maxLength : nat) :
  ((String.length text <= maxLength)%nat -> truncate text maxLength = text)
  /\ ((maxLength < String.length text)%nat ->
        String.length (truncate text maxLength) = (maxLength + 3)%nat
        /\ substring 0 maxLength (truncate text maxLength) = substring 0 maxLength text)
  /\ ((maxLength < String.length text < maxLength + 3)%nat ->
        (String.length text < String.length (truncate text maxLength))%nat).
Proof.
  unfold truncate.
  assert (P : forall n s t, (n <= String.length s)%nat ->
                substring 0 n (substring 0 n s ++ t) = substring 0 n s).
  { induction n as [|n IH]; intros s t H.
    - destruct s; simpl; destruct t; reflexivity.
    - destruct s as [|c s]; simpl in *; [lia|]. rewrite IH; [reflexivity|lia]. }
  destruct (Nat.ltb_spec maxLength (String.length text)) as [Lt|Ge].
  - split; [lia|]. rewrite append_length, substring_length by lia. simpl.
    split; [intros _; split; [reflexivity|apply P; lia]|lia].
  - split; [reflexivity|]. split; lia.
Qed.

Lemma truncate_length_witness :
  String.length (truncate "Shoppers Drug Mart" 17) = 20%nat.
Proof.
  apply (proj1 (proj1 (proj2 (truncate_length "Shoppers Drug Mart" 17)) ltac:(simpl; lia))).
Defined.

Lemma upper_idempotent c : upper (upper c) = upper c.
Proof. destruct c as [[] [] [] [] [] [] [] []]; reflexivity. Qed.

Lemma upper_not_lower c : is_lower (upper c) = false.
Proof. destruct c as [[] [] [] [] [] [] [] []]; reflexivity. Qed.

(** X22: [capitalizeFirst] is a normal form.  Applying it twice is the same
    as applying it once; the result has the length of the text, no small
    letter in its first place and no capital letter after it. *)
Theorem capitalizeFirst_idempotent (str : string) :
  capitalizeFirst (capitalizeFirst str) = capitalizeFirst str
  /\ String.length (capitalizeFirst str) = String.length str
  /\ match list_ascii_of_string (capitalizeFirst str) with
     | [] => str = EmptyString
     | c :: rest => is_lower c = false /\ forallb (fun x => negb (is_upper x)) rest = true
     end.
Proof.
  destruct str as [|c rest]; [repeat split|]. cbn [capitalizeFirst]. split; [|split].
  - rewrite upper_idempotent, toLowerCase_idempotent. reflexivity.
  - simpl. f_equal. unfold toLowerCase.
    rewrite string_length_chars, length_map. apply chars_length.
  - cbn [list_ascii_of_string]. split; [apply upper_not_lower|].
    rewrite toLowerCase_chars. apply forallb_forall. intros x Hx.
    apply in_map_iff in Hx. destruct Hx as (y & <- & _).
    rewrite lower_not_upper. reflexivity.
Qed.

End FormattersFacts.

(** * Properties of the validators and of the URL parser *)

Module URLParserFacts.
Import JsString JsStringFacts Regex RegexRunFacts MerchantCleaner Validators URLParser.

(** X23: a validated sheet ID is stable.  What [Validators.sheetId] returns
    is the trimmed argument, of 20 characters or more, and validating it
    again returns it unchanged; the call throws exactly when the argument is
    empty or has fewer than 20 characters once trimmed. *)
Theorem sheetId_validated_is_stable (input : string) :
  (forall validated, sheetId input = Returned validated ->
     validated = trim input
     /\ (20 <= String.length validated)%nat
     /\ sheetId validated = Returned validated)
  /\ ((exists e, sheetId input = Thrown e)
      <-> input = EmptyString \/ (String.length (trim input) < 20)%nat).
Proof.
  unfold sheetId. cbv zeta. split.
  - intros validated. destruct (String.eqb_spec input EmptyString) as [E|N]; [discriminate|].
    destruct (Nat.ltb_spec (String.length (trim input)) 20) as [Lt|Ge]; [discriminate|].
    intros H. inversion H. subst validated. split; [reflexivity|]. split; [exact Ge|].
    rewrite trim_idempotent.
    destruct (String.eqb_spec (trim input) EmptyString) as [E|_].
    + rewrite E in Ge. simpl in Ge. lia.
    + destruct (Nat.ltb_spec (String.length (trim input)) 20); [lia|reflexivity].
  - destruct (String.eqb_spec input EmptyString) as [E|N].
    + split; [auto|]. intros _. eexists. reflexivity.
    + destruct (Nat.ltb_spec (String.length (trim input)) 20) as [Lt|Ge].
      * split; [auto|]. intros _. eexists. reflexivity.
      * split; [intros (e & H); discriminate|intros [E|Lt]; [contradiction|lia]].
Qed.

Lemma sheetId_validated_is_stable_witness :
  sheetId "1BxiMVs0XRA5nFMdKvBdBZjgmUUqptlbs74OgvE2upms"
  = Returned "1BxiMVs0XRA5nFMdKvBdBZjgmUUqptlbs74OgvE2upms".
Proof.
  apply (proj1 (sheetId_validated_is_stable
                  "  1BxiMVs0XRA5nFMdKvBdBZjgmUUqptlbs74OgvE2upms ")).
  reflexivity.
Defined.

(** ** E-mail addresses *)

Lemma search_start ic r (input : chars) :
  search ic r input 0 = search_from ic r 0 input.
Proof. reflexivity. Qed.

Lemma email_match (s : string) :
  email s = true
  <-> match_at false (source emailRegex) 0 (list_ascii_of_string s) <> None.
Proof.
  unfold email, test. cbn [flag_g flag_i emailRegex]. rewrite search_start.
  change (source emailRegex) with
    (Seq Bol (seqs [Plus true (Cls plain); Chr "@"; Plus true (Cls plain);
                    Chr "."; Plus true (Cls plain); Eol])).
  rewrite search_from_anchored.
  destruct (match_at false _ 0 (list_ascii_of_string s)); simpl; split; congruence.
Qed.

(** X24: the addresses [Validators.email] accepts.  A text is accepted
    exactly when it reads [a@b.c] with [a], [b] and [c] not empty and free of
    white space and of "@": one "@" only, and a dot after it that is
    neither its first nor its last character. *)
Theorem email_accepts_exactly (s : string) :
  email s = true
  <-> exists a b c,
        list_ascii_of_string s = a ++ "@"%char :: b ++ "."%char :: c
        /\ a <> [] /\ b <> [] /\ c <> []
        /\ forallb plain a = true /\ forallb plain b = true /\ forallb plain c = true.
Proof.
  rewrite email_match. unfold match_at.
  change (source emailRegex) with
    (Seq Bol (Seq (Plus true (Cls plain)) (Seq (Chr "@") (Seq (Plus true (Cls plain))
       (Seq (Chr ".") (Seq (Plus true (Cls plain)) Eol)))))).
  rewrite exec_seq.
  change (exec found false Bol 0 ?s ?c ?k) with (k 0%nat s c).
  cbv beta. split.
  - intros H. rewrite exec_seq in H.
    apply exec_plus_cls_accepts in H. destruct H as (a & s1 & E1 & Na & Pa & H).
    cbv beta in H. rewrite exec_seq in H.
    apply exec_chr_accepts in H. destruct H as (s2 & -> & H).
    cbv beta in H. rewrite exec_seq in H.
    apply exec_plus_cls_accepts in H. destruct H as (b & s3 & -> & Nb & Pb & H).
    cbv beta in H. rewrite exec_seq in H.
    apply exec_chr_accepts in H. destruct H as (s4 & -> & H).
    cbv beta in H. rewrite exec_seq in H.
    apply exec_plus_cls_accepts in H. destruct H as (c & s5 & -> & Nc & Pc & H).
    cbv beta in H. apply exec_eol_accepts in H. destruct H as (-> & _).
    exists a, b, c. rewrite app_nil_r in E1. auto 10.
  - intros (a & b & c & E & Na & Nb & Nc & Pa & Pb & Pc). rewrite E.
    rewrite exec_seq. apply exec_plus_cls_accepts.
    exists a, ("@"%char :: b ++ "."%char :: c). repeat split; try assumption.
    cbv beta. rewrite exec_seq. apply exec_chr_accepts. eexists. split; [reflexivity|].
    cbv beta. rewrite exec_seq. apply exec_plus_cls_accepts.
    exists b, ("."%char :: c). repeat split; try assumption.
    cbv beta. rewrite exec_seq. apply exec_chr_accepts. eexists. split; [reflexivity|].
    cbv beta. rewrite exec_seq. apply exec_plus_cls_accepts.
    exists c, []. rewrite app_nil_r. repeat split; try assumption.
    cbv beta. apply exec_eol_accepts. split; [reflexivity|discriminate].
Qed.

Lemma email_accepts_exactly_witness : email "dan@example.com" = true.
Proof.
  apply email_accepts_exactly.
  exists (list_ascii_of_string "dan"), (list_ascii_of_string "example"),
    (list_ascii_of_string "com").
  repeat split; discriminate.
Defined.

(** ** Sheet IDs without a slash *)

Lemma matchGroup_needs_literal (l : string) (r : regex) (s : string) (c : ascii) :
  In c (list_ascii_of_string l) -> ~ In c (list_ascii_of_string s) ->
  matchGroup (plainRegExp (Seq (lit l) r)) s = None.
Proof.
  intros Hc N. unfold matchGroup. cbn [flag_i source plainRegExp]. rewrite search_start.
  destruct (search_from false (Seq (lit l) r) 0 (list_ascii_of_string s)) as [m|] eqn:E;
    [|reflexivity].
  apply search_from_lit_occurs in E. destruct E as (a & b & E). exfalso. apply N.
  rewrite E. apply in_or_app. right. apply in_or_app. left. exact Hc.
Qed.

Lemma no_slash (s : string) :
  includes s "/" = false -> ~ In "/"%char (list_ascii_of_string s).
Proof.
  unfold includes. intros H I. apply in_split in I. destruct I as (a & b & E).
  assert (T : includes_chars (list_ascii_of_string "/") (list_ascii_of_string s) = true).
  { apply includes_chars_spec. exists a, b. rewrite E. reflexivity. }
  rewrite T in H. discriminate.
Qed.

Lemma firstGroup_no_slash (s : string) :
  includes s "/" = false -> firstGroup patterns s = None.
Proof.
  intros H. apply no_slash in H. unfold patterns. cbn [firstGroup].
  rewrite !(matchGroup_needs_literal _ _ s "/"%char); try exact H; try reflexivity;
    cbn; tauto.
Qed.

(** X25: the parser and the validator disagree on a 20-character ID.  For
    an input without a slash, [extractSheetId] returns the trimmed input
    when it has more than 20 characters and [null] otherwise; whatever it
    returns, [Validators.sheetId] accepts and returns unchanged; but an
    input of exactly 20 characters, which the validator accepts, is no
    sheet ID for the parser. *)
Theorem extractSheetId_without_slash (input : string) :
  includes (trim input) "/" = false ->
  (forall id, extractSheetId input = Some id
     <-> id = trim input /\ (20 < String.length id)%nat)
  /\ (forall id, extractSheetId input = Some id -> sheetId input = Returned id)
  /\ (String.length (trim input) = 20%nat ->
      extractSheetId input = None /\ sheetId input = Returned (trim input)).
Proof.
  intros H.
  assert (X : extractSheetId input
              = if (20 <? String.length (trim input))%nat then Some (trim input) else None).
  { unfold extractSheetId. destruct (String.eqb_spec input EmptyString) as [->|N]; [reflexivity|].
    cbv zeta. rewrite H. cbn [negb andb].
    destruct (20 <? String.length (trim input))%nat; [reflexivity|].
    apply firstGroup_no_slash, H. }
  assert (V : (20 <= String.length (trim input))%nat -> sheetId input = Returned (trim input)).
  { intros Ge. unfold sheetId. destruct (String.eqb_spec input EmptyString) as [->|N].
    - simpl in Ge. lia.
    - cbv zeta. destruct (Nat.ltb_spec (String.length (trim input)) 20); [lia|reflexivity]. }
  rewrite X. split; [|split].
  - intros id. destruct (Nat.ltb_spec 20 (String.length (trim input))) as [Lt|Ge].
    + split; [intros E; inversion E; subst; auto|intros (-> & _); reflexivity].
    + split; [discriminate|intros (-> & L); lia].
  - intros id. destruct (Nat.ltb_spec 20 (String.length (trim input))) as [Lt|Ge];
      [|discriminate]. intros E. inversion E; subst. apply V. lia.
  - intros L. rewrite L. split; [reflexivity|apply V; lia].
Qed.

Lemma extractSheetId_without_slash_witness :
  extractSheetId "abcdefghij0123456789" = None
  /\ sheetId "abcdefghij0123456789" = Returned "abcdefghij0123456789".
Proof.
  apply (proj2 (proj2 (extractSheetId_without_slash "abcdefghij0123456789" eq_refl))).
  reflexivity.
Defined.

(** ** The URL built for a bare ID *)

Lemma idChar_plain c :
  idChar c = true ->
  is_space c = false /\ c <> "/"%char /\ lower c <> "."%char /\ lower c <> "/"%char.
Proof.
  destruct c as [[] [] [] [] [] [] [] []]; intros H; try discriminate H;
    repeat split; try reflexivity; discriminate.
Qed.

Lemma includes_chars_skip (p : chars) c l :
  prefix_chars p (c :: l) = false -> includes_chars p (c :: l) = includes_chars p l.
Proof. intros H. cbn [includes_chars]. rewrite H. reflexivity. Qed.

Lemma includes_chars_needs_char (p l : chars) (c : ascii) :
  In c p -> ~ In c l -> includes_chars p l = false.
Proof.
  intros Hc N. destruct (includes_chars p l) eqn:E; [|reflexivity].
  apply includes_chars_spec in E. destruct E as (a & b & E). exfalso. apply N.
  rewrite E. apply in_or_app. right. apply in_or_app. left. exact Hc.
Qed.

Definition sheetUrl (sheetId : string) : string :=
  "https://docs.google.com/spreadsheets/d/" ++ sheetId ++ "/edit".

Section RoundTrip.
Variable sheetId : string.
Hypothesis id_chars : forallb idChar (list_ascii_of_string sheetId) = true.
Hypothesis id_length : (20 < String.length sheetId)%nat.

Let idc := list_ascii_of_string sheetId.

Lemma id_In c : In c idc -> idChar c = true.
Proof. intros H. exact (proj1 (forallb_forall _ _) id_chars c H). Qed.

Lemma id_not_empty : sheetId <> EmptyString.
Proof. intros E. rewrite E in id_length. simpl in id_length. lia. Qed.

Lemma id_trimmed : trim sheetId = sheetId.
Proof.
  unfold trim. rewrite trim_chars_id; [apply string_of_list_ascii_of_string|].
  apply forallb_forall. intros c Hc. apply id_In in Hc.
  apply idChar_plain in Hc. destruct Hc as (-> & _). reflexivity.
Qed.

Lemma id_lower_free (c : ascii) :
  c = "."%char \/ c = "/"%char -> ~ In c (map lower idc).
Proof.
  intros Hc I. apply in_map_iff in I. destruct I as (x & E & Hx).
  apply id_In, idChar_plain in Hx. destruct Hx as (_ & _ & D & S).
  destruct Hc; subst c; contradiction.
Qed.

Lemma id_no_slash : ~ In "/"%char idc.
Proof.
  intros I. apply id_In, idChar_plain in I. destruct I as (_ & N & _). apply N. reflexivity.
Qed.

Lemma id_is_no_url : isAppsScriptUrl sheetId = false /\ isGoogleSheetsUrl sheetId = false.
Proof.
  unfold isAppsScriptUrl, isGoogleSheetsUrl.
  destruct (String.eqb sheetId EmptyString); [split; reflexivity|].
  cbv zeta. rewrite id_trimmed.
  assert (D : ~ In "."%char (list_ascii_of_string (toLowerCase sheetId))).
  { rewrite toLowerCase_chars. apply id_lower_free. left. reflexivity. }
  rewrite !(includes_needs_char _ _ "."%char); try exact D; try reflexivity; cbn; tauto.
Qed.

Lemma id_extracted : extractSheetId sheetId = Some sheetId.
Proof.
  unfold extractSheetId.
  destruct (String.eqb_spec sheetId EmptyString) as [E|_]; [destruct (id_not_empty E)|].
  cbv zeta. rewrite id_trimmed.
  rewrite (includes_needs_char sheetId "/" "/"%char); [|left; reflexivity|exact id_no_slash].
  replace (20 <? String.length sheetId)%nat with true
    by (symmetry; apply Nat.ltb_lt; exact id_length).
  reflexivity.
Qed.

Lemma sheetUrl_chars :
  list_ascii_of_string (sheetUrl sheetId)
  = list_ascii_of_string "https://docs.google.com"
    ++ list_ascii_of_string "/spreadsheets/d/" ++ idc ++ list_ascii_of_string "/edit".
Proof.
  unfold sheetUrl. rewrite !chars_append. reflexivity.
Qed.

Lemma sheetUrl_trimmed : trim (sheetUrl sheetId) = sheetUrl sheetId.
Proof.
  unfold trim. rewrite trim_chars_fixed; [apply string_of_list_ascii_of_string| |].
  - rewrite sheetUrl_chars. intros c rest E. inversion E. reflexivity.
  - rewrite sheetUrl_chars. intros c front E.
    change (list_ascii_of_string "/edit") with (list_ascii_of_string "/edi" ++ ["t"%char]) in E.
    rewrite !app_assoc in E. apply app_inj_tail in E. destruct E as (_ & <-). reflexivity.
Qed.

Lemma idGroup_match pos (k : nat -> chars -> capture -> option found) (tail : chars) res :
  match tail with [] => True | c :: _ => idChar c = false end ->
  k (pos + List.length idc)%nat tail (Some idc) = Some res ->
  exec found false idGroup pos (idc ++ tail) None k = Some res.
Proof.
  intros T K. unfold idGroup. cbn [exec].
  change (exec found false (Seq (Cls idChar) (Star true (Cls idChar))))
    with (exec found false (Plus true (Cls idChar))).
  unfold Plus. rewrite exec_seq.
  destruct idc as [|x rest] eqn:E.
  - exfalso. apply id_not_empty. rewrite <- (string_of_list_ascii_of_string sheetId).
    fold idc. rewrite E. reflexivity.
  - assert (A : forallb idChar (x :: rest) = true) by (rewrite <- E; exact id_chars).
    cbn [forallb] in A. apply andb_true_iff in A. destruct A as (Ax & Ar).
    cbn [app]. rewrite exec_cls_cons, Ax.
    apply exec_star_cls_longest.
    rewrite takeWhile_app_all, dropWhile_app_all by exact Ar.
    rewrite (takeWhile_stop _ _ T), (dropWhile_stop _ _ T), app_nil_r.
    replace (S pos + List.length rest - pos)%nat with (S (List.length rest)) by lia.
    cbn [firstn]. rewrite firstn_length_app.
    replace (S pos + List.length rest)%nat with (pos + List.length (x :: rest))%nat
      by (simpl; lia).
    exact K.
Qed.

Lemma pattern_hit (l : string) pos (tail : chars) :
  match tail with [] => True | c :: _ => idChar c = false end ->
  match_at false (Seq (lit l) idGroup) pos (list_ascii_of_string l ++ idc ++ tail)
  = Some (pos, (pos + String.length l + List.length idc)%nat, Some idc).
Proof.
  intros T. unfold match_at, lit. rewrite exec_seq, exec_lit_chars.
  apply idGroup_match; [exact T|]. rewrite chars_length. reflexivity.
Qed.

Lemma sheetUrl_first_pattern :
  matchGroup (plainRegExp (Seq (lit "/spreadsheets/d/") idGroup)) (sheetUrl sheetId)
  = Some sheetId.
Proof.
  unfold matchGroup. cbn [flag_i source plainRegExp]. rewrite search_start, sheetUrl_chars.
  set (rest := list_ascii_of_string "/spreadsheets/d/" ++ idc ++ list_ascii_of_string "/edit").
  cbn [list_ascii_of_string app].
  do 23 (rewrite search_from_skip by reflexivity).
  unfold rest.
  rewrite (search_from_hit _ _ _ _ _
             (pattern_hit "/spreadsheets/d/" 23 (list_ascii_of_string "/edit") eq_refl)).
  destruct idc as [|x r] eqn:E.
  - exfalso. apply id_not_empty. rewrite <- (string_of_list_ascii_of_string sheetId).
    fold idc. rewrite E. reflexivity.
  - rewrite <- E. unfold idc. rewrite string_of_list_ascii_of_string. reflexivity.
Qed.

Lemma sheetUrl_extracted : extractSheetId (sheetUrl sheetId) = Some sheetId.
Proof.
  unfold extractSheetId. cbv zeta. rewrite sheetUrl_trimmed.
  replace (String.eqb (sheetUrl sheetId) EmptyString) with false by reflexivity.
  replace (includes (sheetUrl sheetId) "/") with true by reflexivity.
  cbn [negb andb]. unfold patterns. cbn [firstGroup].
  rewrite sheetUrl_first_pattern. reflexivity.
Qed.

Lemma sheetUrl_lower_chars :
  list_ascii_of_string (toLowerCase (sheetUrl sheetId))
  = list_ascii_of_string "https://docs.google.com/spreadsheets/d/"
    ++ map lower idc ++ list_ascii_of_string "/edit".
Proof.
  rewrite toLowerCase_chars. unfold sheetUrl. rewrite !chars_append, !map_app. reflexivity.
Qed.

Lemma sheetUrl_is_sheets_url :
  isAppsScriptUrl (sheetUrl sheetId) = false /\ isGoogleSheetsUrl (sheetUrl sheetId) = true.
Proof.
  unfold isAppsScriptUrl, isGoogleSheetsUrl.
  replace (String.eqb (sheetUrl sheetId) EmptyString) with false by reflexivity.
  cbv zeta. rewrite sheetUrl_trimmed. unfold includes. rewrite sheetUrl_lower_chars.
  set (rest := map lower idc ++ list_ascii_of_string "/edit").
  assert (D : ~ In "."%char rest).
  { unfold rest. intros I. apply in_app_or in I. destruct I as [I|I].
    - revert I. apply id_lower_free. left. reflexivity.
    - cbn in I. intuition discriminate. }
  split.
  - cbn [list_ascii_of_string app].
    rewrite !includes_chars_skip by reflexivity.
    rewrite !(includes_chars_needs_char _ rest "."%char); try exact D; try reflexivity;
      cbn; tauto.
  - reflexivity.
Qed.

End RoundTrip.

(** X26: the URL made for a bare sheet ID leads back to the ID.  For an
    input of more than 20 characters taken from the letters, the digits,
    "-" and "_", [smartParse] answers with the type of a bare ID, the ID
    itself and the edit URL of the sheet; [extractSheetId] finds the same ID
    in that URL, and [smartParse] reads the URL as a valid sheet URL with
    that ID. *)
Theorem smartParse_id_round_trip (sheetId : string) :
  forallb idChar (list_ascii_of_string sheetId) = true ->
  (20 < String.length sheetId)%nat ->
  smartParse sheetId
    = {| type := SheetsId; url := sheetUrl sheetId; id := Some sheetId; valid := true |}
  /\ extractSheetId (sheetUrl sheetId) = Some sheetId
  /\ smartParse (sheetUrl sheetId)
    = {| type := Sheets; url := sheetUrl sheetId; id := Some sheetId; valid := true |}.
Proof.
  intros C L.
  pose proof (id_not_empty sheetId L) as N.
  pose proof (id_is_no_url sheetId C) as (A & G).
  pose proof (sheetUrl_is_sheets_url sheetId C) as (A' & G').
  pose proof (sheetUrl_extracted sheetId C L) as X'.
  assert (CU : cleanUrl sheetId = sheetId).
  { unfold cleanUrl. destruct (String.eqb_spec sheetId EmptyString); [contradiction|].
    apply id_trimmed, C. }
  assert (CU' : cleanUrl (sheetUrl sheetId) = sheetUrl sheetId).
  { unfold cleanUrl. replace (String.eqb (sheetUrl sheetId) EmptyString) with false by reflexivity.
    apply sheetUrl_trimmed. }
  split; [|split].
  - unfold smartParse. cbv zeta. rewrite CU, A, G, (id_extracted sheetId C L).
    destruct (String.eqb_spec sheetId EmptyString); [contradiction|reflexivity].
  - exact X'.
  - unfold smartParse. cbv zeta. rewrite CU', A', G', X'. reflexivity.
Qed.

Lemma smartParse_id_round_trip_witness :
  extractSheetId (sheetUrl "1BxiMVs0XRA5nFMdKvBdBZjgmUUqptlbs74OgvE2upms")
  = Some "1BxiMVs0XRA5nFMdKvBdBZjgmUUqptlbs74OgvE2upms".
Proof.
  apply (smartParse_id_round_trip "1BxiMVs0XRA5nFMdKvBdBZjgmUUqptlbs74OgvE2upms");
    [reflexivity|simpl; lia].
Defined.


End URLParserFacts.

(** * Properties of the category groups *)

Module CategoriesFacts.
Import JsString MerchantCleaner JsObject JsObjectFacts Formatters Categories.

Lemma includes_In (l : list string) x : includes l x = true <-> In x l.
Proof.
  unfold includes. rewrite existsb_exists. split.
  - intros (y & Hy & E). apply String.eqb_eq in E. subst. exact Hy.
  - intros H. exists x. split; [exact H|apply String.eqb_refl].
Qed.

Lemma includes_not_In (l : list string) x : includes l x = false <-> ~ In x l.
Proof.
  rewrite <- includes_In. destruct (includes l x); split; congruence.
Qed.

Lemma removeFirst_other x n l : x <> n -> (In x (removeFirst n l) <-> In x l).
Proof.
  intros Ne. induction l as [|y l IH]; simpl; [tauto|].
  destruct (String.eqb_spec n y) as [<-|N]; simpl; [|rewrite IH]; intuition congruence.
Qed.

Lemma removeFirst_gone n l : NoDup l -> ~ In n (removeFirst n l).
Proof.
  induction 1 as [|y l Nin ND IH]; simpl; [tauto|].
  destruct (String.eqb_spec n y) as [<-|N]; [exact Nin|].
  simpl. intros [E|H]; [congruence|exact (IH H)].
Qed.

Lemma removeFirst_absent n l : ~ In n l -> removeFirst n l = l.
Proof.
  induction l as [|y l IH]; simpl; [reflexivity|]. intros H.
  destruct (String.eqb_spec n y) as [<-|N]; [exfalso; apply H; left; reflexivity|].
  rewrite IH; [reflexivity|]. intros I. apply H. right. exact I.
Qed.

Lemma removeFirst_appended n l : ~ In n l -> removeFirst n (l ++ [n]) = l.
Proof.
  induction l as [|y l IH]; simpl; [rewrite String.eqb_refl; reflexivity|]. intros H.
  destruct (String.eqb_spec n y) as [<-|N]; [exfalso; apply H; left; reflexivity|].
  rewrite IH; [reflexivity|]. intros I. apply H. right. exact I.
Qed.

Lemma removeFromGroups_keys n groups : map fst (removeFromGroups n groups) = map fst groups.
Proof.
  unfold removeFromGroups. rewrite map_map. apply map_ext. intros [g ms]. reflexivity.
Qed.

Lemma own_removeFromGroups n groups g :
  own (removeFromGroups n groups) g = option_map (removeFirst n) (own groups g).
Proof.
  induction groups as [|[g' ms] groups IH]; simpl; [reflexivity|].
  destruct (String.eqb g g'); [reflexivity|exact IH].
Qed.

Lemma own_In {V : Type} (o : object V) g v : own o g = Some v -> In (g, v) o.
Proof.
  induction o as [|[g' v'] o IH]; simpl; [discriminate|].
  destruct (String.eqb_spec g g') as [<-|N]; [intros E; inversion E; left; reflexivity|].
  intros H. right. apply IH, H.
Qed.

Lemma own_key {V : Type} (o : object V) g v : own o g = Some v -> In g (map fst o).
Proof. intros H. apply own_In in H. apply in_map_iff. exists (g, v). auto. Qed.

(** The first group that lists a category, when one group only lists it. *)
Lemma findGroup_only (groups : object (list string)) n target :
  NoDup (map fst groups) ->
  (forall g ms, own groups g = Some ms -> (In n ms <-> g = target)) ->
  (exists ms, own groups target = Some ms) ->
  findGroup groups n = Some target.
Proof.
  induction groups as [|[g0 ms0] groups IH]; intros ND Only (ms & Has); [discriminate|].
  cbn [findGroup]. inversion ND as [|? ? Nin ND']; subst.
  assert (First : own ((g0, ms0) :: groups) g0 = Some ms0)
    by (simpl; rewrite String.eqb_refl; reflexivity).
  destruct (includes ms0 n) eqn:I.
  - apply includes_In in I. apply (Only g0 ms0 First) in I. congruence.
  - apply includes_not_In in I.
    assert (Ne : target <> g0).
    { intros ->. apply I. apply (Only g0 ms0 First). reflexivity. }
    apply IH; [exact ND'| |].
    + intros g ms' H. apply Only. simpl.
      destruct (String.eqb_spec g g0) as [->|_]; [|exact H].
      exfalso. apply Nin. apply (own_key _ _ _ H).
    + exists ms. simpl in Has. apply String.eqb_neq in Ne. rewrite Ne in Has. exact Has.
Qed.

(** X27: a moved category is in its new group and in no other.  When every
    group lists a category at most once, [moveCategory], once it returns,
    leaves the category in the new group only, so that [findCategoryGroup]
    answers with that group; the other categories stay in the groups they
    were in, and the list of categories is untouched.  The call returns
    unless the new group name is a name every object inherits. *)
Theorem moveCategory_exclusive (cm : CategoryManager) (categoryName newGroupName : string) :
  NoDup (map fst (categoryGroups cm)) ->
  (forall g ms, own (categoryGroups cm) g = Some ms -> NoDup ms) ->
  inherited newGroupName = false ->
  let cm' := snd (moveCategory cm categoryName newGroupName) in
  fst (moveCategory cm categoryName newGroupName) = Returned tt
  /\ findCategoryGroup cm' categoryName = Some newGroupName
  /\ (forall g ms, own (categoryGroups cm') g = Some ms ->
        (In categoryName ms <-> g = newGroupName))
  /\ (forall g ms other, other <> categoryName -> own (categoryGroups cm) g = Some ms ->
        exists ms', own (categoryGroups cm') g = Some ms' /\ (In other ms' <-> In other ms))
  /\ categories cm' = categories cm.
Proof.
  intros Keys Once Plain. cbv zeta.
  set (groups := removeFromGroups categoryName (categoryGroups cm)).
  assert (Gone : forall g ms, own groups g = Some ms -> ~ In categoryName ms).
  { intros g ms H. unfold groups in H. rewrite own_removeFromGroups in H.
    destruct (own (categoryGroups cm) g) as [ms0|] eqn:E; [|discriminate].
    inversion H. apply removeFirst_gone. apply (Once g ms0 E). }
  assert (Keys' : NoDup (map fst groups))
    by (unfold groups; rewrite removeFromGroups_keys; exact Keys).
  assert (Shape : exists members,
            moveCategory cm categoryName newGroupName
            = (Returned tt, {| categories := categories cm;
                               categoryGroups := put newGroupName (members ++ [categoryName]) groups |})
            /\ (forall other, other <> categoryName -> In other members ->
                  exists ms, own (categoryGroups cm) newGroupName = Some ms /\ In other ms)
            /\ (forall ms, own (categoryGroups cm) newGroupName = Some ms ->
                  forall other, other <> categoryName -> In other ms -> In other members)).
  { unfold moveCategory. fold groups. destruct (own groups newGroupName) as [members|] eqn:E.
    - exists members. pose proof (Gone _ _ E) as G. apply includes_not_In in G. rewrite G.
      split; [reflexivity|]. unfold groups in E. rewrite own_removeFromGroups in E.
      destruct (own (categoryGroups cm) newGroupName) as [ms0|]; [|discriminate].
      inversion E. split.
      + intros other Ne I. exists ms0. split; [reflexivity|].
        apply (removeFirst_other _ _ _ Ne), I.
      + intros ms Ems other Ne I. inversion Ems; subst ms.
        apply (removeFirst_other _ _ _ Ne), I.
    - rewrite Plain. exists []. split; [reflexivity|]. split; [intros other _ []|].
      intros ms Ems. unfold groups in E. rewrite own_removeFromGroups, Ems in E. discriminate. }
  destruct Shape as (members & -> & Back & Forth). cbn [fst snd categories categoryGroups].
  assert (Only : forall g ms,
            own (put newGroupName (members ++ [categoryName]) groups) g = Some ms ->
            (In categoryName ms <-> g = newGroupName)).
  { intros g ms H. destruct (String.eqb_spec g newGroupName) as [->|Ne].
    - rewrite own_put_same in H. inversion H. split; [reflexivity|].
      intros _. apply in_or_app. right. left. reflexivity.
    - rewrite own_put_other in H by exact Ne. split; [|contradiction].
      intros I. destruct (Gone _ _ H I). }
  split; [reflexivity|]. split; [|split; [exact Only|split; [|reflexivity]]].
  - unfold findCategoryGroup. cbn [categoryGroups]. apply findGroup_only.
    + apply put_keys, Keys'.
    + exact Only.
    + eexists. apply own_put_same.
  - intros g ms other Ne H. destruct (String.eqb_spec g newGroupName) as [->|Ng].
    + rewrite own_put_same. eexists. split; [reflexivity|]. split.
      * intros I. apply in_app_or in I. destruct I as [I|[E|[]]]; [|congruence].
        destruct (Back other Ne I) as (ms0 & E0 & I0). congruence.
      * intros I. apply in_or_app. left. apply (Forth ms H other Ne I).
    + rewrite own_put_other by exact Ng. unfold groups. rewrite own_removeFromGroups, H.
      eexists. split; [reflexivity|]. apply removeFirst_other, Ne.
Qed.

Definition sample_manager : CategoryManager :=
  {| categories := ["Groceries"; "Dining"; "Rent"];
     categoryGroups := [("Living Expenses", ["Groceries"; "Rent"]);
                        ("Lifestyle", ["Dining"])] |}.

Lemma moveCategory_exclusive_witness :
  findCategoryGroup (snd (moveCategory sample_manager "Groceries" "Lifestyle")) "Groceries"
  = Some "Lifestyle".
Proof.
  apply (moveCategory_exclusive sample_manager "Groceries" "Lifestyle").
  - vm_compute. repeat constructor; simpl; intuition discriminate.
  - intros g ms. simpl.
    destruct (String.eqb g "Living Expenses");
      [|destruct (String.eqb g "Lifestyle"); [|discriminate]];
      intros E; inversion E; repeat constructor; simpl; intuition discriminate.
  - reflexivity.
Defined.

(** X28: a category name inherited by every object cannot be a group.
    Moving a category to a group called, say, "constructor" (when no such
    group exists) throws, and the category has by then left the group it was
    in: [findCategoryGroup] no longer finds it. *)
Theorem moveCategory_inherited_name (cm : CategoryManager) (categoryName newGroupName : string) :
  inherited newGroupName = true ->
  own (categoryGroups cm) newGroupName = None ->
  (forall g ms, In (g, ms) (categoryGroups cm) -> NoDup ms) ->
  (exists e, fst (moveCategory cm categoryName newGroupName) = Thrown e)
  /\ findCategoryGroup (snd (moveCategory cm categoryName newGroupName)) categoryName = None.
Proof.
  intros Inh Absent Once. unfold moveCategory.
  rewrite own_removeFromGroups, Absent. cbn [option_map]. rewrite Inh. cbn [fst snd].
  split; [eexists; reflexivity|]. unfold findCategoryGroup. cbn [categoryGroups].
  assert (G : forall groups,
            (forall g ms, In (g, ms) groups -> NoDup ms) ->
            findGroup (removeFromGroups categoryName groups) categoryName = None).
  { induction groups as [|[g ms] groups IH]; intros H; [reflexivity|].
    cbn [removeFromGroups map findGroup].
    replace (includes (removeFirst categoryName ms) categoryName) with false.
    - apply IH. intros g' ms' I. apply (H g' ms'). right. exact I.
    - symmetry. apply includes_not_In, removeFirst_gone, (H g ms). left. reflexivity. }
  apply G, Once.
Qed.

Lemma moveCategory_inherited_name_witness :
  findCategoryGroup (snd (moveCategory sample_manager "Groceries" "constructor")) "Groceries"
  = None.
Proof.
  apply (moveCategory_inherited_name sample_manager "Groceries" "constructor");
    [reflexivity|reflexivity|].
  intros g ms [E|[E|[]]]; inversion E; repeat constructor; simpl; intuition discriminate.
Defined.

(** ** Adding and removing *)

Lemma removeFromGroups_absent n (groups : object (list string)) :
  (forall g ms, In (g, ms) groups -> ~ In n ms) -> removeFromGroups n groups = groups.
Proof.
  induction groups as [|[g ms] groups IH]; intros H; [reflexivity|].
  cbn [removeFromGroups map]. rewrite removeFirst_absent by (apply (H g ms); left; reflexivity).
  f_equal. apply IH. intros g' ms' I. apply (H g' ms'). right. exact I.
Qed.

(** X29: adding a category and removing it again.  [addCategory] adds the
    sanitized name at the end of the list, unless it is empty or already
    there, and so keeps the list free of repetitions; removing that name
    afterwards gives back the list of before, and the groups of before when
    the category was put in no group and no group listed the name. *)
Theorem addCategory_then_removeCategory (cm : CategoryManager) (categoryName : string) :
  let name := sanitizeInput categoryName in
  let added := snd (addCategory cm categoryName None) in
  NoDup (categories cm) ->
  (fst (addCategory cm categoryName None) = Returned true
     <-> name <> EmptyString /\ ~ In name (categories cm))
  /\ NoDup (categories added)
  /\ (fst (addCategory cm categoryName None) = Returned true ->
      categories added = categories cm ++ [name]
      /\ fst (removeCategory added name) = true
      /\ categories (snd (removeCategory added name)) = categories cm
      /\ ((forall g ms, In (g, ms) (categoryGroups cm) -> ~ In name ms) ->
            snd (removeCategory added name) = cm)).
Proof.
  cbv zeta. intros ND. unfold addCategory. cbv zeta.
  destruct (String.eqb_spec (sanitizeInput categoryName) EmptyString) as [E|N]; cbn [orb].
  - cbn [fst snd]. split; [split; [discriminate|intros (H & _); contradiction]|].
    split; [exact ND|discriminate].
  - destruct (includes (categories cm) (sanitizeInput categoryName)) eqn:I; cbn [fst snd].
    + apply includes_In in I. split; [split; [discriminate|intros (_ & H); contradiction]|].
      split; [exact ND|discriminate].
    + apply includes_not_In in I. cbn [categories categoryGroups].
      split; [split; [auto|reflexivity]|]. split.
      * apply NoDup_app; [exact ND|repeat constructor; intros []|].
        intros x Hx [<-|[]]. exact (I Hx).
      * intros _. unfold removeCategory. cbn [categories categoryGroups].
        replace (includes (categories cm ++ [sanitizeInput categoryName])
                   (sanitizeInput categoryName)) with true
          by (symmetry; apply includes_In, in_or_app; right; left; reflexivity).
        cbn [fst snd categories]. rewrite removeFirst_appended by exact I.
        split; [reflexivity|]. split; [reflexivity|]. split; [reflexivity|].
        intros Free. rewrite removeFromGroups_absent by exact Free.
        destruct cm; reflexivity.
Qed.

Lemma addCategory_then_removeCategory_witness :
  NoDup (categories (snd (addCategory sample_manager "  <Travel> " None))).
Proof.
  apply (addCategory_then_removeCategory sample_manager "  <Travel> ").
  vm_compute. repeat constructor; simpl; intuition discriminate.
Defined.

End CategoriesFacts.

(** * Properties of the recently used sheets *)

Module DrivePickerFacts.
Import DrivePicker.

Lemma filter_firstn_all {A : Type} (f : A -> bool) n (l : list A) :
  filter f (firstn n (filter f l)) = firstn n (filter f l).
Proof.
  apply forallb_filter_id. apply forallb_forall. intros x Hx.
  assert (I : In x (filter f l)).
  { rewrite <- (firstn_skipn n (filter f l)). apply in_or_app. left. exact Hx. }
  apply filter_In in I. apply I.
Qed.

Lemma NoDup_firstn {A : Type} n (l : list A) : NoDup l -> NoDup (firstn n l).
Proof.
  intros H. rewrite <- (firstn_skipn n l) in H. apply NoDup_app_remove_r in H. exact H.
Qed.

Lemma NoDup_map_filter {A B : Type} (g : A -> B) (f : A -> bool) (l : list A) :
  NoDup (map g l) -> NoDup (map g (filter f l)).
Proof.
  induction l as [|x l IH]; simpl; [constructor|]. intros H.
  inversion H as [|? ? Nin ND]; subst. destruct (f x); [|exact (IH ND)].
  simpl. constructor; [|exact (IH ND)].
  intros I. apply Nin. apply in_map_iff in I. destruct I as (y & E & Hy).
  apply filter_In in Hy. apply in_map_iff. exists y. tauto.
Qed.

(** X30: the list of recent sheets is a list of the five most recently
    used.  After [storeRecentSheet] the sheet stored is first, it is the
    only entry with its ID, the list has at most five entries, the other
    entries are those of before in their order, and IDs that were distinct
    stay distinct; storing the same sheet again changes nothing. *)
Theorem storeRecentSheet_most_recent_first (info : sheetInfo) (recentSheets : list sheetInfo) :
  let stored := storeRecentSheet info recentSheets in
  let others := filter (fun sheet => negb (String.eqb (id sheet) (id info))) recentSheets in
  stored = info :: firstn 4 others
  /\ (List.length stored <= 5)%nat
  /\ ~ In (id info) (map id (firstn 4 others))
  /\ (NoDup (map id recentSheets) -> NoDup (map id stored))
  /\ storeRecentSheet info stored = stored.
Proof.
  cbv zeta. unfold storeRecentSheet. cbv zeta.
  change 5%nat with (S 4). rewrite !firstn_cons.
  set (keep := fun sheet => negb (String.eqb (id sheet) (id info))).
  set (others := filter keep recentSheets).
  assert (Fresh : ~ In (id info) (map id (firstn 4 others))).
  { intros I. apply in_map_iff in I. destruct I as (x & E & Hx).
    assert (Ix : In x others).
    { rewrite <- (firstn_skipn 4 others). apply in_or_app. left. exact Hx. }
    apply filter_In in Ix. destruct Ix as (_ & K). unfold keep in K.
    rewrite E, String.eqb_refl in K. discriminate. }
  split; [reflexivity|]. split; [|split; [exact Fresh|split]].
  - cbn [List.length]. pose proof (firstn_le_length 4 others). lia.
  - intros ND. cbn [map]. constructor; [exact Fresh|].
    rewrite <- firstn_map. apply NoDup_firstn. unfold others. apply NoDup_map_filter, ND.
  - cbn [filter]. unfold keep at 1. rewrite String.eqb_refl. cbn [negb].
    unfold others. rewrite filter_firstn_all.
    f_equal. rewrite firstn_firstn. reflexivity.
Qed.

Lemma storeRecentSheet_most_recent_first_witness :
  let a := {| id := "sheet-a"; name := "Budget 2024"; lastUsed := "2024-03-02T10:00:00.000Z" |} in
  let b := {| id := "sheet-b"; name := "Budget 2023"; lastUsed := "2024-01-15T09:30:00.000Z" |} in
  NoDup (map id (storeRecentSheet b [a; b])).
Proof.
  intros a b. apply (storeRecentSheet_most_recent_first b [a; b]).
  vm_compute. repeat constructor; simpl; intuition discriminate.
Defined.

End DrivePickerFacts.
